(** * tPlace: the packed-pixel canvas of [backend/redis_project/canvas.py]

    A shallow embedding of the canvas module: the offset calculation, the
    [Canvas] class and the store it talks to.  Python integers are [Z],
    Python strings are [string], [bytes] is a list of 8-bit integers, and
    the Redis server is an explicit state threaded through a small
    state-and-exception monad: a call returns a value or raises, and the
    server keeps whatever was done to it before the exception.  The calls
    to the logger have no bearing on results or on the store and are left
    out.  One server is modelled; the host and port of a client handle are
    recorded but do not select among servers. *)

From Stdlib Require Import ZArith String Ascii List Lia.
From Stdlib Require Import DecimalString DecimalZ DecimalPos.
From stdpp Require Import gmap strings list.

Local Open Scope string_scope.
Local Open Scope list_scope.
Local Open Scope Z_scope.

(** ** Python built-ins used by the module *)

(** [str(n)] on an integer: canonical decimal, with a leading minus sign
    for negative numbers. *)
Definition str (n : Z) : string := NilZero.string_of_int (Z.to_int n).

(** [int(s)] restricted to what [str] prints: the canonical decimal
    numerals.  The store uses it to read the index of an addressing token. *)
Definition parse_int (s : string) : option Z :=
  match NilZero.int_of_string s with
  | Some d => let n := Z.of_int d in
              if String.eqb (str n) s then Some n else None
  | None => None
  end.

(** [str(l)] on a list of integers: the elements in brackets, separated by
    a comma and a space. *)
Definition str_list (l : list Z) : string :=
  String.concat "" ["["; String.concat ", " (map str l); "]"].

(** [range(a, b)]: the integers [a], [a+1], ..., [b-1]; empty when [b <= a]. *)
Definition range (a b : Z) : list Z := seqZ a (b - a).

(** ** [commons]: the names [canvas.py] takes from [from commons import *] *)

Module commons.

(** Modelled from the spec: [convert_one_index_to_zero_index] is defined
    in [commons.py], which is not part of the sources at hand; section
    4.1 gives it as [zero_index = index - 1]. *)
Definition convert_one_index_to_zero_index (index : Z) : Z := index - 1.

(** Modelled from the spec: the [Color] enumeration of [commons.py], with
    the two members the canvas module names, [WHITE] and [GREY], and the
    codes of section 3 and Scenario B ([WHITE = 0], [GREY = 1]). *)
Inductive Color : Set := WHITE | GREY.

Definition value (c : Color) : Z :=
  match c with
  | WHITE => 0
  | GREY => 1
  end.

End commons.
Import commons.

(** ** The offset calculation *)

Definition format_offset (pixel_offset : Z) : string :=
  String.concat "" ["#"; str pixel_offset].

Definition calculate_offset
    (pixel_x_coordinate pixel_y_coordinate canvas_width : Z) : string :=
  let height_index_offset :=
    convert_one_index_to_zero_index pixel_y_coordinate * canvas_width in
  let width_index_offset :=
    convert_one_index_to_zero_index pixel_x_coordinate in
  let offset := format_offset (height_index_offset + width_index_offset) in
  offset.

(** The linear index of section 3, for stating results. *)
Definition linear_index (x y canvas_width : Z) : Z :=
  (y - 1) * canvas_width + (x - 1).

(** ** The store

    The canvas lives in a Redis string, addressed through [BITFIELD].  The
    server is an external collaborator; it is modelled here at the level of
    the three commands the module sends (section 6 of the specification):
    a field read, a field write and a whole-value read.  Bit [0] of a value
    is the most significant bit of its first byte; a field of [n] bits is
    stored most significant bit first; a write beyond the end of the value
    extends it with zero bytes, a read beyond the end sees zero bits. *)

Inductive error : Set :=
| ConnectionError   (* the round trip did not complete *)
| ResponseError.    (* the server refused the command *)

(** A parsed field-width specification: [u4] is four unsigned bits. *)
Record field_type : Set := { signed : bool; bits : nat }.

Definition parse_format (fmt : string) : option field_type :=
  match fmt with
  | EmptyString => None
  | String c digits =>
      match parse_int digits with
      | None => None
      | Some n =>
          if Ascii.eqb c "u" then
            if bool_decide (1 <= n <= 63)
            then Some {| signed := false; bits := Z.to_nat n |} else None
          else if Ascii.eqb c "i" then
            if bool_decide (1 <= n <= 64)
            then Some {| signed := true; bits := Z.to_nat n |} else None
          else None
      end
  end.

(** The server addresses at most 512 MB, that is [2^32] bits. *)
Definition ADDRESSABLE_BITS : Z := 2 ^ 32.

(** The server computes with signed 64-bit integers ([long long]): what an
    integer becomes when it is kept in one, by wrap-around. *)
Definition wrap64 (z : Z) : Z := (z + 2 ^ 63) mod 2 ^ 64 - 2 ^ 63.

(** The server reads a numeral into a signed 64-bit integer and refuses
    one that does not fit. *)
Definition parse_ll (s : string) : option Z :=
  match parse_int s with
  | Some n => if bool_decide (- 2 ^ 63 <= n < 2 ^ 63) then Some n else None
  | None => None
  end.

(** An offset is a bit offset, or, written ["#i"], the [i]-th field of the
    given width: the server multiplies [i] by the width in 64-bit
    arithmetic, without a check for overflow, and then refuses a bit
    offset that is negative or not below [2^32].  The result is the bit
    offset of the field's first bit. *)
Definition parse_offset (offset : string) (ty : field_type) : option nat :=
  let numeral :=
    match offset with
    | String c digits =>
        if Ascii.eqb c "#"
        then option_map (fun i => wrap64 (i * Z.of_nat (bits ty)))
                        (parse_ll digits)
        else parse_ll offset
    | EmptyString => None
    end in
  match numeral with
  | Some k => if bool_decide (0 <= k < ADDRESSABLE_BITS)
              then Some (Z.to_nat k) else None
  | None => None
  end.

Definition byte_at (b : list Z) (i : nat) : Z := default 0 (b !! i).

Definition get_bit (b : list Z) (k : nat) : bool :=
  Z.testbit (byte_at b (k / 8)) (Z.of_nat (7 - k mod 8)).

Definition put_bit (b : list Z) (k : nat) (v : bool) : list Z :=
  alter (fun c => if v then Z.setbit c (Z.of_nat (7 - k mod 8))
                  else Z.clearbit c (Z.of_nat (7 - k mod 8))) (k / 8)%nat b.

(** The unsigned value of the [n] bits from bit [k] on. *)
Fixpoint read_bits (b : list Z) (k n : nat) : Z :=
  match n with
  | O => 0
  | S n' => (if get_bit b k then 2 ^ Z.of_nat n' else 0) + read_bits b (S k) n'
  end.

(** Stores the [n] low bits of [v] from bit [k] on. *)
Fixpoint write_bits (b : list Z) (k n : nat) (v : Z) : list Z :=
  match n with
  | O => b
  | S n' => write_bits (put_bit b k (Z.testbit v (Z.of_nat n'))) (S k) n' v
  end.

Definition grow (b : list Z) (len : nat) : list Z :=
  b ++ replicate (len - length b) 0.

(** Bytes needed to hold the bits below [k]. *)
Definition bytes_for (k : nat) : nat := ((k + 7) / 8)%nat.

Definition decode (ty : field_type) (u : Z) : Z :=
  if signed ty && (2 ^ (Z.of_nat (bits ty) - 1) <=? u)
  then u - 2 ^ Z.of_nat (bits ty) else u.

(** What a field of type [ty] holds after [v] is stored in it. *)
Definition wrap (ty : field_type) (v : Z) : Z :=
  decode ty (v mod 2 ^ Z.of_nat (bits ty)).

(** [v] is representable in a field of type [ty]. *)
Definition fits (ty : field_type) (v : Z) : Prop :=
  if signed ty
  then - 2 ^ (Z.of_nat (bits ty) - 1) <= v < 2 ^ (Z.of_nat (bits ty) - 1)
  else 0 <= v < 2 ^ Z.of_nat (bits ty).

Definition blob_of (d : gmap string (list Z)) (key : string) : list Z :=
  default [] (d !! key).

Definition field_value (d : gmap string (list Z)) (key : string)
    (ty : field_type) (k : nat) : Z :=
  decode ty (read_bits (blob_of d key) k (bits ty)).

Definition field_store (d : gmap string (list Z)) (key : string)
    (ty : field_type) (k : nat) (v : Z) : gmap string (list Z) :=
  <[key := write_bits (grow (blob_of d key) (bytes_for (k + bits ty)))
                      k (bits ty) v]> d.

(** [BITFIELD key GET fmt offset]: the decoded field. *)
Definition bitfield_get_reply (key fmt offset : string)
    (d : gmap string (list Z)) : error + Z * gmap string (list Z) :=
  match parse_format fmt with
  | None => inl ResponseError
  | Some ty =>
      match parse_offset offset ty with
      | None => inl ResponseError
      | Some k => inr (field_value d key ty k, d)
      end
  end.

(** [BITFIELD key SET fmt offset value]: stores the value (which must be a
    64-bit integer) and replies with the previous content of the field. *)
Definition bitfield_set_reply (key fmt offset : string) (v : Z)
    (d : gmap string (list Z)) : error + Z * gmap string (list Z) :=
  match parse_format fmt with
  | None => inl ResponseError
  | Some ty =>
      match parse_offset offset ty with
      | None => inl ResponseError
      | Some k =>
          if bool_decide (- 2 ^ 63 <= v < 2 ^ 63)
          then inr (field_value d key ty k, field_store d key ty k v)
          else inl ResponseError
      end
  end.

(** [GET key]: the whole value, [None] when the key does not exist. *)
Definition get_reply (key : string) (d : gmap string (list Z))
  : error + option (list Z) * gmap string (list Z) :=
  inr (d !! key, d).

(** The commands as they go over the wire. *)
Inductive command : Set :=
| BITFIELD_GET (key fmt offset : string)
| BITFIELD_SET (key fmt offset : string) (v : Z)
| GET (key : string).

(** What becomes of a round trip: it is delivered, or the connection
    fails before the request reaches the server, or it fails after the
    server has carried the request out, so that only the reply is lost. *)
Inductive fate : Set := Delivered | RequestLost | ReplyLost.

(** The server as the client sees it: the stored values, the commands sent
    so far (oldest first), and the fates of the round trips to come; an
    exhausted list means a healthy connection. *)
Record server : Type := {
  db : gmap string (list Z);
  sent : list command;
  outages : list fate
}.

Definition next_fate (s : server) : fate := hd Delivered (outages s).

(** ** Calls that change the server and may raise *)

Definition M (A : Type) : Type := server -> (error + A) * server.

Definition ret {A : Type} (a : A) : M A := fun s => (inr a, s).

Definition bind {A B : Type} (m : M A) (k : A -> M B) : M B :=
  fun s =>
    match m s with
    | (inr a, s') => k a s'
    | (inl e, s') => (inl e, s')
    end.

Notation "x <- m ;; k" := (bind m (fun x => k))
  (at level 20, m at level 99, k at level 200, only parsing).

(** [for x in l: body]. *)
Fixpoint for_each {A : Type} (l : list A) (body : A -> M unit) : M unit :=
  match l with
  | [] => ret tt
  | a :: l' => _ <- body a ;; for_each l' body
  end.

(** [for x in l: acc = body(acc, x)], the loop carrying a local variable. *)
Fixpoint for_fold {A B : Type} (l : list A) (acc : B) (body : B -> A -> M B)
  : M B :=
  match l with
  | [] => ret acc
  | a :: l' => acc' <- body acc a ;; for_fold l' acc' body
  end.

(** One request/response exchange: the command is recorded, the next
    entry of [outages] is consumed, and unless the request is lost the
    server computes its reply and keeps the data it produces; the caller
    gets the reply only if the round trip is delivered. *)
Definition round_trip {A : Type} (c : command)
    (reply : gmap string (list Z) -> error + A * gmap string (list Z)) : M A :=
  fun s =>
    let s1 := {| db := db s; sent := sent s ++ [c];
                 outages := tail (outages s) |} in
    match next_fate s with
    | RequestLost => (inl ConnectionError, s1)
    | ReplyLost =>
        match reply (db s) with
        | inl _ => (inl ConnectionError, s1)
        | inr (_, d) =>
            (inl ConnectionError,
             {| db := d; sent := sent s1; outages := outages s1 |})
        end
    | Delivered =>
        match reply (db s) with
        | inl e => (inl e, s1)
        | inr (a, d) =>
            (inr a, {| db := d; sent := sent s1; outages := outages s1 |})
        end
    end.

(** ** The Redis client: [redis.Redis(host, port)] and the calls used

    [client.bitfield(key)] starts a [BITFIELD] command, [.get] and [.set]
    queue a sub-command, and [.execute()] sends the command and returns
    the replies as a list, one value per queued sub-command (in the words
    of redis-py, the return value is a list of values corresponding to
    each operation).  The canvas always queues exactly one, so what it
    gets back is a one-element list. *)

Record Redis : Set := { host : string; port : Z }.

(** [client.bitfield(key).get(fmt, offset).execute()] *)
Definition bitfield_get (client : Redis) (key fmt offset : string)
  : M (list Z) :=
  reply <- round_trip (BITFIELD_GET key fmt offset)
                      (bitfield_get_reply key fmt offset) ;;
  ret [reply].

(** [client.bitfield(key).set(fmt, offset, value).execute()] *)
Definition bitfield_set (client : Redis) (key fmt offset : string) (v : Z)
  : M (list Z) :=
  reply <- round_trip (BITFIELD_SET key fmt offset v)
                      (bitfield_set_reply key fmt offset v) ;;
  ret [reply].

(** [client.get(name)] *)
Definition get (client : Redis) (key : string) : M (option (list Z)) :=
  round_trip (GET key) (get_reply key).

(** ** The [Canvas] class *)

Record Canvas : Set := {
  width : Z;
  height : Z;
  name : string;
  pixel_format : string;
  database : Redis
}.

Definition newline : string := String "010"%char "".

Definition get_pixel_color (self : Canvas)
    (pixel_x_coordinate pixel_y_coordinate : Z) : M (list Z) :=
  let offset :=
    calculate_offset pixel_x_coordinate pixel_y_coordinate (width self) in
  pixel_value <-
    bitfield_get (database self) (name self) (pixel_format self) offset ;;
  ret pixel_value.

Definition set_pixel_color (self : Canvas)
    (pixel_x_coordinate pixel_y_coordinate : Z) (color : Color) : M unit :=
  let offset :=
    calculate_offset pixel_x_coordinate pixel_y_coordinate (width self) in
  _ <- bitfield_set (database self) (name self) (pixel_format self) offset
                    (value color) ;;
  ret tt.

Definition set_pixel_region (self : Canvas)
    (top_left_pixel_x_coordinate top_left_pixel_y_coordinate
     bottom_right_pixel_x_coordinate bottom_right_pixel_y_coordinate : Z)
  : M unit :=
  for_each (range top_left_pixel_y_coordinate
                  (bottom_right_pixel_y_coordinate + 1))
    (fun y_coordinate =>
       for_each (range top_left_pixel_x_coordinate
                       (bottom_right_pixel_x_coordinate + 1))
         (fun x_coordinate =>
            let offset :=
              calculate_offset x_coordinate y_coordinate (width self) in
            _ <- bitfield_set (database self) (name self) (pixel_format self)
                              offset (value WHITE) ;;
            ret tt)).

Definition get_canvas (self : Canvas) : M (option (list Z)) :=
  bitfield <- get (database self) (name self) ;;
  ret bitfield.

Definition to_string (self : Canvas) : M string :=
  for_fold (range 0 (height self)) ""
    (fun bitfield_string y_coordinate =>
       bitfield_string <-
         for_fold (range 0 (width self)) bitfield_string
           (fun bitfield_string x_coordinate =>
              let offset :=
                calculate_offset (x_coordinate + 1) (y_coordinate + 1)
                                 (width self) in
              next_pixel_value <-
                bitfield_get (database self) (name self) (pixel_format self)
                             offset ;;
              ret (String.concat ""
                     [bitfield_string; str_list next_pixel_value])) ;;
       ret (String.concat "" [bitfield_string; newline])).

Section Construction.

(** The module constants [CANVAS_WIDTH] and [CANVAS_HEIGHT] come from
    [commons.py]; their values are left open. *)
Variables CANVAS_WIDTH CANVAS_HEIGHT : Z.

Definition _fill_with_white_pixels (self : Canvas) : M unit :=
  set_pixel_region self 1 1 CANVAS_WIDTH CANVAS_HEIGHT.

Definition __init__ (width height : Z) (pixel_format name host : string)
    (port : Z) : M Canvas :=
  let self := {| width := width; height := height; name := name;
                 pixel_format := pixel_format;
                 database := {| host := host; port := port |} |} in
  _ <- _fill_with_white_pixels self ;;
  ret self.

End Construction.

(** ** Vocabulary for the statements

    Pure descriptions of what the operations send and of what the stored
    data answers, defined from the server functions above. *)

(** The pixels of the inclusive rectangle in the order of the nested
    loops of [set_pixel_region]: rows outermost, columns innermost. *)
Definition region_cells (x1 y1 x2 y2 : Z) : list (Z * Z) :=
  flat_map (fun y => map (fun x => (x, y)) (range x1 (x2 + 1)))
           (range y1 (y2 + 1)).

(** The pixels in the order [to_string] scans them. *)
Definition scan_cells (self : Canvas) : list (Z * Z) :=
  flat_map (fun y => map (fun x => (x + 1, y + 1)) (range 0 (width self)))
           (range 0 (height self)).

(** The linear index a pixel has on this canvas. *)
Definition cell_index (self : Canvas) (cell : Z * Z) : Z :=
  linear_index (fst cell) (snd cell) (width self).

(** The bit offset the server derives from the token of a linear index:
    the index times the field width, wrapped to 64 bits. *)
Definition field_bit (ty : field_type) (i : Z) : nat :=
  Z.to_nat (wrap64 (i * Z.of_nat (bits ty))).

(** The field with linear index [i] is one the server can address: the
    index is a 64-bit integer and the bit offset derived from it lies in
    [0, 2^32). *)
Definition addressable (ty : field_type) (i : Z) : Prop :=
  - 2 ^ 63 <= i < 2 ^ 63
  /\ 0 <= wrap64 (i * Z.of_nat (bits ty)) < ADDRESSABLE_BITS.

(** The product of the linear index [i] and the field width is a 64-bit
    integer, so that the server's multiplication does not wrap around. *)
Definition unwrapped (ty : field_type) (i : Z) : Prop :=
  - 2 ^ 63 <= i * Z.of_nat (bits ty) < 2 ^ 63.

(** The number of bytes a value must have to hold the field of a pixel. *)
Definition cell_extent (self : Canvas) (ty : field_type) (cell : Z * Z)
  : nat :=
  bytes_for (field_bit ty (cell_index self cell) + bits ty).

(** [ceil(width * height * bits / 8)], the packed length of section 3. *)
Definition packed_length (w h : Z) (ty : field_type) : Z :=
  (w * h * Z.of_nat (bits ty) + 7) / 8.

Definition write_command (self : Canvas) (v : Z) (cell : Z * Z) : command :=
  BITFIELD_SET (name self) (pixel_format self)
               (calculate_offset (fst cell) (snd cell) (width self)) v.

Definition read_command (self : Canvas) (cell : Z * Z) : command :=
  BITFIELD_GET (name self) (pixel_format self)
               (calculate_offset (fst cell) (snd cell) (width self)).

(** The server after one more exchange that left the data alone. *)
Definition after_exchange (c : command) (s : server) : server :=
  {| db := db s; sent := sent s ++ [c]; outages := tail (outages s) |}.

(** The next round trip will be delivered. *)
Definition delivered (s : server) : Prop := next_fate s = Delivered.

(** The data after the server has carried out the write of [v] to a pixel
    (the data itself when the server refuses the write). *)
Definition db_after_write (self : Canvas) (v : Z)
    (d : gmap string (list Z)) (cell : Z * Z) : gmap string (list Z) :=
  match bitfield_set_reply (name self) (pixel_format self)
          (calculate_offset (fst cell) (snd cell) (width self)) v d with
  | inr (_, d') => d'
  | inl _ => d
  end.

(** What the server answers when asked for a pixel of the data [d]. *)
Definition stored_color (self : Canvas) (d : gmap string (list Z))
    (x y : Z) : error + Z :=
  match bitfield_get_reply (name self) (pixel_format self)
          (calculate_offset x y (width self)) d with
  | inr (v, _) => inr v
  | inl e => inl e
  end.

(** What [get_pixel_color] hands back for a pixel of the data [d] when the
    round trip is delivered. *)
Definition pixel_reply (self : Canvas) (d : gmap string (list Z))
    (x y : Z) : error + list Z :=
  match stored_color self d x y with
  | inr v => inr [v]
  | inl e => inl e
  end.

(** The bits of the stored value the server addresses for a pixel: the
    first bit and the number of bits of its field; [None] when the server
    refuses the token or the format. *)
Definition pixel_field (self : Canvas) (x y : Z) : option (nat * nat) :=
  match parse_format (pixel_format self) with
  | Some ty =>
      option_map (fun k => (k, bits ty))
                 (parse_offset (calculate_offset x y (width self)) ty)
  | None => None
  end.

(** The fields of the pixels [(x, y)] and [(x', y')] share no bit (which
    is so in particular when the server addresses no field for one of
    them). *)
Definition clear_of (self : Canvas) (x y x' y' : Z) : Prop :=
  match pixel_field self x y, pixel_field self x' y' with
  | Some (k, n), Some (k', n') => (k + n <= k' \/ k' + n' <= k)%nat
  | _, _ => True
  end.

(** One iteration of the fill loop: the body of the inner loop of
    [set_pixel_region] at the pixel [cell]. *)
Definition paint (self : Canvas) (cell : Z * Z) : M unit :=
  set_pixel_color self (fst cell) (snd cell) WHITE.

(** One write of a sequence of single-pixel writes: the pixel and its
    colour. *)
Definition recolor (self : Canvas) (w : Z * Z * Color) : M unit :=
  set_pixel_color self (fst (fst w)) (snd (fst w)) (snd w).

(** The body of the inner loop of [to_string] in row [y]. *)
Definition cell_step (self : Canvas) (y : Z) (bitfield_string : string)
    (x_coordinate : Z) : M string :=
  let offset := calculate_offset (x_coordinate + 1) (y + 1) (width self) in
  next_pixel_value <-
    bitfield_get (database self) (name self) (pixel_format self) offset ;;
  ret (String.concat "" [bitfield_string; str_list next_pixel_value]).

(** The body of the outer loop of [to_string]. *)
Definition row_step (self : Canvas) (bitfield_string : string)
    (y_coordinate : Z) : M string :=
  bitfield_string <-
    for_fold (range 0 (width self)) bitfield_string
             (cell_step self y_coordinate) ;;
  ret (String.concat "" [bitfield_string; newline]).

Definition join (l : list string) : string := foldr String.append "" l.

(** The text [to_string] appends for a pixel: [str] of the reply. *)
Definition pixel_text (self : Canvas) (d : gmap string (list Z))
    (cell : Z * Z) : string :=
  match pixel_reply self d (fst cell) (snd cell) with
  | inr reply => str_list reply
  | inl _ => ""
  end.

(** The text of a full scan of the data [d]: per row, the texts of its
    pixels, then a line break. *)
Definition render (self : Canvas) (d : gmap string (list Z)) : string :=
  join (map (fun y =>
               join (map (fun x => pixel_text self d (x + 1, y + 1))
                         (range 0 (width self))) +:+ newline)
            (range 0 (height self))).

(** ** Clients of the class

    A client holds a canvas and calls its methods one after the other; a
    call that raises leaves the server as it was when the exception came,
    and the client goes on. *)

Inductive method_call : Set :=
| Get_pixel_color (x y : Z)
| Set_pixel_color (x y : Z) (color : Color)
| Set_pixel_region (x1 y1 x2 y2 : Z)
| Get_canvas
| To_string.

(** The server after a call, whether it returned or raised. *)
Definition after_call (self : Canvas) (s : server) (c : method_call)
  : server :=
  match c with
  | Get_pixel_color x y => snd (get_pixel_color self x y s)
  | Set_pixel_color x y color => snd (set_pixel_color self x y color s)
  | Set_pixel_region x1 y1 x2 y2 => snd (set_pixel_region self x1 y1 x2 y2 s)
  | Get_canvas => snd (get_canvas self s)
  | To_string => snd (to_string self s)
  end.

Definition after_calls (self : Canvas) (calls : list method_call)
    (s : server) : server :=
  foldl (after_call self) s calls.

(** The call writes to pixels of the canvas only: a single pixel in
    range, or a rectangle within the canvas.  Reads are not restricted. *)
Definition writes_on_canvas (self : Canvas) (c : method_call) : Prop :=
  match c with
  | Set_pixel_color x y _ => 1 <= x <= width self /\ 1 <= y <= height self
  | Set_pixel_region x1 y1 x2 y2 =>
      1 <= x1 /\ x2 <= width self /\ 1 <= y1 /\ y2 <= height self
  | _ => True
  end.

(** The key of the canvas exists and its value has [len] bytes. *)
Definition holds (self : Canvas) (len : nat) (d : gmap string (list Z))
  : Prop :=
  is_Some (d !! name self) /\ length (blob_of d (name self)) = len.

(** ** Concrete servers and canvases for the examples *)

Definition local_client : Redis := {| host := "localhost"; port := 6379 |}.

Definition empty_server : server := {| db := ∅; sent := []; outages := [] |}.

Definition canvas_2x2 : Canvas :=
  {| width := 2; height := 2; name := "canvas"; pixel_format := "u4";
     database := local_client |}.

Definition canvas_6x1 : Canvas :=
  {| width := 6; height := 1; name := "canvas"; pixel_format := "u4";
     database := local_client |}.

(** The canvas of the scenarios of section 8. *)
Definition canvas_5x5 : Canvas :=
  {| width := 5; height := 5; name := "canvas"; pixel_format := "u4";
     database := local_client |}.

(** A server on which pixel [(1,2)] of [canvas_2x2] is GREY. *)
Definition grey_at_1_2 : server :=
  snd (set_pixel_color canvas_2x2 1 2 GREY empty_server).

(** A server on which pixel [(6,1)] of [canvas_6x1] is GREY. *)
Definition grey_at_6_1 : server :=
  snd (set_pixel_color canvas_6x1 6 1 GREY empty_server).

(** [canvas_2x2] filled with GREY, on a connection that delivers two
    round trips and loses the third request. *)
Definition grey_2x2_flaky : server :=
  let s := snd (for_each (region_cells 1 1 2 2)
                  (fun cell => set_pixel_color canvas_2x2 (fst cell) (snd cell)
                                 GREY) empty_server) in
  {| db := db s; sent := []; outages := [Delivered; Delivered; RequestLost] |}.

(** The same, with the reply of the third round trip lost instead. *)
Definition grey_2x2_reply_lost : server :=
  {| db := db grey_2x2_flaky; sent := [];
     outages := [Delivered; Delivered; ReplyLost] |}.

(** The same data, on a connection that delivers four round trips and
    loses the fifth request. *)
Definition grey_2x2_fifth_lost : server :=
  {| db := db grey_2x2_flaky; sent := [];
     outages := [Delivered; Delivered; Delivered; Delivered; RequestLost] |}.

(** A server on which the key of [canvas_2x2] already holds three bytes. *)
Definition three_bytes_stored : server :=
  {| db := {[ "canvas" := [0; 0; 255] ]}; sent := []; outages := [] |}.

(** The server right after the construction of [canvas_5x5] on an empty
    store, with [CANVAS_WIDTH = CANVAS_HEIGHT = 5]. *)
Definition fresh_5x5 : server :=
  snd (__init__ 5 5 5 5 "u4" "canvas" "localhost" 6379 empty_server).

(** Five rows of five ["0"], each row followed by a line break. *)
Definition zero_grid_5x5 : string :=
  join (replicate 5 ("00000" +:+ newline)).

(** What [to_string] returns for a 5 x 5 canvas that is WHITE throughout. *)
Definition white_scan_5x5 : string :=
  join (replicate 5 ("[0][0][0][0][0]" +:+ newline)).

(** ** The script: the [if __name__ == "__main__":] block

    The script prints, so its state is the server together with what has
    been printed so far, one entry per call of [print] (the text without
    the line break [print] adds).  The handler set on the logger changes
    nothing here, logging being left out. *)

Definition P (A : Type) : Type :=
  list string * server -> (error + A) * (list string * server).

Definition pbind {A B : Type} (m : P A) (k : A -> P B) : P B :=
  fun w =>
    match m w with
    | (inr a, w') => k a w'
    | (inl e, w') => (inl e, w')
    end.

Notation "x <-- m ;; k" := (pbind m (fun x => k))
  (at level 20, m at level 99, k at level 200, only parsing).

(** A call of a method of the canvas from the script. *)
Definition call {A : Type} (m : M A) : P A :=
  fun w =>
    match m (snd w) with
    | (r, s') => (r, (fst w, s'))
    end.

(** [print(text)] *)
Definition print (text : string) : P unit :=
  fun w => (inr tt, (fst w ++ [text], snd w)).

(** [try: body except Exception as e: handler(e)] *)
Definition try_except {A : Type} (body : P A) (handler : error -> P A) : P A :=
  fun w =>
    match body w with
    | (inl e, w') => handler e w'
    | (inr a, w') => (inr a, w')
    end.

Section Script.

(** The module constants of [commons.py], left open, and [str(e)] for the
    exceptions of the client library, left open as well. *)
Variables CANVAS_WIDTH CANVAS_HEIGHT : Z.
Variables PIXEL_FORMAT CANVAS_NAME REDIS_HOST_ADDRESS : string.
Variable REDIS_HOST_PORT : Z.
Variable exception_text : error -> string.

Definition main : P unit :=
  canvas <-- call (__init__ CANVAS_WIDTH CANVAS_HEIGHT
                     CANVAS_WIDTH CANVAS_HEIGHT PIXEL_FORMAT CANVAS_NAME
                     REDIS_HOST_ADDRESS REDIS_HOST_PORT) ;;
  text <-- call (to_string canvas) ;;
  _ <-- print text ;;
  _ <-- call (for_each (range 0 CANVAS_HEIGHT)
                (fun i =>
                   for_each (range 0 CANVAS_WIDTH)
                     (fun j => set_pixel_color canvas (j + 1) (i + 1) GREY))) ;;
  text <-- call (to_string canvas) ;;
  _ <-- print text ;;
  _ <-- try_except
          (_ <-- call (set_pixel_region canvas 2 2 4 4) ;;
           print "Completed")
          (fun e => print (exception_text e)) ;;
  text <-- call (to_string canvas) ;;
  print text.

End Script.

(** The text of a [w] by [h] scan in which pixel [(x, y)] shows as
    [cell x y]. *)
Definition grid (w h : Z) (cell : Z -> Z -> string) : string :=
  join (map (fun y =>
               join (map (fun x => cell (x + 1) (y + 1)) (range 0 w))
               +:+ newline)
            (range 0 h)).

(** The writes of the script's loop that turns the canvas GREY. *)
Definition grey_writes (self : Canvas) : list (Z * Z * Color) :=
  map (fun cell => (cell, GREY)) (scan_cells self).

(** The script from its [try] statement on. *)
Definition script_from_try (canvas : Canvas)
    (exception_text : error -> string) : P unit :=
  _ <-- try_except
          (_ <-- call (set_pixel_region canvas 2 2 4 4) ;;
           print "Completed")
          (fun e => print (exception_text e)) ;;
  text <-- call (to_string canvas) ;;
  print text.

(** The next [n] round trips will be delivered. *)
Definition calm (n : nat) (s : server) : Prop :=
  Forall (fun f => f = Delivered) (take n (outages s)).

(** A connection that delivers [n] round trips and loses the next
    request. *)
Definition lost_after (n : nat) : server :=
  {| db := ∅; sent := []; outages := replicate n Delivered ++ [RequestLost] |}.

Definition sample_text (e : error) : string :=
  match e with
  | ConnectionError => "connection lost"
  | ResponseError => "refused"
  end.

(** ** Facts about [str], [parse_int] and [range] *)

Lemma str_inj (m n : Z) : str m = str n -> m = n.
Proof.
  unfold str. intros H.
  apply DecimalZ.to_int_inj.
  assert (Hs : forall d, NilZero.int_of_string (NilZero.string_of_int (Z.to_int d))
                         = Some (Z.to_int d)).
  { intros d. apply NilZero.isi; destruct d; simpl; try discriminate;
      intros [= E]; exact (Unsigned.to_uint_nonnil _ E). }
  pose proof (Hs m) as Hm. rewrite H, Hs in Hm. congruence.
Qed.

Lemma parse_int_str (n : Z) : parse_int (str n) = Some n.
Proof.
  unfold parse_int.
  assert (Hs : NilZero.int_of_string (str n) = Some (Z.to_int n)).
  { unfold str. apply NilZero.isi; destruct n; simpl; try discriminate;
      intros [= E]; exact (Unsigned.to_uint_nonnil _ E). }
  rewrite Hs. cbv zeta. rewrite DecimalZ.of_to.
  now rewrite String.eqb_refl.
Qed.

Lemma format_offset_eq (n : Z) : format_offset n = String "#" (str n).
Proof.
  unfold format_offset. simpl. now destruct (str n).
Qed.

Lemma format_offset_inj (m n : Z) : format_offset m = format_offset n -> m = n.
Proof.
  rewrite !format_offset_eq. intros [= H]. now apply str_inj.
Qed.

Lemma calculate_offset_eq (x y w : Z) :
  calculate_offset x y w = format_offset (linear_index x y w).
Proof. reflexivity. Qed.

Lemma elem_of_range (a b i : Z) : i ∈ range a b <-> a <= i < b.
Proof. unfold range. rewrite elem_of_seqZ. lia. Qed.

Lemma range_empty (a b : Z) : b <= a -> range a b = [].
Proof.
  intros H. unfold range, seqZ.
  replace (Z.to_nat (b - a)) with 0%nat by lia. reflexivity.
Qed.

(** ** Bits of a stored value *)

Lemma same_byte_same_bit (j k : nat) :
  (j / 8 = k / 8)%nat -> (j mod 8 = k mod 8)%nat -> j = k.
Proof.
  intros Hd Hm.
  rewrite (Nat.div_mod_eq j 8), (Nat.div_mod_eq k 8). congruence.
Qed.

Lemma bit_position (k : nat) : (k mod 8 < 8)%nat.
Proof. apply Nat.mod_upper_bound. discriminate. Qed.

Lemma get_bit_put_bit (b : list Z) (k j : nat) (v : bool) :
  (k / 8 < length b)%nat ->
  get_bit (put_bit b k v) j = if decide (j = k) then v else get_bit b j.
Proof.
  intros Hk. unfold get_bit, put_bit, byte_at.
  destruct (lookup_lt_is_Some_2 b (k / 8)%nat Hk) as [c Hc].
  destruct (decide ((k / 8)%nat = (j / 8)%nat)) as [Hd | Hd].
  - rewrite <- Hd, list_lookup_alter_eq, Hc. simpl.
    pose proof (bit_position k). pose proof (bit_position j).
    destruct (decide (j = k)) as [-> | Hne].
    + destruct v.
      * apply Z.setbit_eq. lia.
      * apply Z.clearbit_eq.
    + assert (Z.of_nat (7 - k mod 8) <> Z.of_nat (7 - j mod 8)).
      { intros E. apply Hne. apply same_byte_same_bit; [congruence | lia]. }
      destruct v.
      * apply Z.setbit_neq; [lia | assumption].
      * apply Z.clearbit_neq; assumption.
  - rewrite list_lookup_alter_ne by assumption.
    destruct (decide (j = k)) as [-> | Hne]; [congruence | reflexivity].
Qed.

Lemma length_put_bit (b : list Z) (k : nat) (v : bool) :
  length (put_bit b k v) = length b.
Proof. unfold put_bit. apply length_alter. Qed.

Lemma length_write_bits (n : nat) : forall (b : list Z) (k : nat) (v : Z),
  length (write_bits b k n v) = length b.
Proof.
  induction n as [| n IH]; intros b k v; simpl; [reflexivity |].
  rewrite IH. apply length_put_bit.
Qed.

Lemma inside_byte (b : list Z) (k n : nat) :
  (k + S n <= 8 * length b)%nat -> (k / 8 < length b)%nat.
Proof.
  intros H. apply Nat.Div0.div_lt_upper_bound. lia.
Qed.

(** A field write changes the bits of the field and no other bit. *)
Lemma get_bit_write_bits (n : nat) : forall (b : list Z) (k j : nat) (v : Z),
  (k + n <= 8 * length b)%nat ->
  get_bit (write_bits b k n v) j =
  if bool_decide (k <= j < k + n)%nat
  then Z.testbit v (Z.of_nat (k + n - 1 - j)) else get_bit b j.
Proof.
  induction n as [| n IH]; intros b k j v Hin; simpl.
  - rewrite bool_decide_eq_false_2 by lia. reflexivity.
  - rewrite IH by (rewrite length_put_bit; lia).
    rewrite get_bit_put_bit by (eapply inside_byte; eassumption).
    destruct (decide (j = k)) as [-> | Hne].
    + rewrite bool_decide_eq_false_2 by lia.
      rewrite bool_decide_eq_true_2 by lia.
      f_equal. lia.
    + destruct (bool_decide_reflect (S k <= j < S k + n)%nat).
      * rewrite bool_decide_eq_true_2 by lia. f_equal. lia.
      * rewrite bool_decide_eq_false_2 by lia. reflexivity.
Qed.

Lemma length_grow (b : list Z) (len : nat) :
  length (grow b len) = Nat.max (length b) len.
Proof.
  unfold grow. rewrite length_app, length_replicate. lia.
Qed.

Lemma byte_at_grow (b : list Z) (len i : nat) :
  byte_at (grow b len) i = byte_at b i.
Proof.
  unfold byte_at, grow.
  destruct (decide (i < length b)%nat) as [Hi | Hi].
  - rewrite lookup_app_l by assumption. reflexivity.
  - rewrite lookup_app_r by lia.
    rewrite (lookup_ge_None_2 b i) by lia.
    destruct (replicate (len - length b) 0 !! (i - length b)%nat) as [c |] eqn:E;
      [| reflexivity].
    apply lookup_replicate_1 in E. destruct E as [-> _]. reflexivity.
Qed.

Lemma get_bit_grow (b : list Z) (len j : nat) :
  get_bit (grow b len) j = get_bit b j.
Proof. unfold get_bit. now rewrite byte_at_grow. Qed.

Lemma read_bits_ext (n : nat) : forall (b b' : list Z) (k : nat),
  (forall j, (k <= j < k + n)%nat -> get_bit b j = get_bit b' j) ->
  read_bits b k n = read_bits b' k n.
Proof.
  induction n as [| n IH]; intros b b' k H; simpl; [reflexivity |].
  rewrite (H k) by lia. f_equal. apply IH. intros j Hj. apply H. lia.
Qed.

Lemma low_bits_step (v : Z) (n : nat) :
  v mod 2 ^ Z.of_nat (S n) =
  (if Z.testbit v (Z.of_nat n) then 2 ^ Z.of_nat n else 0) + v mod 2 ^ Z.of_nat n.
Proof.
  replace (2 ^ Z.of_nat (S n)) with (2 ^ Z.of_nat n * 2)
    by (rewrite Nat2Z.inj_succ, Z.pow_succ_r by lia; lia).
  rewrite Z.rem_mul_r by lia.
  rewrite <- Z.testbit_spec' by lia.
  destruct (Z.testbit v (Z.of_nat n)); simpl; lia.
Qed.

(** Reading back a field whose bits are those of [v]. *)
Lemma read_bits_of_value (n : nat) : forall (b : list Z) (k : nat) (v : Z),
  (forall j, (k <= j < k + n)%nat ->
             get_bit b j = Z.testbit v (Z.of_nat (k + n - 1 - j))) ->
  read_bits b k n = v mod 2 ^ Z.of_nat n.
Proof.
  induction n as [| n IH]; intros b k v H.
  - simpl. now rewrite Z.mod_1_r.
  - cbn [read_bits]. rewrite low_bits_step.
    rewrite (H k) by lia.
    replace (k + S n - 1 - k)%nat with n by lia.
    f_equal. apply IH. intros j Hj. rewrite H by lia. f_equal. lia.
Qed.

Lemma read_bits_range (n : nat) : forall (b : list Z) (k : nat),
  0 <= read_bits b k n < 2 ^ Z.of_nat n.
Proof.
  induction n as [| n IH]; intros b k; cbn [read_bits].
  - simpl. lia.
  - specialize (IH b (S k)).
    rewrite Nat2Z.inj_succ, Z.pow_succ_r by lia.
    destruct (get_bit b k); lia.
Qed.

Lemma read_write_same (b : list Z) (k n : nat) (v : Z) :
  (k + n <= 8 * length b)%nat ->
  read_bits (write_bits b k n v) k n = v mod 2 ^ Z.of_nat n.
Proof.
  intros Hin. apply read_bits_of_value. intros j Hj.
  rewrite get_bit_write_bits by assumption.
  now rewrite bool_decide_eq_true_2 by lia.
Qed.

Lemma read_write_other (b : list Z) (k n k' n' : nat) (v : Z) :
  (k + n <= 8 * length b)%nat ->
  (k' + n' <= k \/ k + n <= k')%nat ->
  read_bits (write_bits b k n v) k' n' = read_bits b k' n'.
Proof.
  intros Hin Hdisj. apply read_bits_ext. intros j Hj.
  rewrite get_bit_write_bits by assumption.
  now rewrite bool_decide_eq_false_2 by lia.
Qed.

Lemma bytes_for_covers (k : nat) : (k <= 8 * bytes_for k)%nat.
Proof.
  unfold bytes_for.
  pose proof (Nat.div_mod_eq (k + 7) 8). pose proof (bit_position (k + 7)). lia.
Qed.

Lemma wrap_fits (ty : field_type) (v : Z) :
  (0 < bits ty)%nat -> fits ty v -> wrap ty v = v.
Proof.
  unfold wrap, decode, fits. intros Hpos Hfit.
  set (n := Z.of_nat (bits ty)) in *.
  assert (Hn : 2 ^ n = 2 * 2 ^ (n - 1)).
  { rewrite <- Z.pow_succ_r by lia. f_equal. lia. }
  assert (0 < 2 ^ (n - 1)) by (apply Z.pow_pos_nonneg; lia).
  destruct (signed ty); simpl.
  - destruct (Z.leb_spec (2 ^ (n - 1)) (v mod 2 ^ n)) as [Hhi | Hlo].
    + destruct (Z_lt_le_dec v 0) as [Hneg | Hnn].
      * rewrite <- (Z.mod_unique v (2 ^ n) (-1) (v + 2 ^ n)); lia.
      * rewrite Z.mod_small in Hhi by lia. lia.
    + destruct (Z_lt_le_dec v 0) as [Hneg | Hnn].
      * rewrite <- (Z.mod_unique v (2 ^ n) (-1) (v + 2 ^ n)) in Hlo; lia.
      * apply Z.mod_small. lia.
  - apply Z.mod_small. lia.
Qed.

Lemma read_bits_zero (n : nat) : forall (b : list Z) (k : nat),
  read_bits b k n = 0 ->
  forall j, (k <= j < k + n)%nat -> get_bit b j = false.
Proof.
  induction n as [| n IH]; intros b k H j Hj; [lia |].
  cbn [read_bits] in H.
  pose proof (read_bits_range n b (S k)) as Hr.
  assert (0 < 2 ^ Z.of_nat n) by (apply Z.pow_pos_nonneg; lia).
  destruct (get_bit b k) eqn:Hk; [lia |].
  destruct (decide (j = k)) as [-> | Hne]; [assumption |].
  apply (IH b (S k)); lia.
Qed.

Lemma read_bits_false (n : nat) (b : list Z) (k : nat) :
  (forall j, (k <= j < k + n)%nat -> get_bit b j = false) ->
  read_bits b k n = 0.
Proof.
  intros H. rewrite (read_bits_of_value n b k 0); [apply Zmod_0_l |].
  intros j Hj. rewrite Z.bits_0. now apply H.
Qed.

Lemma decode_zero (ty : field_type) (u : Z) :
  (0 < bits ty)%nat -> 0 <= u < 2 ^ Z.of_nat (bits ty) ->
  decode ty u = 0 -> u = 0.
Proof.
  unfold decode. intros Hb Hu.
  destruct (signed ty && (2 ^ (Z.of_nat (bits ty) - 1) <=? u)); lia.
Qed.

Lemma decode_of_zero (ty : field_type) : (0 < bits ty)%nat -> decode ty 0 = 0.
Proof.
  intros Hb. unfold decode.
  assert (0 < 2 ^ (Z.of_nat (bits ty) - 1)) by (apply Z.pow_pos_nonneg; lia).
  destruct (Z.leb_spec (2 ^ (Z.of_nat (bits ty) - 1)) 0); [lia |].
  now rewrite andb_false_r.
Qed.

(** ** Fields of the stored data *)

Lemma blob_of_store_same (d : gmap string (list Z)) (key : string)
    (ty : field_type) (k : nat) (v : Z) :
  blob_of (field_store d key ty k v) key =
  write_bits (grow (blob_of d key) (bytes_for (k + bits ty))) k (bits ty) v.
Proof. unfold blob_of at 1, field_store. now rewrite lookup_insert_eq. Qed.

Lemma blob_of_store_other (d : gmap string (list Z)) (key key' : string)
    (ty : field_type) (k : nat) (v : Z) :
  key <> key' -> blob_of (field_store d key ty k v) key' = blob_of d key'.
Proof.
  intros H. unfold blob_of, field_store. now rewrite lookup_insert_ne.
Qed.

Lemma field_fits_grown (b : list Z) (k n : nat) :
  (k + n <= 8 * length (grow b (bytes_for (k + n))))%nat.
Proof.
  rewrite length_grow. pose proof (bytes_for_covers (k + n)). lia.
Qed.

Lemma field_value_store_same (d : gmap string (list Z)) (key : string)
    (ty : field_type) (k : nat) (v : Z) :
  field_value (field_store d key ty k v) key ty k = wrap ty v.
Proof.
  unfold field_value, wrap. rewrite blob_of_store_same.
  now rewrite read_write_same by apply field_fits_grown.
Qed.

Lemma field_value_store_other (d : gmap string (list Z)) (key : string)
    (ty : field_type) (k k' : nat) (v : Z) :
  (k' + bits ty <= k \/ k + bits ty <= k')%nat ->
  field_value (field_store d key ty k v) key ty k' = field_value d key ty k'.
Proof.
  intros H. unfold field_value. rewrite blob_of_store_same.
  rewrite read_write_other by (apply field_fits_grown || assumption).
  f_equal. apply read_bits_ext. intros j _. apply get_bit_grow.
Qed.

(** A write of zero keeps at zero a field that holds zero, wherever the
    two fields lie. *)
Lemma field_value_zero_store (d : gmap string (list Z)) (key : string)
    (ty : field_type) (k k' : nat) :
  (0 < bits ty)%nat ->
  field_value d key ty k' = 0 ->
  field_value (field_store d key ty k 0) key ty k' = 0.
Proof.
  intros Hb Hz. unfold field_value in *. rewrite blob_of_store_same.
  assert (Hbits : forall j, (k' <= j < k' + bits ty)%nat ->
                            get_bit (blob_of d key) j = false).
  { apply read_bits_zero.
    apply (decode_zero ty); [assumption | apply read_bits_range | exact Hz]. }
  rewrite read_bits_false; [now apply decode_of_zero |].
  intros j Hj. rewrite get_bit_write_bits by apply field_fits_grown.
  case_bool_decide; [apply Z.bits_0 |].
  rewrite get_bit_grow. now apply Hbits.
Qed.

Lemma length_blob_store (d : gmap string (list Z)) (key : string)
    (ty : field_type) (k : nat) (v : Z) :
  length (blob_of (field_store d key ty k v) key) =
  Nat.max (length (blob_of d key)) (bytes_for (k + bits ty)).
Proof.
  rewrite blob_of_store_same, length_write_bits. apply length_grow.
Qed.

(** ** Formats and addressing tokens *)

Lemma parse_format_bits (fmt : string) (ty : field_type) :
  parse_format fmt = Some ty -> (1 <= bits ty <= 64)%nat.
Proof.
  unfold parse_format. destruct fmt as [| c digits]; [discriminate |].
  destruct (parse_int digits) as [n |]; [| discriminate].
  destruct (Ascii.eqb c "u").
  - case_bool_decide; [| discriminate]. intros [= <-]. simpl. lia.
  - destruct (Ascii.eqb c "i"); [| discriminate].
    case_bool_decide; [| discriminate]. intros [= <-]. simpl. lia.
Qed.

(** *** The 64-bit arithmetic of the server *)

Lemma wrap64_small (z : Z) : - 2 ^ 63 <= z < 2 ^ 63 -> wrap64 z = z.
Proof. intros H. unfold wrap64. rewrite Z.mod_small by lia. lia. Qed.

Lemma wrap64_range (z : Z) : - 2 ^ 63 <= wrap64 z < 2 ^ 63.
Proof.
  unfold wrap64.
  pose proof (Z.mod_pos_bound (z + 2 ^ 63) (2 ^ 64) ltac:(lia)). lia.
Qed.

Lemma wrap64_le (z : Z) : 0 <= z -> wrap64 z <= z.
Proof.
  intros H. destruct (Z_lt_le_dec z (2 ^ 63)).
  - rewrite wrap64_small by lia. lia.
  - pose proof (wrap64_range z). lia.
Qed.

(** Integers that differ by a multiple of [2^64] wrap to the same. *)
Lemma wrap64_congruent (z m : Z) : wrap64 (z + m * 2 ^ 64) = wrap64 z.
Proof.
  unfold wrap64. f_equal.
  replace (z + m * 2 ^ 64 + 2 ^ 63) with (z + 2 ^ 63 + m * 2 ^ 64) by lia.
  apply Z_mod_plus_full.
Qed.

Lemma unwrapped_index (ty : field_type) (i : Z) :
  (0 < bits ty)%nat -> unwrapped ty i -> - 2 ^ 63 <= i < 2 ^ 63.
Proof. unfold unwrapped. intros Hb H. nia. Qed.

Lemma unwrapped_field_bit (ty : field_type) (i : Z) :
  unwrapped ty i -> field_bit ty i = Z.to_nat (i * Z.of_nat (bits ty)).
Proof. intros H. unfold field_bit. now rewrite wrap64_small. Qed.

(** Without wrap-around, the fields the server can address are those of
    the indices from [0] up to, not including, [2^32 / bits]. *)
Lemma unwrapped_addressable (ty : field_type) (i : Z) :
  (0 < bits ty)%nat -> unwrapped ty i ->
  addressable ty i <-> 0 <= i * Z.of_nat (bits ty) < ADDRESSABLE_BITS.
Proof.
  intros Hb H. unfold addressable. rewrite (wrap64_small _ H).
  pose proof (unwrapped_index ty i Hb H). tauto.
Qed.

Lemma plain_addressable (ty : field_type) (i : Z) :
  (0 < bits ty)%nat ->
  0 <= i * Z.of_nat (bits ty) < ADDRESSABLE_BITS ->
  addressable ty i /\ unwrapped ty i.
Proof.
  intros Hb H.
  assert (Hu : unwrapped ty i)
    by (unfold unwrapped, ADDRESSABLE_BITS in *; lia).
  split; [now apply unwrapped_addressable | exact Hu].
Qed.

Lemma parse_offset_token (ty : field_type) (i : Z) :
  parse_offset (format_offset i) ty =
  if bool_decide (addressable ty i) then Some (field_bit ty i) else None.
Proof.
  rewrite format_offset_eq. unfold parse_offset, parse_ll.
  replace (Ascii.eqb "#" "#") with true by reflexivity.
  rewrite parse_int_str. unfold addressable, field_bit.
  destruct (decide (- 2 ^ 63 <= i < 2 ^ 63)) as [Hi | Hi].
  - rewrite (bool_decide_eq_true_2 _ Hi). cbn [option_map].
    destruct (decide (0 <= wrap64 (i * Z.of_nat (bits ty)) < ADDRESSABLE_BITS))
      as [Hk | Hk].
    + rewrite (bool_decide_eq_true_2 _ Hk).
      now rewrite bool_decide_eq_true_2 by (split; assumption).
    + rewrite (bool_decide_eq_false_2 _ Hk).
      now rewrite bool_decide_eq_false_2 by tauto.
  - rewrite (bool_decide_eq_false_2 _ Hi). cbn [option_map].
    now rewrite bool_decide_eq_false_2 by tauto.
Qed.

(** Without wrap-around, distinct indices have fields that share no bit. *)
Lemma field_bit_apart (ty : field_type) (i j : Z) :
  (0 < bits ty)%nat -> addressable ty i -> addressable ty j ->
  unwrapped ty i -> unwrapped ty j -> i <> j ->
  (field_bit ty j + bits ty <= field_bit ty i
   \/ field_bit ty i + bits ty <= field_bit ty j)%nat.
Proof.
  intros Hb Hi Hj Ui Uj Hne.
  rewrite (unwrapped_field_bit _ _ Ui), (unwrapped_field_bit _ _ Uj).
  apply (unwrapped_addressable _ _ Hb Ui) in Hi.
  apply (unwrapped_addressable _ _ Hb Uj) in Hj.
  destruct (Z_lt_le_dec i j); [right | left]; nia.
Qed.

Lemma wrap_zero (ty : field_type) : (0 < bits ty)%nat -> wrap ty 0 = 0.
Proof.
  intros H. apply wrap_fits; [assumption |].
  unfold fits.
  assert (0 < 2 ^ (Z.of_nat (bits ty) - 1)) by (apply Z.pow_pos_nonneg; lia).
  assert (0 < 2 ^ Z.of_nat (bits ty)) by (apply Z.pow_pos_nonneg; lia).
  destruct (signed ty); lia.
Qed.

(** ** What the server answers for a pixel *)

Section Pixels.

Variable self : Canvas.
Variable ty : field_type.
Hypothesis Hfmt : parse_format (pixel_format self) = Some ty.

Lemma stored_color_eq (d : gmap string (list Z)) (x y : Z) :
  stored_color self d x y =
  if bool_decide (addressable ty (linear_index x y (width self)))
  then inr (field_value d (name self) ty
              (field_bit ty (linear_index x y (width self))))
  else inl ResponseError.
Proof.
  unfold stored_color, bitfield_get_reply.
  rewrite Hfmt, calculate_offset_eq, parse_offset_token.
  now case_bool_decide.
Qed.

Lemma bitfield_set_reply_eq (d : gmap string (list Z)) (x y v : Z) :
  bitfield_set_reply (name self) (pixel_format self)
    (calculate_offset x y (width self)) v d =
  if bool_decide (addressable ty (linear_index x y (width self)))
  then if bool_decide (- 2 ^ 63 <= v < 2 ^ 63)
       then inr (field_value d (name self) ty
                   (field_bit ty (linear_index x y (width self))),
                 field_store d (name self) ty
                   (field_bit ty (linear_index x y (width self))) v)
       else inl ResponseError
  else inl ResponseError.
Proof.
  unfold bitfield_set_reply.
  rewrite Hfmt, calculate_offset_eq, parse_offset_token.
  now case_bool_decide.
Qed.

Lemma pixel_field_eq (x y : Z) :
  pixel_field self x y =
  if bool_decide (addressable ty (linear_index x y (width self)))
  then Some (field_bit ty (linear_index x y (width self)), bits ty)
  else None.
Proof.
  unfold pixel_field. rewrite Hfmt, calculate_offset_eq, parse_offset_token.
  now case_bool_decide.
Qed.

(** A successful write shows in the written pixel, and in every pixel
    with the same linear index. *)
Lemma stored_color_written (d d' : gmap string (list Z))
    (x y v old x' y' : Z) :
  bitfield_set_reply (name self) (pixel_format self)
    (calculate_offset x y (width self)) v d = inr (old, d') ->
  linear_index x' y' (width self) = linear_index x y (width self) ->
  stored_color self d' x' y' = inr (wrap ty v).
Proof.
  rewrite bitfield_set_reply_eq.
  case_bool_decide as Hi; [| discriminate].
  case_bool_decide as Hv; [| discriminate].
  intros [= _ <-] He. rewrite stored_color_eq, He.
  rewrite (bool_decide_eq_true_2 _ Hi).
  now rewrite field_value_store_same.
Qed.

(** It shows in no pixel whose field shares no bit with the written one. *)
Lemma stored_color_clear (d d' : gmap string (list Z))
    (x y v old x' y' : Z) :
  bitfield_set_reply (name self) (pixel_format self)
    (calculate_offset x y (width self)) v d = inr (old, d') ->
  clear_of self x y x' y' ->
  stored_color self d' x' y' = stored_color self d x' y'.
Proof.
  rewrite bitfield_set_reply_eq.
  case_bool_decide as Hi; [| discriminate].
  case_bool_decide as Hv; [| discriminate].
  intros [= _ <-]. unfold clear_of. rewrite !pixel_field_eq, !stored_color_eq.
  rewrite (bool_decide_eq_true_2 _ Hi).
  case_bool_decide as Hj; [| reflexivity].
  intros Hclear. rewrite field_value_store_other; [reflexivity | lia].
Qed.

(** Without wrap-around, pixels with distinct linear indices have fields
    that share no bit. *)
Lemma unwrapped_clear (x y x' y' : Z) :
  unwrapped ty (linear_index x y (width self)) ->
  unwrapped ty (linear_index x' y' (width self)) ->
  linear_index x' y' (width self) <> linear_index x y (width self) ->
  clear_of self x y x' y'.
Proof.
  intros U U' Hne. unfold clear_of. rewrite !pixel_field_eq.
  pose proof (parse_format_bits _ _ Hfmt) as Hb.
  case_bool_decide as Hi; [| exact I].
  case_bool_decide as Hj; [| exact I].
  pose proof (field_bit_apart ty _ _ ltac:(lia) Hi Hj U U' ltac:(congruence)).
  lia.
Qed.

(** Without wrap-around, a successful write shows in the written pixel
    (and in every pixel with the same linear index) and in no other. *)
Lemma stored_color_after_write (d d' : gmap string (list Z))
    (x y v old x' y' : Z) :
  bitfield_set_reply (name self) (pixel_format self)
    (calculate_offset x y (width self)) v d = inr (old, d') ->
  unwrapped ty (linear_index x y (width self)) ->
  unwrapped ty (linear_index x' y' (width self)) ->
  stored_color self d' x' y' =
  if bool_decide (linear_index x' y' (width self)
                  = linear_index x y (width self))
  then inr (wrap ty v) else stored_color self d x' y'.
Proof.
  intros Hr U U'. case_bool_decide as He.
  - now apply (stored_color_written d d' x y v old).
  - apply (stored_color_clear d d' x y v old); [assumption |].
    now apply unwrapped_clear.
Qed.

(** A write of zero keeps at zero every pixel that reads zero. *)
Lemma stored_zero_kept (d d' : gmap string (list Z)) (x y old x' y' : Z) :
  bitfield_set_reply (name self) (pixel_format self)
    (calculate_offset x y (width self)) 0 d = inr (old, d') ->
  stored_color self d x' y' = inr 0 ->
  stored_color self d' x' y' = inr 0.
Proof.
  rewrite bitfield_set_reply_eq.
  case_bool_decide as Hi; [| discriminate].
  case_bool_decide as Hv; [| discriminate].
  intros [= _ <-]. rewrite !stored_color_eq.
  pose proof (parse_format_bits _ _ Hfmt) as Hb.
  case_bool_decide as Hj; [| discriminate].
  intros [= Hz]. f_equal. apply field_value_zero_store; [lia | exact Hz].
Qed.

End Pixels.
(** ** Running the calls *)

Lemma get_reply_keeps_data (key fmt offset : string) (r : Z)
    (d d' : gmap string (list Z)) :
  bitfield_get_reply key fmt offset d = inr (r, d') -> d' = d.
Proof.
  unfold bitfield_get_reply.
  destruct (parse_format fmt); [| discriminate].
  destruct (parse_offset offset _); [| discriminate]. now intros [= _ <-].
Qed.

Lemma set_pixel_color_run (self : Canvas) (x y : Z) (c : Color) (s : server) :
  set_pixel_color self x y c s =
  let sent' := sent s ++ [write_command self (value c) (x, y)] in
  let reply := bitfield_set_reply (name self) (pixel_format self)
                 (calculate_offset x y (width self)) (value c) (db s) in
  match next_fate s with
  | RequestLost =>
      (inl ConnectionError,
       {| db := db s; sent := sent'; outages := tail (outages s) |})
  | ReplyLost =>
      (inl ConnectionError,
       {| db := db_after_write self (value c) (db s) (x, y); sent := sent';
          outages := tail (outages s) |})
  | Delivered =>
      match reply with
      | inl e =>
          (inl e, {| db := db s; sent := sent'; outages := tail (outages s) |})
      | inr (_, d) =>
          (inr tt, {| db := d; sent := sent'; outages := tail (outages s) |})
      end
  end.
Proof.
  unfold set_pixel_color, bitfield_set, bind, round_trip, db_after_write.
  cbn [fst snd write_command].
  destruct (next_fate s); [| reflexivity |];
    destruct (bitfield_set_reply _ _ _ _ _) as [e | [old d]]; reflexivity.
Qed.

Lemma bitfield_get_run (self : Canvas) (x y : Z) (s : server) :
  bitfield_get (database self) (name self) (pixel_format self)
    (calculate_offset x y (width self)) s =
  (match next_fate s with
   | Delivered => pixel_reply self (db s) x y
   | _ => inl ConnectionError
   end,
   after_exchange (read_command self (x, y)) s).
Proof.
  unfold bitfield_get, bind, round_trip, pixel_reply, stored_color,
    after_exchange.
  cbn [fst snd read_command].
  destruct (next_fate s); [| reflexivity |];
    (destruct (bitfield_get_reply _ _ _ _) as [e | [v d']] eqn:E;
     [reflexivity | apply get_reply_keeps_data in E as ->; reflexivity]).
Qed.

Lemma get_pixel_color_run (self : Canvas) (x y : Z) (s : server) :
  get_pixel_color self x y s =
  (match next_fate s with
   | Delivered => pixel_reply self (db s) x y
   | _ => inl ConnectionError
   end,
   after_exchange (read_command self (x, y)) s).
Proof.
  unfold get_pixel_color, bind. rewrite bitfield_get_run.
  destruct (next_fate s); [| reflexivity ..].
  destruct (pixel_reply self (db s) x y); reflexivity.
Qed.

Lemma get_canvas_run (self : Canvas) (s : server) :
  get_canvas self s =
  (match next_fate s with
   | Delivered => inr (db s !! name self)
   | _ => inl ConnectionError
   end,
   after_exchange (GET (name self)) s).
Proof.
  unfold get_canvas, bind, get, round_trip, get_reply, after_exchange.
  destruct (next_fate s); reflexivity.
Qed.

(** A write that returns was delivered and carried out; one that raises
    left the data alone. *)
Lemma set_pixel_color_ok (self : Canvas) (x y : Z) (c : Color)
    (s s' : server) :
  set_pixel_color self x y c s = (inr tt, s') ->
  delivered s
  /\ (exists old, bitfield_set_reply (name self) (pixel_format self)
                    (calculate_offset x y (width self)) (value c) (db s)
                  = inr (old, db s'))
  /\ sent s' = sent s ++ [write_command self (value c) (x, y)]
  /\ outages s' = tail (outages s).
Proof.
  rewrite set_pixel_color_run. unfold delivered. cbv zeta.
  destruct (next_fate s); [| discriminate ..].
  destruct (bitfield_set_reply _ _ _ _ _) as [e | [old d]]; [discriminate |].
  intros [= <-]. simpl. eauto.
Qed.

(** A write that raises has been sent; the data is as before, or, when
    only the reply was lost, as the server left it. *)
Lemma set_pixel_color_raises (self : Canvas) (x y : Z) (c : Color)
    (s s' : server) (e : error) :
  set_pixel_color self x y c s = (inl e, s') ->
  sent s' = sent s ++ [write_command self (value c) (x, y)]
  /\ (db s' = db s
      \/ e = ConnectionError
         /\ db s' = db_after_write self (value c) (db s) (x, y)).
Proof.
  rewrite set_pixel_color_run. cbv zeta.
  destruct (next_fate s).
  - destruct (bitfield_set_reply _ _ _ _ _) as [e' | [old d]];
      [| discriminate].
    intros [= _ <-]. simpl. auto.
  - intros [= _ <-]. simpl. auto.
  - intros [= <- <-]. simpl. auto.
Qed.

Lemma db_after_write_ok (self : Canvas) (x y : Z) (c : Color)
    (s s' : server) :
  set_pixel_color self x y c s = (inr tt, s') ->
  db s' = db_after_write self (value c) (db s) (x, y).
Proof.
  intros H. apply set_pixel_color_ok in H as (_ & [old Hr] & _).
  unfold db_after_write. simpl. now rewrite Hr.
Qed.

(** ** Loops *)

Lemma for_each_app {A : Type} (body : A -> M unit) (l1 l2 : list A)
    (s : server) :
  for_each (l1 ++ l2) body s =
  match for_each l1 body s with
  | (inr _, s') => for_each l2 body s'
  | (inl e, s') => (inl e, s')
  end.
Proof.
  revert s. induction l1 as [| a l1 IH]; intros s; [reflexivity |].
  cbn [for_each app]. unfold bind.
  destruct (body a s) as [[e | []] s1]; [reflexivity | apply IH].
Qed.

Lemma for_each_map {A B : Type} (g : A -> B) (body : B -> M unit)
    (l : list A) (s : server) :
  for_each (map g l) body s = for_each l (fun a => body (g a)) s.
Proof.
  revert s. induction l as [| a l IH]; intros s; [reflexivity |].
  cbn [for_each map]. unfold bind.
  destruct (body (g a) s) as [[e | []] s1]; [reflexivity | apply IH].
Qed.

Lemma for_each_flat_map {A B : Type} (g : A -> list B) (body : B -> M unit)
    (l : list A) (s : server) :
  for_each (flat_map g l) body s = for_each l (fun a => for_each (g a) body) s.
Proof.
  revert s. induction l as [| a l IH]; intros s; [reflexivity |].
  cbn [flat_map]. rewrite for_each_app. cbn [for_each]. unfold bind.
  destruct (for_each (g a) body s) as [[e | []] s1]; [reflexivity | apply IH].
Qed.

(** A loop either runs through, or stops at the first iteration that
    raises: the iterations before it have run, none after it has. *)
Lemma for_each_outcome {A : Type} (body : A -> M unit) (l : list A) :
  forall s : server,
    (exists s', for_each l body s = (inr tt, s'))
    \/ (exists (k : nat) (a : A) (e : error) (s_k s' : server),
          l !! k = Some a
          /\ for_each (take k l) body s = (inr tt, s_k)
          /\ body a s_k = (inl e, s')
          /\ for_each l body s = (inl e, s')).
Proof.
  induction l as [| a l IH]; intros s.
  - left. now exists s.
  - cbn [for_each]. unfold bind.
    destruct (body a s) as [[e | []] s1] eqn:Ha.
    + right. exists 0%nat, a, e, s, s1. now rewrite Ha.
    + destruct (IH s1) as [[s' Hok] | (k & b & e & s_k & s' & Hk & Hpre & Hb & Hall)].
      * left. now exists s'.
      * right. exists (S k), b, e, s_k, s'.
        repeat split; try assumption.
        cbn [take for_each]. unfold bind. now rewrite Ha.
Qed.

(** The nested loops of [set_pixel_region] visit [region_cells] in order. *)
Lemma set_pixel_region_cells (self : Canvas) (x1 y1 x2 y2 : Z) (s : server) :
  set_pixel_region self x1 y1 x2 y2 s =
  for_each (region_cells x1 y1 x2 y2) (paint self) s.
Proof.
  unfold set_pixel_region, region_cells.
  rewrite for_each_flat_map.
  generalize (range y1 (y2 + 1)). intros rows. revert s.
  induction rows as [| y rows IH]; intros s; [reflexivity |].
  cbn [for_each]. unfold bind.
  rewrite for_each_map.
  change (fun a : Z => paint self (a, y))
    with (fun x_coordinate : Z =>
            let offset := calculate_offset x_coordinate y (width self) in
            _ <- bitfield_set (database self) (name self) (pixel_format self)
                              offset (value WHITE) ;;
            ret tt).
  destruct (for_each (range x1 (x2 + 1)) _ s) as [[e | []] s1];
    [reflexivity | apply IH].
Qed.

(** The constructor builds the instance and runs the fill. *)
Lemma init_run (CANVAS_WIDTH CANVAS_HEIGHT w h : Z) (fmt key hst : string)
    (prt : Z) (s s' : server) (self : Canvas) :
  __init__ CANVAS_WIDTH CANVAS_HEIGHT w h fmt key hst prt s = (inr self, s') ->
  self = {| width := w; height := h; name := key; pixel_format := fmt;
            database := {| host := hst; port := prt |} |}
  /\ set_pixel_region self 1 1 CANVAS_WIDTH CANVAS_HEIGHT s = (inr tt, s').
Proof.
  unfold __init__, _fill_with_white_pixels, bind.
  destruct (set_pixel_region _ 1 1 CANVAS_WIDTH CANVAS_HEIGHT s)
    as [[e | []] s1] eqn:E; [discriminate |].
  intros [= <- <-]. split; [reflexivity | exact E].
Qed.

(** The server after a run of successful writes of WHITE. *)
Lemma paint_all_ok (self : Canvas) (l : list (Z * Z)) :
  forall s s' : server,
    for_each l (paint self) s = (inr tt, s') ->
    db s' = foldl (db_after_write self 0) (db s) l
    /\ sent s' = sent s ++ map (write_command self 0) l
    /\ outages s' = drop (length l) (outages s).
Proof.
  induction l as [| [x y] l IH]; intros s s'.
  - intros [= <-]. simpl. now rewrite app_nil_r.
  - cbn [for_each]. unfold bind.
    destruct (paint self (x, y) s) as [[e | []] s1] eqn:Ha; [discriminate |].
    intros H. apply IH in H as (Hdb & Hsent & Hout).
    unfold paint in Ha. simpl in Ha.
    pose proof (db_after_write_ok _ _ _ _ _ _ Ha) as Hd.
    apply set_pixel_color_ok in Ha as (_ & _ & Hs1 & Ho1).
    rewrite Hdb, Hsent, Hout, Hd, Hs1, Ho1. cbn [foldl map length].
    rewrite <- app_assoc. repeat split.
    destruct (outages s); [now destruct (length l) | reflexivity].
Qed.
(** ** Pixels after a run of writes *)

Lemma write_needs_format (self : Canvas) (x y v old : Z)
    (d d' : gmap string (list Z)) :
  bitfield_set_reply (name self) (pixel_format self)
    (calculate_offset x y (width self)) v d = inr (old, d') ->
  exists ty, parse_format (pixel_format self) = Some ty.
Proof.
  unfold bitfield_set_reply.
  destruct (parse_format (pixel_format self)) as [ty |]; [eauto | discriminate].
Qed.

Lemma value_is_int64 (c : Color) : - 2 ^ 63 <= value c < 2 ^ 63.
Proof. destruct c; simpl; lia. Qed.

Lemma paint_is_recolor (self : Canvas) (l : list (Z * Z)) (s : server) :
  for_each l (paint self) s
  = for_each (map (fun cell => (cell, WHITE)) l) (recolor self) s.
Proof. now rewrite for_each_map. Qed.

(** After a run of successful writes of WHITE every written pixel reads
    WHITE, and so does every pixel that read WHITE before, wherever the
    fields lie: a write of zero can only clear bits. *)
Lemma white_after_paints (self : Canvas) (l : list (Z * Z)) :
  forall (s s' : server) (x y : Z),
    for_each l (paint self) s = (inr tt, s') ->
    linear_index x y (width self) ∈ map (cell_index self) l
    \/ stored_color self (db s) x y = inr 0 ->
    stored_color self (db s') x y = inr 0.
Proof.
  induction l as [| [x0 y0] l IH]; intros s s' x y.
  - intros [= <-] [Hin | H]; [| exact H].
    simpl in Hin. now apply not_elem_of_nil in Hin.
  - cbn [for_each]. unfold bind.
    destruct (paint self (x0, y0) s) as [[e | []] s1] eqn:Ha; [discriminate |].
    intros H Hcase. apply (IH _ _ _ _ H).
    unfold paint in Ha. simpl in Ha.
    apply set_pixel_color_ok in Ha as (_ & [old Hr] & _).
    destruct (write_needs_format _ _ _ _ _ _ _ Hr) as [ty Hfmt].
    destruct Hcase as [Hin | Hz].
    + cbn [map] in Hin. apply elem_of_cons in Hin as [He | Hin];
        [right | now left].
      unfold cell_index in He. cbn [fst snd] in He.
      rewrite (stored_color_written self ty Hfmt _ _ _ _ _ _ x y Hr He).
      now rewrite wrap_zero by (apply parse_format_bits in Hfmt; lia).
    + right. exact (stored_zero_kept self ty Hfmt _ _ _ _ _ x y Hr Hz).
Qed.

(** Writes leave alone every pixel whose field shares no bit with the
    fields they address. *)
Lemma stored_color_clear_of_writes (self : Canvas) (x y : Z)
    (l : list (Z * Z * Color)) :
  forall s s' : server,
    for_each l (recolor self) s = (inr tt, s') ->
    (forall w, w ∈ l -> clear_of self (fst (fst w)) (snd (fst w)) x y) ->
    stored_color self (db s') x y = stored_color self (db s) x y.
Proof.
  induction l as [| [[x0 y0] c0] l IH]; intros s s'.
  - now intros [= <-].
  - cbn [for_each]. unfold bind.
    destruct (recolor self (x0, y0, c0) s) as [[e | []] s1] eqn:Ha;
      [discriminate |].
    intros H Hother. rewrite (IH _ _ H) by (intros w Hw; apply Hother; now right).
    unfold recolor in Ha. simpl in Ha.
    apply set_pixel_color_ok in Ha as (_ & [old Hr] & _).
    destruct (write_needs_format _ _ _ _ _ _ _ Hr) as [ty Hfmt].
    apply (stored_color_clear self ty Hfmt _ _ _ _ _ _ x y Hr).
    exact (Hother (x0, y0, c0) ltac:(left)).
Qed.

(** Without wrap-around: after a run of successful writes of WHITE, a
    pixel reads WHITE when its linear index is that of a written pixel,
    and reads as before otherwise. *)
Lemma stored_color_after_paints (self : Canvas) (ty : field_type)
    (l : list (Z * Z)) :
  parse_format (pixel_format self) = Some ty ->
  forall (s s' : server) (x y : Z),
    for_each l (paint self) s = (inr tt, s') ->
    (forall cell, cell ∈ l -> unwrapped ty (cell_index self cell)) ->
    unwrapped ty (linear_index x y (width self)) ->
    stored_color self (db s') x y =
    if bool_decide (linear_index x y (width self) ∈ map (cell_index self) l)
    then inr 0 else stored_color self (db s) x y.
Proof.
  intros Hfmt s s' x y Hrun Hl Hxy. case_bool_decide as Hin.
  - apply (white_after_paints self l s s' x y Hrun). now left.
  - rewrite paint_is_recolor in Hrun.
    apply (stored_color_clear_of_writes self x y _ _ _ Hrun).
    intros w Hw. apply list_elem_of_fmap in Hw as ([x0 y0] & -> & Hcell).
    cbn [fst snd].
    apply (unwrapped_clear self ty Hfmt); [exact (Hl _ Hcell) | exact Hxy |].
    intros He. apply Hin. apply list_elem_of_fmap. exists (x0, y0).
    split; [exact He | exact Hcell].
Qed.

(** The same for a write the server has carried out, or refused. *)
Lemma db_after_write_clear (self : Canvas) (v : Z)
    (d : gmap string (list Z)) (cell : Z * Z) (x y : Z) :
  clear_of self (fst cell) (snd cell) x y ->
  stored_color self (db_after_write self v d cell) x y
  = stored_color self d x y.
Proof.
  intros Hclear. unfold db_after_write.
  destruct (bitfield_set_reply _ _ _ _ d) as [e | [old d']] eqn:Hr;
    [reflexivity |].
  destruct (write_needs_format _ _ _ _ _ _ _ Hr) as [ty Hfmt].
  exact (stored_color_clear self ty Hfmt _ _ _ _ _ _ x y Hr Hclear).
Qed.

Lemma db_after_write_white (self : Canvas) (d : gmap string (list Z))
    (cell : Z * Z) (x y : Z) :
  stored_color self d x y = inr 0 ->
  stored_color self (db_after_write self 0 d cell) x y = inr 0.
Proof.
  intros Hz. unfold db_after_write.
  destruct (bitfield_set_reply _ _ _ _ d) as [e | [old d']] eqn:Hr;
    [exact Hz |].
  destruct (write_needs_format _ _ _ _ _ _ _ Hr) as [ty Hfmt].
  exact (stored_zero_kept self ty Hfmt _ _ _ _ _ x y Hr Hz).
Qed.

(** ** The cells of a rectangle *)

Lemma elem_of_region_cells (x1 y1 x2 y2 x y : Z) :
  (x, y) ∈ region_cells x1 y1 x2 y2 <-> x1 <= x <= x2 /\ y1 <= y <= y2.
Proof.
  unfold region_cells. rewrite list_elem_of_In, in_flat_map. split.
  - intros (y' & Hy & Hx). apply in_map_iff in Hx as (x' & [= <- <-] & Hx).
    apply list_elem_of_In, elem_of_range in Hy.
    apply list_elem_of_In, elem_of_range in Hx. lia.
  - intros [Hx Hy]. exists y. split.
    + apply list_elem_of_In, elem_of_range. lia.
    + apply in_map_iff. exists x. split; [reflexivity |].
      apply list_elem_of_In, elem_of_range. lia.
Qed.

Lemma region_cells_inverted (x1 y1 x2 y2 : Z) :
  x2 < x1 \/ y2 < y1 -> region_cells x1 y1 x2 y2 = [].
Proof.
  intros H.
  destruct (region_cells x1 y1 x2 y2) as [| [x y] l] eqn:E; [reflexivity |].
  assert (Hin : (x, y) ∈ region_cells x1 y1 x2 y2) by (rewrite E; left).
  apply elem_of_region_cells in Hin. lia.
Qed.

Lemma linear_index_inj (w x y x' y' : Z) :
  1 <= x <= w -> 1 <= x' <= w ->
  linear_index x y w = linear_index x' y' w -> x = x' /\ y = y'.
Proof.
  unfold linear_index. intros Hx Hx' H.
  assert (y = y') by nia. subst y'. lia.
Qed.

Lemma index_in_region (self : Canvas) (x1 y1 x2 y2 x y : Z) :
  1 <= x1 -> x2 <= width self -> 1 <= x <= width self ->
  linear_index x y (width self)
    ∈ map (cell_index self) (region_cells x1 y1 x2 y2)
  <-> x1 <= x <= x2 /\ y1 <= y <= y2.
Proof.
  intros H1 H2 Hx. rewrite list_elem_of_In, in_map_iff. split.
  - intros ([x' y'] & He & Hin).
    apply list_elem_of_In, elem_of_region_cells in Hin.
    unfold cell_index in He. simpl in He.
    apply linear_index_inj in He as [-> ->]; [assumption | lia | lia].
  - intros Hin. exists (x, y). split; [reflexivity |].
    now apply list_elem_of_In, elem_of_region_cells.
Qed.

Lemma NoDup_region_cells (x1 y1 x2 y2 : Z) : NoDup (region_cells x1 y1 x2 y2).
Proof.
  unfold region_cells.
  change (NoDup (range y1 (y2 + 1)
                   ≫= (fun y => (fun x => (x, y)) <$> range x1 (x2 + 1)))).
  apply NoDup_bind.
  - intros y y' [x0 y0] _ _ H1 H2.
    apply list_elem_of_fmap in H1 as (x & [= _ ->] & _).
    apply list_elem_of_fmap in H2 as (x' & [= _ ->] & _). reflexivity.
  - intros y _. apply NoDup_fmap_2; [| apply NoDup_seqZ].
    intros a b [= ->]. reflexivity.
  - apply NoDup_seqZ.
Qed.

(** On a rectangle whose columns lie on the canvas, a pixel further down
    the fill order has the linear index of none of the pixels before it. *)
Lemma later_cell_apart (self : Canvas) (x1 y1 x2 y2 : Z) (i k : nat)
    (cell : Z * Z) :
  1 <= x1 -> x2 <= width self ->
  region_cells x1 y1 x2 y2 !! i = Some cell -> (k < i)%nat ->
  cell_index self cell
    ∉ map (cell_index self) (take (S k) (region_cells x1 y1 x2 y2)).
Proof.
  intros H1 H2 Hi Hlt Hin.
  apply list_elem_of_fmap in Hin as (cell' & He & Hin).
  apply list_elem_of_lookup in Hin as [j Hj].
  apply lookup_take_Some in Hj as [Hj Hjk].
  assert (Hc : cell ∈ region_cells x1 y1 x2 y2)
    by (apply list_elem_of_lookup; eauto).
  assert (Hc' : cell' ∈ region_cells x1 y1 x2 y2)
    by (apply list_elem_of_lookup; eauto).
  destruct cell as [x y], cell' as [x' y'].
  apply elem_of_region_cells in Hc. apply elem_of_region_cells in Hc'.
  unfold cell_index in He. cbn [fst snd] in He.
  apply linear_index_inj in He as [-> ->]; [| lia | lia].
  pose proof (NoDup_lookup _ _ _ _ (NoDup_region_cells x1 y1 x2 y2) Hi Hj).
  lia.
Qed.

Lemma index_of_region_cell (self : Canvas) (x1 y1 x2 y2 x y : Z) :
  x1 <= x <= x2 /\ y1 <= y <= y2 ->
  linear_index x y (width self)
    ∈ map (cell_index self) (region_cells x1 y1 x2 y2).
Proof.
  intros Hin. apply list_elem_of_In, in_map_iff. exists (x, y).
  split; [reflexivity |]. now apply list_elem_of_In, elem_of_region_cells.
Qed.

(** * Results *)

(** ** The offset calculation *)

(** C1.  For all coordinates [x], [y] and every width [W],
    [calculate_offset x y W] is the character ["#"] followed by the decimal
    numeral of the linear index [(y-1)*W + (x-1)]; in particular the
    offsets of [(1,1)], [(W,1)] and [(1,2)] are ["#0"], ["#"] followed by
    [W-1], and ["#"] followed by [W]. *)
Theorem calculate_offset_linear_index :
  (forall x y W : Z,
      calculate_offset x y W = "#" +:+ str ((y - 1) * W + (x - 1)))
  /\ (forall W : Z, calculate_offset 1 1 W = "#0")
  /\ (forall W : Z, calculate_offset W 1 W = "#" +:+ str (W - 1))
  /\ (forall W : Z, calculate_offset 1 2 W = "#" +:+ str W).
Proof.
  cbn [String.append].
  assert (Hgen : forall x y W : Z,
             calculate_offset x y W = String "#" (str ((y - 1) * W + (x - 1)))).
  { intros x y W. rewrite calculate_offset_eq. apply format_offset_eq. }
  split; [exact Hgen |].
  split; [| split]; intros W; rewrite Hgen; do 2 f_equal; lia.
Qed.

(** C5.  Over the valid rectangle the offset mapping is injective: for
    [1 <= x, x' <= width] and [1 <= y, y' <= height] the tokens of [(x,y)]
    and [(x',y')] are equal exactly when the two pixels are the same. *)
Theorem calculate_offset_injective (width height x y x' y' : Z) :
  1 <= x <= width -> 1 <= x' <= width ->
  1 <= y <= height -> 1 <= y' <= height ->
  calculate_offset x y width = calculate_offset x' y' width
  <-> (x, y) = (x', y').
Proof.
  intros Hx Hx' _ _. split.
  - rewrite !calculate_offset_eq. intros H. apply format_offset_inj in H.
    apply linear_index_inj in H as [-> ->]; [reflexivity | assumption ..].
  - now intros [= -> ->].
Qed.

Lemma calculate_offset_injective_witness :
  calculate_offset 1 2 5 = calculate_offset 5 1 5 <-> (1, 2) = (5, 1).
Proof. apply (calculate_offset_injective 5 5 1 2 5 1); lia. Defined.

(** C9.  [calculate_offset] checks no bounds and always returns a token:
    for all integers, in range or not, the result is ["#"] followed by the
    numeral of [(y-1)*W + (x-1)]; so one column past the end of a row is
    the first column of the next row, for every width, those of at least
    1 among them. *)
Theorem calculate_offset_aliases_next_row :
  (forall x y W : Z,
      calculate_offset x y W = "#" +:+ str ((y - 1) * W + (x - 1)))
  /\ (forall y W : Z,
         calculate_offset (W + 1) y W = calculate_offset 1 (y + 1) W).
Proof.
  cbn [String.append]. split.
  - intros x y W. rewrite calculate_offset_eq. apply format_offset_eq.
  - intros y W. rewrite !calculate_offset_eq. f_equal.
    unfold linear_index. lia.
Qed.

(** ** Region fill *)

(** C10.  With inverted corners, [x1 > x2] or [y1 > y2], the fill sends
    nothing, raises nothing and leaves the server exactly as it was. *)
Theorem set_pixel_region_inverted (self : Canvas) (x1 y1 x2 y2 : Z)
    (s : server) :
  x1 > x2 \/ y1 > y2 ->
  set_pixel_region self x1 y1 x2 y2 s = (inr tt, s).
Proof.
  intros H. rewrite set_pixel_region_cells.
  rewrite region_cells_inverted by lia. reflexivity.
Qed.

Lemma set_pixel_region_inverted_witness :
  set_pixel_region canvas_2x2 2 1 1 1 grey_at_1_2 = (inr tt, grey_at_1_2).
Proof. apply (set_pixel_region_inverted canvas_2x2 2 1 1 1). lia. Defined.


(** On a rectangle whose columns lie on the canvas, the linear indices of
    its pixels lie between those of its two corners. *)
Lemma region_index_bounds (self : Canvas) (x1 y1 x2 y2 x y : Z) :
  1 <= x1 -> x2 <= width self -> x1 <= x <= x2 /\ y1 <= y <= y2 ->
  linear_index x1 y1 (width self) <= linear_index x y (width self)
  <= linear_index x2 y2 (width self).
Proof. unfold linear_index. intros H1 H2 Hin. nia. Qed.

Lemma between_unwrapped (ty : field_type) (i j k : Z) :
  unwrapped ty i -> unwrapped ty k -> i <= j <= k -> unwrapped ty j.
Proof. unfold unwrapped. intros Hi Hk Hj. nia. Qed.

Lemma region_unwrapped (self : Canvas) (ty : field_type)
    (x1 y1 x2 y2 : Z) (cell : Z * Z) :
  1 <= x1 -> x2 <= width self ->
  unwrapped ty (linear_index x1 y1 (width self)) ->
  unwrapped ty (linear_index x2 y2 (width self)) ->
  cell ∈ region_cells x1 y1 x2 y2 ->
  unwrapped ty (cell_index self cell).
Proof.
  intros H1 H2 U1 U2 Hin. destruct cell as [x y].
  apply elem_of_region_cells in Hin.
  apply (between_unwrapped ty _ _ _ U1 U2).
  now apply region_index_bounds.
Qed.

(** What a pixel reads after a fill that ran through: WHITE inside the
    rectangle, wherever the fields lie; and, without wrap-around, what it
    read before when it has the linear index of no pixel of the
    rectangle. *)
Lemma white_after_region (self : Canvas) (x1 y1 x2 y2 x y : Z)
    (s s' : server) :
  set_pixel_region self x1 y1 x2 y2 s = (inr tt, s') ->
  x1 <= x <= x2 /\ y1 <= y <= y2 ->
  stored_color self (db s') x y = inr 0.
Proof.
  rewrite set_pixel_region_cells. intros Hrun Hin.
  apply (white_after_paints self _ s s' x y Hrun). left.
  now apply index_of_region_cell.
Qed.

Lemma reads_after_region (self : Canvas) (ty : field_type)
    (x1 y1 x2 y2 x y : Z) (s s' : server) :
  parse_format (pixel_format self) = Some ty ->
  1 <= x1 -> x2 <= width self ->
  unwrapped ty (linear_index x1 y1 (width self)) ->
  unwrapped ty (linear_index x2 y2 (width self)) ->
  unwrapped ty (linear_index x y (width self)) ->
  set_pixel_region self x1 y1 x2 y2 s = (inr tt, s') ->
  stored_color self (db s') x y =
  if bool_decide (linear_index x y (width self)
                    ∈ map (cell_index self) (region_cells x1 y1 x2 y2))
  then inr 0 else stored_color self (db s) x y.
Proof.
  intros Hfmt H1 H2 U1 U2 U. rewrite set_pixel_region_cells. intros Hrun.
  apply (stored_color_after_paints self ty _ Hfmt s s' x y Hrun); [| exact U].
  intros cell Hcell. now apply (region_unwrapped self ty x1 y1 x2 y2).
Qed.

(** A loop that ran through at least one write started on a delivered
    round trip. *)
Lemma first_write_delivered (self : Canvas) (cell : Z * Z)
    (l : list (Z * Z)) (s s' : server) :
  for_each (cell :: l) (paint self) s = (inr tt, s') -> delivered s.
Proof.
  cbn [for_each]. unfold bind.
  destruct (paint self cell s) as [[e | []] s1] eqn:Ha; [discriminate |].
  intros _. unfold paint in Ha. now apply set_pixel_color_ok in Ha.
Qed.

(** C4, amended.  For a rectangle whose columns lie on the canvas,
    [1 <= x1 <= x2 <= width], and with [y1 <= y2]: after the fill has run
    through, every pixel of the rectangle reads WHITE; and every pixel
    with a column in [1..width] that is outside the rectangle reads what
    it read before the call, provided that for the two corners of the
    rectangle and for that pixel the product of linear index and field
    width is a signed 64-bit integer, so that the store's offset
    arithmetic does not wrap around.  (A pixel reads a value when
    [get_pixel_color] hands back the reply holding that value.) *)
Theorem set_pixel_region_containment (self : Canvas) (ty : field_type)
    (x1 y1 x2 y2 : Z) (s s' : server) :
  parse_format (pixel_format self) = Some ty ->
  1 <= x1 -> x1 <= x2 -> x2 <= width self -> y1 <= y2 ->
  set_pixel_region self x1 y1 x2 y2 s = (inr tt, s') ->
  delivered s' ->
  forall x y : Z,
    (x1 <= x <= x2 /\ y1 <= y <= y2 ->
     fst (get_pixel_color self x y s') = inr [value WHITE])
    /\ (1 <= x <= width self -> ~ (x1 <= x <= x2 /\ y1 <= y <= y2) ->
        unwrapped ty (linear_index x1 y1 (width self)) ->
        unwrapped ty (linear_index x2 y2 (width self)) ->
        unwrapped ty (linear_index x y (width self)) ->
        fst (get_pixel_color self x y s') = fst (get_pixel_color self x y s)).
Proof.
  intros Hfmt Hx1 Hx Hx2 Hy Hrun Hup x y.
  assert (Hs : delivered s).
  { rewrite set_pixel_region_cells in Hrun.
    destruct (region_cells x1 y1 x2 y2) as [| cell l] eqn:E.
    - assert (Hin : (x1, y1) ∈ region_cells x1 y1 x2 y2)
        by (apply elem_of_region_cells; lia).
      rewrite E in Hin. now apply not_elem_of_nil in Hin.
    - eapply first_write_delivered; eassumption. }
  rewrite !get_pixel_color_run. cbn [fst].
  unfold delivered in Hup, Hs. rewrite Hup, Hs. unfold pixel_reply. split.
  - intros Hin.
    now rewrite (white_after_region _ _ _ _ _ x y _ _ Hrun Hin).
  - intros Hcol Hout U1 U2 U.
    rewrite (reads_after_region self ty _ _ _ _ x y _ _ Hfmt Hx1 Hx2 U1 U2 U
               Hrun).
    rewrite bool_decide_eq_false_2; [reflexivity |].
    rewrite index_in_region by lia. assumption.
Qed.

Lemma set_pixel_region_containment_witness :
  fst (get_pixel_color canvas_2x2 2 1
         (snd (set_pixel_region canvas_2x2 1 1 2 1 grey_at_1_2)))
  = inr [value WHITE]
  /\ fst (get_pixel_color canvas_2x2 1 2
            (snd (set_pixel_region canvas_2x2 1 1 2 1 grey_at_1_2)))
     = fst (get_pixel_color canvas_2x2 1 2 grey_at_1_2)
  /\ fst (get_pixel_color canvas_2x2 1 2 grey_at_1_2) = inr [value GREY].
Proof.
  pose proof (set_pixel_region_containment canvas_2x2
                {| signed := false; bits := 4 |} 1 1 2 1 grey_at_1_2
                (snd (set_pixel_region canvas_2x2 1 1 2 1 grey_at_1_2))
                eq_refl ltac:(lia) ltac:(lia) ltac:(simpl; lia) ltac:(lia)
                ltac:(vm_compute; reflexivity) ltac:(vm_compute; reflexivity))
    as T.
  split; [| split].
  - apply (proj1 (T 2 1)). lia.
  - apply (proj2 (T 1 2));
      [simpl; lia | lia | ..]; unfold unwrapped, linear_index; simpl; lia.
  - vm_compute. reflexivity.
Defined.

(** C4 as stated fails: on a canvas of width 2, filling the rectangle
    [(2,1)-(3,1)] runs through, pixel [(1,2)] lies outside that rectangle,
    read GREY before the call and reads WHITE after it. *)
Lemma set_pixel_region_spills_into_next_row :
  2 <= 3 /\ 1 <= 1
  /\ fst (set_pixel_region canvas_2x2 2 1 3 1 grey_at_1_2) = inr tt
  /\ (1 <= 1 <= width canvas_2x2 /\ 1 <= 2 <= height canvas_2x2)
  /\ ~ (2 <= 1 <= 3 /\ 1 <= 2 <= 1)
  /\ fst (get_pixel_color canvas_2x2 1 2 grey_at_1_2) = inr [value GREY]
  /\ fst (get_pixel_color canvas_2x2 1 2
            (snd (set_pixel_region canvas_2x2 2 1 3 1 grey_at_1_2)))
     = inr [value WHITE]
  /\ value GREY <> value WHITE.
Proof.
  repeat split; try (simpl; lia); try (vm_compute; congruence).
Qed.

(** The wrap-around of the store's offset arithmetic is a second way out
    of the rectangle: on [canvas_2x2], of width 2 and 4 bits per pixel,
    the one-pixel rectangle in column 1 of row [2^61 + 1] has its columns
    on the canvas; its linear index is [2^62], the store multiplies it by
    4 into [2^64], which wraps to bit 0, and the fill turns pixel [(1,1)]
    from GREY to WHITE. *)
Example far_row_wraps_to_first_pixel :
  let far := 2 ^ 61 + 1 in
  let before := snd (set_pixel_color canvas_2x2 1 1 GREY empty_server) in
  calculate_offset 1 far (width canvas_2x2) = "#4611686018427387904"
  /\ fst (get_pixel_color canvas_2x2 1 1 before) = inr [value GREY]
  /\ fst (set_pixel_region canvas_2x2 1 far 1 far before) = inr tt
  /\ fst (get_pixel_color canvas_2x2 1 1
            (snd (set_pixel_region canvas_2x2 1 far 1 far before)))
     = inr [value WHITE].
Proof. repeat split; vm_compute; reflexivity. Qed.

(** The fill stops at the first write that raises: with [k] the number of
    writes that went through before it, the data and the pixels are as
    the first [k] writes (or [k + 1], if only the reply was lost) left
    them. *)
Lemma fill_stops_at_first_raise (self : Canvas) (x1 y1 x2 y2 : Z)
    (s : server) :
  let cells := region_cells x1 y1 x2 y2 in
  let outcome := set_pixel_region self x1 y1 x2 y2 s in
  exists k : nat,
    (k <= length cells)%nat
    /\ (db (snd outcome)
        = foldl (db_after_write self (value WHITE)) (db s) (take k cells)
        \/ fst outcome = inl ConnectionError
           /\ db (snd outcome)
              = foldl (db_after_write self (value WHITE)) (db s)
                      (take (S k) cells))
    /\ (forall x y : Z,
          linear_index x y (width self) ∈ map (cell_index self) (take k cells) ->
          stored_color self (db (snd outcome)) x y = inr (value WHITE))
    /\ (forall x y : Z,
          (forall cell, cell ∈ take (S k) cells ->
                        clear_of self (fst cell) (snd cell) x y) ->
          stored_color self (db (snd outcome)) x y
          = stored_color self (db s) x y)
    /\ match fst outcome with
       | inr _ =>
           k = length cells
           /\ sent (snd outcome)
              = sent s ++ map (write_command self (value WHITE)) cells
       | inl e =>
           exists (cell : Z * Z) (s_k : server),
             cells !! k = Some cell
             /\ for_each (take k cells) (paint self) s = (inr tt, s_k)
             /\ set_pixel_color self (fst cell) (snd cell) WHITE s_k
                = (inl e, snd outcome)
             /\ sent (snd outcome)
                = sent s ++ map (write_command self (value WHITE))
                                (take (S k) cells)
       end.
Proof.
  intros cells outcome.
  subst outcome.
  rewrite set_pixel_region_cells. fold cells.
  assert (Hclear : forall (l : list (Z * Z)) (s0 s1 : server) (x y : Z),
             for_each l (paint self) s0 = (inr tt, s1) ->
             (forall cell, cell ∈ l -> clear_of self (fst cell) (snd cell) x y) ->
             stored_color self (db s1) x y = stored_color self (db s0) x y).
  { intros l s0 s1 x y Hrun Hl. rewrite paint_is_recolor in Hrun.
    apply (stored_color_clear_of_writes self x y _ _ _ Hrun).
    intros w Hw. apply list_elem_of_fmap in Hw as (cell & -> & Hcell).
    now apply Hl. }
  destruct (for_each_outcome (paint self) cells s)
    as [[s' Hok] | (k & cell & e & s_k & s' & Hk & Hpre & Hcell & Hall)].
  - exists (length cells).
    rewrite Hok, firstn_all, (take_ge cells (S (length cells))) by lia.
    cbn [fst snd].
    pose proof (paint_all_ok _ _ _ _ Hok) as (Hdb & Hsent & _).
    split; [lia |]. split; [now left |].
    split; [| split; [| now split]]; intros x y Hin.
    + apply (white_after_paints self _ s s' x y Hok). now left.
    + now apply (Hclear cells s s').
  - exists k. rewrite Hall. cbn [fst snd].
    pose proof (paint_all_ok _ _ _ _ Hpre) as (Hdb & Hsent & _).
    unfold paint in Hcell.
    pose proof (set_pixel_color_raises _ _ _ _ _ _ _ Hcell) as [Hs' Hd'].
    apply lookup_lt_Some in Hk as Hlt.
    change (value WHITE) with 0 in *.
    rewrite (take_S_r _ _ _ Hk), foldl_snoc, !map_app, <- Hdb.
    destruct cell as [x0 y0]. cbn [fst snd] in *.
    split; [lia |]. split; [| split; [| split]].
    + destruct Hd' as [-> | [-> ->]]; auto.
    + intros x y Hin.
      assert (Hk0 : stored_color self (db s_k) x y = inr 0)
        by (apply (white_after_paints self _ s s_k x y Hpre); now left).
      destruct Hd' as [-> | [_ ->]]; [assumption |].
      now apply db_after_write_white.
    + intros x y Hout.
      assert (Hk0 : stored_color self (db s_k) x y
                    = stored_color self (db s) x y).
      { apply (Hclear (take k cells) s s_k); [exact Hpre |].
        intros c Hc. apply Hout. apply elem_of_app. now left. }
      destruct Hd' as [-> | [_ ->]]; [assumption |].
      rewrite db_after_write_clear; [exact Hk0 |].
      apply (Hout (x0, y0)). apply elem_of_app. right. left.
    + exists (x0, y0), s_k. repeat split; try assumption.
      rewrite Hs', Hsent, <- app_assoc. reflexivity.
Qed.

(** C6, amended.  The fill is a sequence of independent single-pixel
    writes in row-major order, with no rollback: whatever the server and
    the connection do, there is a [k] such that the first [k] pixels of
    the rectangle (rows outermost, columns innermost) have been written
    and no pixel after number [k] has been reached.  The stored data is
    the data after those [k] writes (or after [k + 1] of them, when the
    connection failed with the last request already carried out).  The
    pixels already written read WHITE.  A pixel whose field shares no bit
    with the fields of the first [k + 1] pixels reads what it read before;
    and so does every pixel not yet reached when the columns of the
    rectangle lie on the canvas, [1 <= x1] and [x2 <= width], and for its
    two corners the product of linear index and field width is a signed
    64-bit integer (so that the store's offset arithmetic does not wrap
    around).  If the call returns, [k] is the number of pixels and one
    write per pixel has been sent, in order; if it raises [e], then [e]
    is what the write of pixel number [k] raised after the writes before
    it had gone through, and nothing was sent for the pixels after it. *)
Theorem set_pixel_region_not_atomic (self : Canvas) (x1 y1 x2 y2 : Z)
    (s : server) :
  let cells := region_cells x1 y1 x2 y2 in
  let outcome := set_pixel_region self x1 y1 x2 y2 s in
  exists k : nat,
    (k <= length cells)%nat
    /\ (db (snd outcome)
        = foldl (db_after_write self (value WHITE)) (db s) (take k cells)
        \/ fst outcome = inl ConnectionError
           /\ db (snd outcome)
              = foldl (db_after_write self (value WHITE)) (db s)
                      (take (S k) cells))
    /\ (forall (i : nat) (cell : Z * Z),
          (i < k)%nat -> cells !! i = Some cell ->
          stored_color self (db (snd outcome)) (fst cell) (snd cell)
          = inr (value WHITE))
    /\ (forall x y : Z,
          (forall cell, cell ∈ take (S k) cells ->
                        clear_of self (fst cell) (snd cell) x y) ->
          stored_color self (db (snd outcome)) x y
          = stored_color self (db s) x y)
    /\ (forall ty : field_type,
          parse_format (pixel_format self) = Some ty ->
          1 <= x1 -> x2 <= width self ->
          unwrapped ty (linear_index x1 y1 (width self)) ->
          unwrapped ty (linear_index x2 y2 (width self)) ->
          forall (i : nat) (cell : Z * Z),
            (k < i)%nat -> cells !! i = Some cell ->
            stored_color self (db (snd outcome)) (fst cell) (snd cell)
            = stored_color self (db s) (fst cell) (snd cell))
    /\ match fst outcome with
       | inr _ =>
           k = length cells
           /\ sent (snd outcome)
              = sent s ++ map (write_command self (value WHITE)) cells
       | inl e =>
           exists (cell : Z * Z) (s_k : server),
             cells !! k = Some cell
             /\ for_each (take k cells) (paint self) s = (inr tt, s_k)
             /\ set_pixel_color self (fst cell) (snd cell) WHITE s_k
                = (inl e, snd outcome)
             /\ sent (snd outcome)
                = sent s ++ map (write_command self (value WHITE))
                                (take (S k) cells)
       end.
Proof.
  intros cells outcome.
  destruct (fill_stops_at_first_raise self x1 y1 x2 y2 s)
    as (k & Hk & Hdb & Hwritten & Hframe & Hsent).
  fold cells outcome in Hk, Hdb, Hwritten, Hframe, Hsent.
  exists k. split; [exact Hk |]. split; [exact Hdb |].
  split; [| split; [exact Hframe | split; [| exact Hsent]]].
  - intros i cell Hi Hcell. apply Hwritten.
    apply list_elem_of_fmap. exists cell. split; [reflexivity |].
    apply list_elem_of_lookup. exists i. apply lookup_take_Some. auto.
  - intros ty Hfmt H1 H2 U1 U2 i cell Hi Hcell. apply Hframe.
    intros cell' Hcell'.
    assert (Hin : cell ∈ cells) by (apply list_elem_of_lookup; eauto).
    assert (Hin' : cell' ∈ cells).
    { rewrite <- (take_drop (S k) cells). apply elem_of_app. now left. }
    apply (unwrapped_clear self ty Hfmt).
    + exact (region_unwrapped self ty x1 y1 x2 y2 cell' H1 H2 U1 U2 Hin').
    + exact (region_unwrapped self ty x1 y1 x2 y2 cell H1 H2 U1 U2 Hin).
    + intros He.
      apply (later_cell_apart self x1 y1 x2 y2 i k cell H1 H2 Hcell Hi).
      apply list_elem_of_fmap. exists cell'. split; [exact He | exact Hcell'].
Qed.

(** C6 as stated fails: a pixel not yet reached need not be unchanged.
    On [canvas_2x2], GREY throughout, the fill of [(1,1)-(4,2)] has its
    fifth round trip lost and raises; the sixth pixel of the rectangle,
    [(2,2)], was never reached (five commands were sent, the fifth for
    [(1,2)]), and yet it reads WHITE: the fourth pixel, [(4,1)], lies past
    the end of its row and shares its field. *)
Lemma set_pixel_region_reaches_ahead :
  let outcome := set_pixel_region canvas_2x2 1 1 4 2 grey_2x2_fifth_lost in
  fst outcome = inl ConnectionError
  /\ region_cells 1 1 4 2 !! 5%nat = Some (2, 2)
  /\ sent (snd outcome)
     = map (write_command canvas_2x2 (value WHITE))
           (take 5 (region_cells 1 1 4 2))
  /\ stored_color canvas_2x2 (db grey_2x2_fifth_lost) 2 2 = inr (value GREY)
  /\ stored_color canvas_2x2 (db (snd outcome)) 2 2 = inr (value WHITE)
  /\ value GREY <> value WHITE.
Proof. repeat split; vm_compute; congruence. Qed.

Lemma set_pixel_region_not_atomic_witness :
  let cells := region_cells 1 1 2 2 in
  let outcome := set_pixel_region canvas_2x2 1 1 2 2 grey_2x2_flaky in
  exists k : nat,
    (k <= length cells)%nat
    /\ (db (snd outcome)
        = foldl (db_after_write canvas_2x2 (value WHITE)) (db grey_2x2_flaky)
                (take k cells)
        \/ fst outcome = inl ConnectionError
           /\ db (snd outcome)
              = foldl (db_after_write canvas_2x2 (value WHITE))
                      (db grey_2x2_flaky) (take (S k) cells))
    /\ (forall (i : nat) (cell : Z * Z),
          (i < k)%nat -> cells !! i = Some cell ->
          stored_color canvas_2x2 (db (snd outcome)) (fst cell) (snd cell)
          = inr (value WHITE))
    /\ (forall x y : Z,
          (forall cell, cell ∈ take (S k) cells ->
                        clear_of canvas_2x2 (fst cell) (snd cell) x y) ->
          stored_color canvas_2x2 (db (snd outcome)) x y
          = stored_color canvas_2x2 (db grey_2x2_flaky) x y)
    /\ (forall ty : field_type,
          parse_format (pixel_format canvas_2x2) = Some ty ->
          1 <= 1 -> 2 <= width canvas_2x2 ->
          unwrapped ty (linear_index 1 1 (width canvas_2x2)) ->
          unwrapped ty (linear_index 2 2 (width canvas_2x2)) ->
          forall (i : nat) (cell : Z * Z),
            (k < i)%nat -> cells !! i = Some cell ->
            stored_color canvas_2x2 (db (snd outcome)) (fst cell) (snd cell)
            = stored_color canvas_2x2 (db grey_2x2_flaky)
                (fst cell) (snd cell))
    /\ match fst outcome with
       | inr _ =>
           k = length cells
           /\ sent (snd outcome)
              = sent grey_2x2_flaky
                ++ map (write_command canvas_2x2 (value WHITE)) cells
       | inl e =>
           exists (cell : Z * Z) (s_k : server),
             cells !! k = Some cell
             /\ for_each (take k cells) (paint canvas_2x2) grey_2x2_flaky
                = (inr tt, s_k)
             /\ set_pixel_color canvas_2x2 (fst cell) (snd cell) WHITE s_k
                = (inl e, snd outcome)
             /\ sent (snd outcome)
                = sent grey_2x2_flaky
                  ++ map (write_command canvas_2x2 (value WHITE))
                         (take (S k) cells)
       end.
Proof. exact (set_pixel_region_not_atomic canvas_2x2 1 1 2 2 grey_2x2_flaky). Defined.

(** An interrupted fill: with the third round trip lost, filling the whole
    of [canvas_2x2] raises, the first row has turned WHITE and the second
    row is still GREY. *)
Example fill_interrupted_midway :
  let outcome := set_pixel_region canvas_2x2 1 1 2 2 grey_2x2_flaky in
  fst outcome = inl ConnectionError
  /\ map (fun cell => stored_color canvas_2x2 (db (snd outcome))
                        (fst cell) (snd cell))
         (region_cells 1 1 2 2)
     = [inr 0; inr 0; inr 1; inr 1]
  /\ length (sent (snd outcome)) = 3%nat.
Proof. repeat split; vm_compute; reflexivity. Qed.

(** The same fill when only the reply of the third round trip is lost: it
    raises all the same, and the third pixel has turned WHITE as well. *)
Example fill_interrupted_reply_lost :
  let outcome := set_pixel_region canvas_2x2 1 1 2 2 grey_2x2_reply_lost in
  fst outcome = inl ConnectionError
  /\ map (fun cell => stored_color canvas_2x2 (db (snd outcome))
                        (fst cell) (snd cell))
         (region_cells 1 1 2 2)
     = [inr 0; inr 0; inr 0; inr 1]
  /\ length (sent (snd outcome)) = 3%nat.
Proof. repeat split; vm_compute; reflexivity. Qed.

(** ** Single pixels *)

(** On a canvas the store can address as a whole, the offset arithmetic
    does not wrap around for the pixels of the canvas. *)
Lemma in_range_plain (self : Canvas) (ty : field_type) (x y : Z) :
  1 <= x <= width self -> 1 <= y <= height self ->
  width self * height self * Z.of_nat (bits ty) <= ADDRESSABLE_BITS ->
  0 <= linear_index x y (width self) * Z.of_nat (bits ty) < ADDRESSABLE_BITS.
Proof.
  unfold linear_index. intros Hx Hy Hfit.
  assert (0 <= (y - 1) * width self + (x - 1) <= width self * height self - 1)
    by nia.
  destruct (bits ty) as [| b]; [simpl; unfold ADDRESSABLE_BITS; lia |].
  nia.
Qed.

Lemma in_range_addressable (self : Canvas) (ty : field_type) (x y : Z) :
  (1 <= bits ty)%nat ->
  1 <= x <= width self -> 1 <= y <= height self ->
  width self * height self * Z.of_nat (bits ty) <= ADDRESSABLE_BITS ->
  addressable ty (linear_index x y (width self)).
Proof.
  intros Hb Hx Hy Hfit.
  apply plain_addressable; [lia | now apply in_range_plain].
Qed.

Lemma in_range_unwrapped (self : Canvas) (ty : field_type) (x y : Z) :
  1 <= x <= width self -> 1 <= y <= height self ->
  width self * height self * Z.of_nat (bits ty) <= ADDRESSABLE_BITS ->
  unwrapped ty (linear_index x y (width self)).
Proof.
  intros Hx Hy Hfit. pose proof (in_range_plain self ty x y Hx Hy Hfit).
  unfold unwrapped, ADDRESSABLE_BITS in *. lia.
Qed.

(** C2, on the code.  On a canvas whose field-width specification is
    valid, for an in-range pixel [(x,y)] and a palette colour [c] that
    fits the field width: whenever [set_pixel_color x y c] returns and,
    after any writes to fields that share no bit with the field of
    [(x,y)], [get_pixel_color x y] returns, what it returns is the reply
    list whose only element is the numeric value of [c] (the list, not
    the integer); on a healthy connection to a store that can address
    the whole canvas both calls do return; and on such a canvas the
    fields of distinct in-range pixels share no bit. *)
Theorem set_then_get_round_trip (self : Canvas) (ty : field_type)
    (x y : Z) (c : Color) (s : server) :
  parse_format (pixel_format self) = Some ty ->
  fits ty (value c) ->
  1 <= x <= width self -> 1 <= y <= height self ->
  (forall (others : list (Z * Z * Color)) (s1 s2 s3 : server) (r : list Z),
      set_pixel_color self x y c s = (inr tt, s1) ->
      (forall w, w ∈ others ->
                 clear_of self (fst (fst w)) (snd (fst w)) x y) ->
      for_each others (recolor self) s1 = (inr tt, s2) ->
      get_pixel_color self x y s2 = (inr r, s3) ->
      r = [value c])
  /\ (width self * height self * Z.of_nat (bits ty) <= ADDRESSABLE_BITS ->
      outages s = [] ->
      exists s1 s2 : server,
        set_pixel_color self x y c s = (inr tt, s1)
        /\ get_pixel_color self x y s1 = (inr [value c], s2))
  /\ (width self * height self * Z.of_nat (bits ty) <= ADDRESSABLE_BITS ->
      forall x' y' : Z,
        1 <= x' <= width self -> 1 <= y' <= height self ->
        (x', y') <> (x, y) ->
        clear_of self x' y' x y).
Proof.
  intros Hfmt Hfit Hx Hy.
  pose proof (parse_format_bits _ _ Hfmt) as Hb.
  assert (Hafter : forall s1 : server,
             set_pixel_color self x y c s = (inr tt, s1) ->
             stored_color self (db s1) x y = inr (value c)).
  { intros s1 Hset. apply set_pixel_color_ok in Hset as (_ & [old Hr] & _).
    rewrite (stored_color_written self ty Hfmt _ _ _ _ _ _ x y Hr eq_refl).
    now rewrite wrap_fits by (assumption || lia). }
  split; [| split].
  - intros others s1 s2 s3 r Hset Hother Hrun Hget.
    rewrite get_pixel_color_run in Hget. unfold pixel_reply in Hget.
    rewrite (stored_color_clear_of_writes _ _ _ _ _ _ Hrun Hother) in Hget.
    rewrite (Hafter _ Hset) in Hget.
    destruct (next_fate s2); congruence.
  - intros Hwhole Hup.
    pose proof (in_range_addressable self ty x y ltac:(lia) Hx Hy Hwhole) as Ha.
    assert (Hset : set_pixel_color self x y c s
                   = (inr tt,
                      {| db := field_store (db s) (name self) ty
                                 (field_bit ty (linear_index x y (width self)))
                                 (value c);
                         sent := sent s ++ [write_command self (value c) (x, y)];
                         outages := [] |})).
    { rewrite set_pixel_color_run. unfold next_fate. rewrite Hup.
      cbn [hd tail]. cbv zeta.
      rewrite (bitfield_set_reply_eq self ty Hfmt).
      rewrite (bool_decide_eq_true_2 _ Ha).
      now rewrite (bool_decide_eq_true_2 _ (value_is_int64 c)). }
    eexists. eexists. split; [exact Hset |].
    rewrite get_pixel_color_run. unfold pixel_reply.
    rewrite (Hafter _ Hset). reflexivity.
  - intros Hwhole x' y' Hx' Hy' Hne.
    apply (unwrapped_clear self ty Hfmt);
      [now apply in_range_unwrapped .. |].
    intros He. apply linear_index_inj in He as [-> ->];
      [congruence | assumption ..].
Qed.

Lemma set_then_get_round_trip_witness :
  (forall (others : list (Z * Z * Color)) (s1 s2 s3 : server) (r : list Z),
      set_pixel_color canvas_2x2 1 2 GREY empty_server = (inr tt, s1) ->
      (forall w, w ∈ others ->
                 clear_of canvas_2x2 (fst (fst w)) (snd (fst w)) 1 2) ->
      for_each others (recolor canvas_2x2) s1 = (inr tt, s2) ->
      get_pixel_color canvas_2x2 1 2 s2 = (inr r, s3) ->
      r = [value GREY])
  /\ (width canvas_2x2 * height canvas_2x2 * Z.of_nat 4 <= ADDRESSABLE_BITS ->
      outages empty_server = [] ->
      exists s1 s2 : server,
        set_pixel_color canvas_2x2 1 2 GREY empty_server = (inr tt, s1)
        /\ get_pixel_color canvas_2x2 1 2 s1 = (inr [value GREY], s2))
  /\ (width canvas_2x2 * height canvas_2x2 * Z.of_nat 4 <= ADDRESSABLE_BITS ->
      forall x' y' : Z,
        1 <= x' <= width canvas_2x2 -> 1 <= y' <= height canvas_2x2 ->
        (x', y') <> (1, 2) ->
        clear_of canvas_2x2 x' y' 1 2).
Proof.
  apply (set_then_get_round_trip canvas_2x2 {| signed := false; bits := 4 |}
           1 2 GREY empty_server);
    [reflexivity | change (0 <= 1 < 16); lia | simpl; lia | simpl; lia].
Defined.

(** ** Construction *)

(** The fill of the constructor stays within the columns
    [1..CANVAS_WIDTH]: on a canvas wider than that, the last column reads
    after construction what the store held before (the offset arithmetic
    not wrapping around). *)
Lemma init_leaves_last_column (CANVAS_WIDTH CANVAS_HEIGHT w h : Z)
    (fmt key hst : string) (prt : Z) (ty : field_type) (s s' : server)
    (self : Canvas) :
  parse_format fmt = Some ty ->
  1 <= CANVAS_WIDTH < w ->
  __init__ CANVAS_WIDTH CANVAS_HEIGHT w h fmt key hst prt s = (inr self, s') ->
  unwrapped ty (linear_index CANVAS_WIDTH CANVAS_HEIGHT w) ->
  forall y : Z,
    unwrapped ty (linear_index w y w) ->
    stored_color self (db s') w y = stored_color self (db s) w y.
Proof.
  intros Hfmt HW Hinit U2 y U. apply init_run in Hinit as [-> Hfill].
  set (self := {| width := w; height := h; name := key; pixel_format := fmt;
                  database := {| host := hst; port := prt |} |}) in *.
  assert (U1 : unwrapped ty (linear_index 1 1 (width self)))
    by (unfold unwrapped, linear_index; lia).
  rewrite (reads_after_region self ty 1 1 CANVAS_WIDTH CANVAS_HEIGHT w y s s'
             Hfmt ltac:(lia) ltac:(cbn; lia) U1 U2 U Hfill).
  rewrite bool_decide_eq_false_2; [reflexivity |].
  rewrite index_in_region by (cbn; lia). lia.
Qed.

(** C3 fails on the code.  With [CANVAS_WIDTH = CANVAS_HEIGHT = 5], the
    constructor of a canvas of width 6 and height 1 returns, pixel [(6,1)]
    is in range, and it still reads GREY: the fill covers the rectangle of
    the module constants, not that of the instance. *)
Theorem init_fills_the_constants_rectangle :
  let outcome :=
    __init__ 5 5 6 1 "u4" "canvas" "localhost" 6379 grey_at_6_1 in
  fst outcome = inr canvas_6x1
  /\ 1 <= 6 <= width canvas_6x1 /\ 1 <= 1 <= height canvas_6x1
  /\ fst (get_pixel_color canvas_6x1 6 1 (snd outcome)) = inr [value GREY]
  /\ value GREY <> value WHITE.
Proof.
  repeat split; try (vm_compute; congruence).
Qed.

(** ** The length of the stored value *)

Lemma foldl_max_lower (l : list nat) :
  forall a : nat,
    (a <= foldl Nat.max a l)%nat
    /\ (forall n, n ∈ l -> (n <= foldl Nat.max a l)%nat).
Proof.
  induction l as [| m l IH]; intros a; cbn [foldl].
  - split; [lia |]. intros n Hn. now apply not_elem_of_nil in Hn.
  - destruct (IH (Nat.max a m)) as [Ha Hl]. split; [lia |].
    intros n Hn. apply elem_of_cons in Hn as [-> | Hn]; [lia | now apply Hl].
Qed.

Lemma foldl_max_upper (l : list nat) (bound : nat) :
  forall a : nat,
    (a <= bound)%nat -> (forall n, n ∈ l -> (n <= bound)%nat) ->
    (foldl Nat.max a l <= bound)%nat.
Proof.
  induction l as [| m l IH]; intros a Ha Hl; cbn [foldl]; [assumption |].
  apply IH.
  - specialize (Hl m ltac:(left)). lia.
  - intros n Hn. apply Hl. now right.
Qed.

Lemma foldl_max_exact (l : list nat) (a top : nat) :
  top ∈ l -> (forall n, n ∈ l -> (n <= top)%nat) ->
  foldl Nat.max a l = Nat.max a top.
Proof.
  intros Hin Hle.
  destruct (foldl_max_lower l a) as [Ha Hl].
  pose proof (Hl _ Hin).
  pose proof (foldl_max_upper l (Nat.max a top) a ltac:(lia)
                (fun n Hn => Nat.le_trans _ _ _ (Hle n Hn) (Nat.le_max_r a top))).
  lia.
Qed.

Section Extent.

Variable self : Canvas.
Variable ty : field_type.
Hypothesis Hfmt : parse_format (pixel_format self) = Some ty.

Lemma paint_step (cell : Z * Z) (s s1 : server) :
  paint self cell s = (inr tt, s1) ->
  addressable ty (cell_index self cell)
  /\ db s1 = field_store (db s) (name self) ty
               (field_bit ty (cell_index self cell)) 0.
Proof.
  unfold paint. intros H.
  apply set_pixel_color_ok in H as (_ & [old Hr] & _).
  rewrite (bitfield_set_reply_eq self ty Hfmt) in Hr.
  case_bool_decide as Ha; [| discriminate].
  case_bool_decide; [| discriminate].
  injection Hr as _ Hd. split; [exact Ha | now rewrite <- Hd].
Qed.

(** Every write extends the value as far as its field reaches, and no
    further. *)
Lemma length_after_paints (l : list (Z * Z)) :
  forall s s' : server,
    for_each l (paint self) s = (inr tt, s') ->
    length (blob_of (db s') (name self)) =
    foldl Nat.max (length (blob_of (db s) (name self)))
          (map (cell_extent self ty) l).
Proof.
  induction l as [| cell l IH]; intros s s'.
  - now intros [= <-].
  - cbn [for_each]. unfold bind.
    destruct (paint self cell s) as [[e | []] s1] eqn:Ha; [discriminate |].
    intros H. rewrite (IH _ _ H). cbn [map foldl].
    apply paint_step in Ha as [_ ->].
    now rewrite length_blob_store.
Qed.

Lemma key_after_paints (l : list (Z * Z)) :
  forall s s' : server,
    for_each l (paint self) s = (inr tt, s') ->
    l <> [] \/ is_Some (db s !! name self) ->
    db s' !! name self = Some (blob_of (db s') (name self)).
Proof.
  induction l as [| cell l IH]; intros s s'.
  - intros [= <-] [Hne | [b Hb]]; [congruence |].
    unfold blob_of. now rewrite Hb.
  - cbn [for_each]. unfold bind.
    destruct (paint self cell s) as [[e | []] s1] eqn:Ha; [discriminate |].
    intros H _. apply (IH _ _ H). right.
    apply paint_step in Ha as [_ ->].
    unfold field_store. rewrite lookup_insert_eq. eauto.
Qed.

End Extent.

Lemma bytes_for_mono (j k : nat) : (j <= k)%nat -> (bytes_for j <= bytes_for k)%nat.
Proof. intros H. unfold bytes_for. apply Nat.Div0.div_le_mono. lia. Qed.

Lemma bytes_for_packed (ty : field_type) (n : Z) :
  1 <= n -> unwrapped ty (n - 1) ->
  Z.of_nat (bytes_for (field_bit ty (n - 1) + bits ty))
  = (n * Z.of_nat (bits ty) + 7) / 8.
Proof.
  intros Hn U. unfold bytes_for. rewrite (unwrapped_field_bit _ _ U).
  rewrite Nat2Z.inj_div, !Nat2Z.inj_add, Z2Nat.id by nia.
  f_equal. lia.
Qed.

Lemma unwrapped_zero (ty : field_type) : unwrapped ty 0.
Proof. unfold unwrapped. lia. Qed.

(** The fill of the rectangle [(1,1)-(W,H)] of a canvas of width [W]
    reaches as far as the last field, number [W*H - 1] (the offset
    arithmetic not wrapping around). *)
Lemma full_region_extent (self : Canvas) (ty : field_type) (H : Z) :
  1 <= width self -> 1 <= H ->
  unwrapped ty (width self * H - 1) ->
  let top := bytes_for (field_bit ty (width self * H - 1) + bits ty) in
  top ∈ map (cell_extent self ty) (region_cells 1 1 (width self) H)
  /\ (forall n, n ∈ map (cell_extent self ty) (region_cells 1 1 (width self) H)
                -> (n <= top)%nat).
Proof.
  intros HW HH U top. split.
  - apply list_elem_of_In, in_map_iff. exists (width self, H). split.
    + unfold cell_extent, cell_index, linear_index, top. simpl.
      do 3 f_equal. lia.
    + apply list_elem_of_In, elem_of_region_cells. lia.
  - intros n Hn. apply list_elem_of_In, in_map_iff in Hn as ([x y] & <- & Hin).
    apply list_elem_of_In, elem_of_region_cells in Hin.
    unfold cell_extent, top. apply bytes_for_mono.
    assert (Hi : 0 <= cell_index self (x, y) <= width self * H - 1)
      by (unfold cell_index, linear_index; simpl; nia).
    pose proof (between_unwrapped ty _ _ _ (unwrapped_zero ty) U Hi) as Ui.
    rewrite (unwrapped_field_bit _ _ U), (unwrapped_field_bit _ _ Ui).
    apply Nat.add_le_mono_r, Z2Nat.inj_le; nia.
Qed.

(** The field of a pixel of the canvas ends within the packed length. *)
Lemma in_range_extent (self : Canvas) (ty : field_type) (x y : Z) :
  1 <= x <= width self -> 1 <= y <= height self ->
  Z.of_nat (cell_extent self ty (x, y))
  <= packed_length (width self) (height self) ty.
Proof.
  intros Hx Hy.
  assert (Hi : 0 <= linear_index x y (width self)
               <= width self * height self - 1)
    by (unfold linear_index; nia).
  unfold packed_length, cell_extent, bytes_for, field_bit, cell_index.
  cbn [fst snd].
  rewrite Nat2Z.inj_div, !Nat2Z.inj_add. apply Z.div_le_mono; [lia |].
  pose proof (wrap64_le (linear_index x y (width self) * Z.of_nat (bits ty))
                ltac:(nia)).
  nia.
Qed.

(** Writes that went through were to fields the server can address. *)
Lemma paints_addressable (self : Canvas) (ty : field_type)
    (l : list (Z * Z)) :
  parse_format (pixel_format self) = Some ty ->
  forall s s' : server,
    for_each l (paint self) s = (inr tt, s') ->
    forall cell, cell ∈ l -> addressable ty (cell_index self cell).
Proof.
  intros Hfmt. induction l as [| c l IH]; intros s s' Hrun cell Hcell.
  - now apply not_elem_of_nil in Hcell.
  - cbn [for_each] in Hrun. unfold bind in Hrun.
    destruct (paint self c s) as [[e | []] s1] eqn:Ha; [discriminate |].
    apply elem_of_cons in Hcell as [-> | Hcell].
    + now apply (paint_step self ty Hfmt) in Ha as [Ha _].
    + exact (IH _ _ Hrun cell Hcell).
Qed.

(** If the server can address every field from number [0] to number [n],
    then field [n] ends below [2^32 + bits]: the offsets of these fields
    do not wrap around. *)
Lemma contiguous_addressable (ty : field_type) (n : Z) :
  (1 <= bits ty <= 64)%nat -> 0 <= n ->
  (forall i, 0 <= i <= n -> addressable ty i) ->
  n * Z.of_nat (bits ty) < ADDRESSABLE_BITS.
Proof.
  intros Hb Hn. pattern n. apply natlike_ind; [| | exact Hn].
  - intros _. unfold ADDRESSABLE_BITS. lia.
  - intros m Hm IH Hall.
    assert (Hprev : m * Z.of_nat (bits ty) < ADDRESSABLE_BITS)
      by (apply IH; intros i Hi; apply Hall; lia).
    assert (U : unwrapped ty (Z.succ m))
      by (unfold unwrapped, ADDRESSABLE_BITS in *; nia).
    apply (unwrapped_addressable ty _ ltac:(lia) U). apply Hall. lia.
Qed.

(** A fill of the whole of a [W] by [H] canvas that ran through shows
    that the store can address the canvas without wrap-around. *)
Lemma whole_fill_fits (self : Canvas) (ty : field_type) (H : Z)
    (s s' : server) :
  parse_format (pixel_format self) = Some ty ->
  1 <= width self -> 1 <= H ->
  for_each (region_cells 1 1 (width self) H) (paint self) s = (inr tt, s') ->
  (width self * H - 1) * Z.of_nat (bits ty) < ADDRESSABLE_BITS.
Proof.
  intros Hfmt HW HH Hrun.
  pose proof (parse_format_bits _ _ Hfmt) as Hb.
  apply (contiguous_addressable ty); [exact Hb | nia |].
  intros i Hi.
  pose proof (Z.div_mod i (width self) ltac:(lia)) as Hdm.
  pose proof (Z.mod_pos_bound i (width self) ltac:(lia)) as Hm.
  assert (Hq : 0 <= i / width self < H).
  { split; [apply Z.div_pos; lia |].
    apply Z.div_lt_upper_bound; [lia | nia]. }
  replace i with (cell_index self (i mod width self + 1, i / width self + 1))
    by (unfold cell_index, linear_index; cbn [fst snd]; lia).
  apply (paints_addressable self ty _ Hfmt _ _ Hrun).
  apply elem_of_region_cells. lia.
Qed.

(** ** The diagnostic scan *)

Lemma string_app_assoc (a b c : string) : (a +:+ b) +:+ c = a +:+ (b +:+ c).
Proof.
  induction a as [| ch a IH]; [reflexivity |].
  change (String ch ((a +:+ b) +:+ c) = String ch (a +:+ (b +:+ c))).
  now f_equal.
Qed.

Lemma string_app_empty (a : string) : a +:+ "" = a.
Proof.
  induction a as [| ch a IH]; [reflexivity |].
  change (String ch (a +:+ "") = String ch a). now f_equal.
Qed.

Section Scan.

Variable self : Canvas.

Lemma to_string_rows (s : server) :
  to_string self s = for_fold (range 0 (height self)) "" (row_step self) s.
Proof. reflexivity. Qed.

Lemma cell_step_run (y x : Z) (acc : string) (s : server) :
  cell_step self y acc x s =
  (match next_fate s with
   | Delivered =>
       match pixel_reply self (db s) (x + 1) (y + 1) with
       | inr reply => inr (acc +:+ str_list reply)
       | inl e => inl e
       end
   | _ => inl ConnectionError
   end,
   after_exchange (read_command self (x + 1, y + 1)) s).
Proof.
  unfold cell_step, bind. rewrite bitfield_get_run.
  destruct (next_fate s); [| reflexivity ..].
  destruct (pixel_reply self (db s) (x + 1) (y + 1)); reflexivity.
Qed.

Lemma scan_row_ok (y : Z) (l : list Z) :
  forall (acc out : string) (s s' : server),
    for_fold l acc (cell_step self y) s = (inr out, s') ->
    out = acc +:+ join (map (fun x => pixel_text self (db s) (x + 1, y + 1)) l)
    /\ db s' = db s
    /\ sent s'
       = sent s ++ map (fun x => read_command self (x + 1, y + 1)) l.
Proof.
  induction l as [| x l IH]; intros acc out s s'.
  - intros [= <- <-]. simpl. now rewrite string_app_empty, app_nil_r.
  - cbn [for_fold]. unfold bind. rewrite cell_step_run.
    destruct (next_fate s); [| discriminate ..].
    destruct (pixel_reply self (db s) (x + 1) (y + 1)) as [e | v] eqn:Ev;
      [discriminate |].
    intros H. apply IH in H as (-> & -> & ->).
    cbn [map join foldr after_exchange db sent].
    unfold pixel_text at 2. cbn [fst snd]. rewrite Ev.
    rewrite string_app_assoc, <- app_assoc. repeat split.
Qed.

Lemma scan_rows_ok (l : list Z) :
  forall (acc out : string) (s s' : server),
    for_fold l acc (row_step self) s = (inr out, s') ->
    out = acc +:+ join (map (fun y =>
                               join (map (fun x =>
                                            pixel_text self (db s) (x + 1, y + 1))
                                         (range 0 (width self)))
                               +:+ newline) l)
    /\ db s' = db s
    /\ sent s'
       = sent s ++ flat_map (fun y =>
                               map (fun x => read_command self (x + 1, y + 1))
                                   (range 0 (width self))) l.
Proof.
  induction l as [| y l IH]; intros acc out s s'.
  - intros [= <- <-]. simpl. now rewrite string_app_empty, app_nil_r.
  - cbn [for_fold]. unfold bind. unfold row_step at 1. unfold bind.
    destruct (for_fold (range 0 (width self)) acc (cell_step self y) s)
      as [[e | row] s1] eqn:Hrow; [discriminate |].
    apply scan_row_ok in Hrow as (-> & Hdb & Hsent).
    unfold ret. intros H. apply IH in H as (-> & -> & ->).
    rewrite Hdb, Hsent. cbn [map join foldr flat_map].
    change (String.concat "" [?a; ?b]) with (a +:+ b).
    rewrite !string_app_assoc, <- app_assoc. repeat split.
Qed.

Lemma scan_commands :
  flat_map (fun y => map (fun x => read_command self (x + 1, y + 1))
                         (range 0 (width self)))
           (range 0 (height self))
  = map (read_command self) (scan_cells self).
Proof.
  unfold scan_cells. generalize (range 0 (height self)). intros rows.
  induction rows as [| y rows IH]; [reflexivity |].
  cbn [flat_map]. rewrite map_app, <- IH, map_map. reflexivity.
Qed.

(** On a healthy connection, with every scanned pixel addressable, the
    scan returns. *)
Lemma scan_row_total (ty : field_type) (y : Z) (l : list Z) :
  parse_format (pixel_format self) = Some ty ->
  (forall x, x ∈ l ->
             addressable ty (linear_index (x + 1) (y + 1) (width self))) ->
  forall (acc : string) (s : server),
    outages s = [] ->
    exists (out : string) (s' : server),
      for_fold l acc (cell_step self y) s = (inr out, s') /\ outages s' = [].
Proof.
  intros Hfmt. induction l as [| x l IH]; intros Hl acc s Hup.
  - exists acc, s. now split.
  - cbn [for_fold]. unfold bind. rewrite cell_step_run.
    unfold next_fate. rewrite Hup. cbn [hd].
    unfold pixel_reply. rewrite (stored_color_eq self ty Hfmt).
    rewrite bool_decide_eq_true_2 by (apply Hl; left).
    apply IH; [intros x' Hx'; apply Hl; now right |].
    cbn [after_exchange outages]. now rewrite Hup.
Qed.

Lemma scan_rows_total (ty : field_type) (l : list Z) :
  parse_format (pixel_format self) = Some ty ->
  (forall x y, x ∈ range 0 (width self) -> y ∈ l ->
               addressable ty (linear_index (x + 1) (y + 1) (width self))) ->
  forall (acc : string) (s : server),
    outages s = [] ->
    exists (out : string) (s' : server),
      for_fold l acc (row_step self) s = (inr out, s') /\ outages s' = [].
Proof.
  intros Hfmt. induction l as [| y l IH]; intros Hl acc s Hup.
  - exists acc, s. now split.
  - cbn [for_fold]. unfold bind. unfold row_step at 1. unfold bind.
    destruct (scan_row_total ty y (range 0 (width self)) Hfmt
                (fun x Hx => Hl x y Hx ltac:(left)) acc s Hup)
      as (row & s1 & -> & Hup1).
    unfold ret.
    apply IH; [intros x y' Hx Hy'; apply Hl; [assumption | now right] |].
    exact Hup1.
Qed.

End Scan.

Lemma scan_addressable (self : Canvas) (ty : field_type) (x y : Z) :
  (1 <= bits ty)%nat ->
  width self * height self * Z.of_nat (bits ty) <= ADDRESSABLE_BITS ->
  x ∈ range 0 (width self) -> y ∈ range 0 (height self) ->
  addressable ty (linear_index (x + 1) (y + 1) (width self)).
Proof.
  intros Hb Hwhole Hx Hy.
  apply elem_of_range in Hx. apply elem_of_range in Hy.
  apply in_range_addressable; (assumption || lia).
Qed.

(** The scan of a 5 x 5 canvas whose pixels all read WHITE. *)
Lemma render_white_5x5 (self : Canvas) (d : gmap string (list Z)) :
  width self = 5 -> height self = 5 ->
  (forall x y, 1 <= x <= 5 -> 1 <= y <= 5 -> stored_color self d x y = inr 0) ->
  render self d = white_scan_5x5.
Proof.
  intros Hw Hh Hzero. unfold render. rewrite Hw, Hh.
  change (range 0 5) with [0; 1; 2; 3; 4].
  cbn [map]. unfold pixel_text, pixel_reply. cbn [fst snd].
  rewrite !Hzero by lia. reflexivity.
Qed.

(** C8, on the code.  When [to_string] returns, its result is the
    rendering of the stored data: row by row, the texts of the pixels of
    the row followed by a line break, where the text of a pixel is [str]
    of the reply list of its read, such as ["[0]"]; one field read per
    pixel has been sent, in row-major order, and the data is unchanged.
    On a healthy connection to a store that can address the canvas it does
    return.  On a canvas freshly constructed with [width = 5],
    [height = 5] and format ["u4"] (the module constants being at least
    as large) the result is five rows of ["[0][0][0][0][0]"], each followed
    by a line break, which is not the grid of ["0"]. *)
Theorem to_string_scan :
  (forall (self : Canvas) (s s' : server) (out : string),
      to_string self s = (inr out, s') ->
      out = render self (db s)
      /\ db s' = db s
      /\ sent s' = sent s ++ map (read_command self) (scan_cells self))
  /\ (forall (self : Canvas) (ty : field_type) (s : server),
         parse_format (pixel_format self) = Some ty ->
         width self * height self * Z.of_nat (bits ty) <= ADDRESSABLE_BITS ->
         outages s = [] ->
         exists (out : string) (s' : server),
           to_string self s = (inr out, s'))
  /\ (forall (CANVAS_WIDTH CANVAS_HEIGHT : Z) (key hst : string) (prt : Z)
             (s s1 : server) (self : Canvas),
         5 <= CANVAS_WIDTH -> 5 <= CANVAS_HEIGHT ->
         __init__ CANVAS_WIDTH CANVAS_HEIGHT 5 5 "u4" key hst prt s
         = (inr self, s1) ->
         outages s1 = [] ->
         fst (to_string self s1) = inr white_scan_5x5)
  /\ white_scan_5x5 <> zero_grid_5x5.
Proof.
  assert (Hok : forall (self : Canvas) (s s' : server) (out : string),
             to_string self s = (inr out, s') ->
             out = render self (db s)
             /\ db s' = db s
             /\ sent s' = sent s ++ map (read_command self) (scan_cells self)).
  { intros self s s' out H. unfold to_string in H.
    apply scan_rows_ok in H as (-> & -> & ->).
    rewrite scan_commands. repeat split. }
  assert (Htotal : forall (self : Canvas) (ty : field_type) (s : server),
             parse_format (pixel_format self) = Some ty ->
             width self * height self * Z.of_nat (bits ty) <= ADDRESSABLE_BITS ->
             outages s = [] ->
             exists (out : string) (s' : server),
               to_string self s = (inr out, s')).
  { intros self ty s Hfmt Hwhole Hup. unfold to_string.
    pose proof (parse_format_bits _ _ Hfmt) as Hb.
    destruct (scan_rows_total self ty (range 0 (height self)) Hfmt
                (fun x y Hx Hy =>
                   scan_addressable self ty x y ltac:(lia) Hwhole Hx Hy)
                "" s Hup) as (out & s' & H & _).
    eauto. }
  split; [exact Hok |]. split; [exact Htotal |].
  split; [| discriminate].
  intros CW CH key hst prt s s1 self HCW HCH Hinit Hup.
  apply init_run in Hinit as [Hself Hfill].
  assert (Hw : width self = 5) by now rewrite Hself.
  assert (Hh : height self = 5) by now rewrite Hself.
  assert (Hfmt : parse_format (pixel_format self)
                 = Some {| signed := false; bits := 4 |})
    by now rewrite Hself.
  destruct (Htotal self _ s1 Hfmt) as (out & s2 & Hrun);
    [rewrite Hw, Hh; vm_compute; discriminate | assumption |].
  rewrite Hrun. cbn [fst]. f_equal.
  apply Hok in Hrun as (-> & _).
  apply render_white_5x5; [assumption .. |].
  intros x y Hx Hy.
  apply (white_after_region _ _ _ _ _ x y _ _ Hfill). lia.
Qed.

Lemma to_string_scan_witness :
  fst (to_string canvas_5x5 fresh_5x5) = inr white_scan_5x5.
Proof.
  apply (proj1 (proj2 (proj2 to_string_scan)) 5 5 "canvas" "localhost" 6379
           empty_server);
    [lia | lia | vm_compute; reflexivity | vm_compute; reflexivity].
Defined.


(** ** The scenarios of section 8, on the code *)

(** Scenario B: after [set_pixel_color(1, 1, GREY)] on the fresh 5 x 5
    canvas the scan shows GREY in row 1, column 1, and WHITE elsewhere. *)
Example scenario_B :
  fst (to_string canvas_5x5
         (snd (set_pixel_color canvas_5x5 1 1 GREY fresh_5x5)))
  = inr (join ["[1][0][0][0][0]" +:+ newline; "[0][0][0][0][0]" +:+ newline;
               "[0][0][0][0][0]" +:+ newline; "[0][0][0][0][0]" +:+ newline;
               "[0][0][0][0][0]" +:+ newline]).
Proof. vm_compute. reflexivity. Qed.

(** Scenario C: the canvas GREY throughout, then [set_pixel_region(2, 2,
    4, 4)]: WHITE in rows and columns 2 to 4, GREY on the border. *)
Example scenario_C :
  let grey := snd (for_each (region_cells 1 1 5 5)
                     (fun cell => set_pixel_color canvas_5x5 (fst cell)
                                    (snd cell) GREY) fresh_5x5) in
  fst (to_string canvas_5x5 (snd (set_pixel_region canvas_5x5 2 2 4 4 grey)))
  = inr (join ["[1][1][1][1][1]" +:+ newline; "[1][0][0][0][1]" +:+ newline;
               "[1][0][0][0][1]" +:+ newline; "[1][0][0][0][1]" +:+ newline;
               "[1][1][1][1][1]" +:+ newline]).
Proof. vm_compute. reflexivity. Qed.

(** * Further properties of the module *)

(** ** Tokens *)

(** X1.  Two coordinate pairs get the same addressing token exactly when
    their linear indices agree, whether they are in range or not; so
    moving [k] rows down is the same as moving [k] widths to the right. *)
Theorem calculate_offset_same_token (x y x' y' W : Z) :
  (calculate_offset x y W = calculate_offset x' y' W
   <-> (y - 1) * W + (x - 1) = (y' - 1) * W + (x' - 1))
  /\ (forall k : Z,
         calculate_offset (x + k * W) y W = calculate_offset x (y + k) W).
Proof.
  split.
  - rewrite !calculate_offset_eq. unfold linear_index. split.
    + apply format_offset_inj.
    + now intros ->.
  - intros k. rewrite !calculate_offset_eq. f_equal. unfold linear_index. lia.
Qed.

(** X2.  [format_offset] is injective: two offsets get the same token
    exactly when they are the same number, negative ones included. *)
Theorem format_offset_injective (m n : Z) :
  format_offset m = format_offset n <-> m = n.
Proof.
  split; [apply format_offset_inj | now intros ->].
Qed.

(** ** Single-pixel calls *)

(** The data a single-pixel write leaves behind, whatever its outcome. *)
Lemma set_pixel_color_data (self : Canvas) (x y : Z) (c : Color)
    (s : server) :
  db (snd (set_pixel_color self x y c s)) = db s
  \/ db (snd (set_pixel_color self x y c s))
     = db_after_write self (value c) (db s) (x, y).
Proof.
  destruct (set_pixel_color self x y c s) as [[e | []] s'] eqn:Hrun.
  - apply set_pixel_color_raises in Hrun as [_ [H | [_ H]]]; auto.
  - right. now apply db_after_write_ok.
Qed.

Lemma set_pixel_color_sent (self : Canvas) (x y : Z) (c : Color)
    (s : server) :
  sent (snd (set_pixel_color self x y c s))
  = sent s ++ [write_command self (value c) (x, y)].
Proof.
  destruct (set_pixel_color self x y c s) as [[e | []] s'] eqn:Hrun.
  - now apply set_pixel_color_raises in Hrun as [H _].
  - now apply set_pixel_color_ok in Hrun as (_ & _ & H & _).
Qed.

(** X3.  The single-pixel calls see the coordinates only through the
    linear index: on two coordinate pairs with the same linear index,
    [set_pixel_color] and [get_pixel_color] do exactly the same, so a
    write past the end of a row is a write to the next row. *)
Theorem pixel_calls_follow_the_index (self : Canvas) (x y x' y' : Z)
    (c : Color) (s : server) :
  linear_index x y (width self) = linear_index x' y' (width self) ->
  set_pixel_color self x y c s = set_pixel_color self x' y' c s
  /\ get_pixel_color self x y s = get_pixel_color self x' y' s.
Proof.
  intros H.
  assert (Ht : calculate_offset x y (width self)
               = calculate_offset x' y' (width self))
    by (rewrite !calculate_offset_eq; now f_equal).
  unfold set_pixel_color, get_pixel_color. now rewrite Ht.
Qed.

Lemma pixel_calls_follow_the_index_witness :
  set_pixel_color canvas_2x2 3 1 GREY empty_server
  = set_pixel_color canvas_2x2 1 2 GREY empty_server
  /\ get_pixel_color canvas_2x2 3 1 empty_server
     = get_pixel_color canvas_2x2 1 2 empty_server.
Proof.
  apply (pixel_calls_follow_the_index canvas_2x2 3 1 1 2 GREY empty_server).
  reflexivity.
Defined.

(** X4.  Whatever its outcome, [set_pixel_color] sends exactly one command
    and leaves every pixel whose field shares no bit with the field of
    the written pixel reading as before.  When the store's offset
    arithmetic does not wrap around for the two pixels (the product of
    linear index and field width is a signed 64-bit integer), that is
    every pixel with another linear index, and so, among pixels with
    columns on the canvas, every other pixel.  When the call raises
    anything but a connection error the data is untouched. *)
Theorem set_pixel_color_frame (self : Canvas) (x y : Z) (c : Color)
    (s : server) :
  let outcome := set_pixel_color self x y c s in
  sent (snd outcome) = sent s ++ [write_command self (value c) (x, y)]
  /\ (forall x' y' : Z,
         clear_of self x y x' y' ->
         stored_color self (db (snd outcome)) x' y'
         = stored_color self (db s) x' y')
  /\ (forall (ty : field_type) (x' y' : Z),
         parse_format (pixel_format self) = Some ty ->
         unwrapped ty (linear_index x y (width self)) ->
         unwrapped ty (linear_index x' y' (width self)) ->
         linear_index x' y' (width self) <> linear_index x y (width self) ->
         stored_color self (db (snd outcome)) x' y'
         = stored_color self (db s) x' y')
  /\ (forall (ty : field_type) (x' y' : Z),
         parse_format (pixel_format self) = Some ty ->
         unwrapped ty (linear_index x y (width self)) ->
         unwrapped ty (linear_index x' y' (width self)) ->
         1 <= x <= width self -> 1 <= x' <= width self ->
         (x', y') <> (x, y) ->
         stored_color self (db (snd outcome)) x' y'
         = stored_color self (db s) x' y')
  /\ (forall e : error,
         fst outcome = inl e -> e <> ConnectionError ->
         db (snd outcome) = db s).
Proof.
  intros outcome. subst outcome.
  assert (Hframe : forall x' y' : Z,
             clear_of self x y x' y' ->
             stored_color self (db (snd (set_pixel_color self x y c s))) x' y'
             = stored_color self (db s) x' y').
  { intros x' y' Hclear.
    destruct (set_pixel_color_data self x y c s) as [-> | ->];
      [reflexivity | now apply db_after_write_clear]. }
  assert (Hplain : forall (ty : field_type) (x' y' : Z),
             parse_format (pixel_format self) = Some ty ->
             unwrapped ty (linear_index x y (width self)) ->
             unwrapped ty (linear_index x' y' (width self)) ->
             linear_index x' y' (width self) <> linear_index x y (width self) ->
             stored_color self (db (snd (set_pixel_color self x y c s))) x' y'
             = stored_color self (db s) x' y').
  { intros ty x' y' Hfmt U U' Hne. apply Hframe.
    now apply (unwrapped_clear self ty Hfmt). }
  split; [apply set_pixel_color_sent |].
  split; [exact Hframe |]. split; [exact Hplain |]. split.
  - intros ty x' y' Hfmt U U' Hx Hx' Hne. apply (Hplain ty); try assumption.
    intros He.
    apply linear_index_inj in He as [-> ->]; [congruence | lia | lia].
  - intros e He Hne.
    destruct (set_pixel_color self x y c s) as [r s'] eqn:Hrun.
    cbn [fst snd] in *. subst r.
    apply set_pixel_color_raises in Hrun as [_ [H | [H _]]]; congruence.
Qed.

Lemma bits_positive (fmt : string) (ty : field_type) :
  parse_format fmt = Some ty -> 0 < Z.of_nat (bits ty).
Proof. intros H. apply parse_format_bits in H. lia. Qed.

(** The server refuses a write or a read when it refuses the format, or
    the field is one it cannot address. *)
Lemma unaddressable_refused (self : Canvas) (x y v : Z)
    (d : gmap string (list Z)) :
  (forall ty, parse_format (pixel_format self) = Some ty ->
              ~ addressable ty (linear_index x y (width self))) ->
  bitfield_set_reply (name self) (pixel_format self)
    (calculate_offset x y (width self)) v d = inl ResponseError
  /\ stored_color self d x y = inl ResponseError.
Proof.
  intros Hout.
  destruct (parse_format (pixel_format self)) as [ty |] eqn:Hfmt.
  - rewrite (bitfield_set_reply_eq self ty Hfmt),
            (stored_color_eq self ty Hfmt).
    now rewrite (bool_decide_eq_false_2 _ (Hout ty eq_refl)).
  - unfold stored_color, bitfield_set_reply, bitfield_get_reply.
    now rewrite Hfmt.
Qed.

(** X5.  Coordinates are not checked before the store is called: the
    command is sent whatever they are.  When the linear index of the
    pixel is no signed 64-bit integer, or its product with the field
    width is negative, or is [2^32] or more (in both cases within the
    signed 64-bit integers, where the store's arithmetic is exact), the
    store refuses, and on a delivered round trip [set_pixel_color] and
    [get_pixel_color] raise its [ResponseError], the data staying as it
    was. *)
Theorem out_of_store_pixel_is_refused (self : Canvas) (x y : Z) (c : Color)
    (s : server) :
  (forall ty : field_type,
      parse_format (pixel_format self) = Some ty ->
      let i := linear_index x y (width self) in
      i < - 2 ^ 63 \/ 2 ^ 63 <= i
      \/ - 2 ^ 63 <= i * Z.of_nat (bits ty) < 0
      \/ ADDRESSABLE_BITS <= i * Z.of_nat (bits ty) < 2 ^ 63) ->
  delivered s ->
  set_pixel_color self x y c s
  = (inl ResponseError,
     after_exchange (write_command self (value c) (x, y)) s)
  /\ get_pixel_color self x y s
     = (inl ResponseError, after_exchange (read_command self (x, y)) s).
Proof.
  intros Hout Hup. unfold delivered in Hup.
  destruct (unaddressable_refused self x y (value c) (db s)) as [Hw Hr].
  { intros ty Hfmt [Hi Ha]. specialize (Hout ty Hfmt). cbv zeta in Hout.
    destruct Hout as [H | [H | [H | H]]]; [lia | lia | |];
      rewrite wrap64_small in Ha by lia; lia. }
  split.
  - rewrite set_pixel_color_run, Hup. cbv zeta. now rewrite Hw.
  - rewrite get_pixel_color_run, Hup. unfold pixel_reply. now rewrite Hr.
Qed.

Lemma out_of_store_pixel_is_refused_witness :
  set_pixel_color canvas_2x2 0 1 GREY empty_server
  = (inl ResponseError,
     after_exchange (write_command canvas_2x2 (value GREY) (0, 1))
                    empty_server)
  /\ get_pixel_color canvas_2x2 0 1 empty_server
     = (inl ResponseError,
        after_exchange (read_command canvas_2x2 (0, 1)) empty_server).
Proof.
  apply (out_of_store_pixel_is_refused canvas_2x2 0 1 GREY empty_server);
    [| reflexivity].
  intros ty Hfmt. vm_compute in Hfmt. injection Hfmt as <-.
  right. right. left. cbv zeta. unfold linear_index. simpl. lia.
Defined.

(** The same on the first index the store refuses for want of room: with
    4 bits per pixel, pixel number [2^30] would start at bit [2^32]. *)
Example first_index_beyond_the_store :
  linear_index (2 ^ 30 + 1) 1 (width canvas_2x2) = 2 ^ 30
  /\ fst (set_pixel_color canvas_2x2 (2 ^ 30 + 1) 1 GREY empty_server)
     = inl ResponseError.
Proof. split; vm_compute; reflexivity. Qed.

(** X18.  Pixels far apart can share a field: when the linear indices of
    two pixels are signed 64-bit integers and their products with the
    field width differ by a multiple of [2^64], the store addresses the
    same bits for both, so they read the same in every state of the data
    and a write to one is a write to the other. *)
Theorem far_pixels_share_a_field (self : Canvas) (ty : field_type)
    (x y x' y' m : Z) :
  parse_format (pixel_format self) = Some ty ->
  - 2 ^ 63 <= linear_index x y (width self) < 2 ^ 63 ->
  - 2 ^ 63 <= linear_index x' y' (width self) < 2 ^ 63 ->
  linear_index x' y' (width self) * Z.of_nat (bits ty)
  = linear_index x y (width self) * Z.of_nat (bits ty) + m * 2 ^ 64 ->
  pixel_field self x' y' = pixel_field self x y
  /\ (forall d : gmap string (list Z),
         stored_color self d x' y' = stored_color self d x y)
  /\ (forall (d : gmap string (list Z)) (v : Z),
         db_after_write self v d (x', y') = db_after_write self v d (x, y)).
Proof.
  intros Hfmt Hi Hi' Hm.
  assert (Hw : wrap64 (linear_index x' y' (width self) * Z.of_nat (bits ty))
               = wrap64 (linear_index x y (width self) * Z.of_nat (bits ty)))
    by (rewrite Hm; apply wrap64_congruent).
  assert (Hbit : field_bit ty (linear_index x' y' (width self))
                 = field_bit ty (linear_index x y (width self)))
    by (unfold field_bit; now rewrite Hw).
  assert (Ha : addressable ty (linear_index x' y' (width self))
               <-> addressable ty (linear_index x y (width self)))
    by (unfold addressable; rewrite Hw; tauto).
  split; [| split].
  - rewrite !(pixel_field_eq self ty Hfmt), Hbit.
    now rewrite (bool_decide_ext _ _ Ha).
  - intros d. rewrite !(stored_color_eq self ty Hfmt), Hbit.
    now rewrite (bool_decide_ext _ _ Ha).
  - intros d v. unfold db_after_write. cbn [fst snd].
    rewrite !(bitfield_set_reply_eq self ty Hfmt), Hbit.
    now rewrite (bool_decide_ext _ _ Ha).
Qed.

Lemma far_pixels_share_a_field_witness :
  pixel_field canvas_2x2 1 (2 ^ 61 + 1) = pixel_field canvas_2x2 1 1
  /\ (forall d : gmap string (list Z),
         stored_color canvas_2x2 d 1 (2 ^ 61 + 1)
         = stored_color canvas_2x2 d 1 1)
  /\ (forall (d : gmap string (list Z)) (v : Z),
         db_after_write canvas_2x2 v d (1, 2 ^ 61 + 1)
         = db_after_write canvas_2x2 v d (1, 1)).
Proof.
  apply (far_pixels_share_a_field canvas_2x2 {| signed := false; bits := 4 |}
           1 1 1 (2 ^ 61 + 1) 1);
    [reflexivity | vm_compute; split; [discriminate | reflexivity]
     | vm_compute; split; [discriminate | reflexivity]
     | vm_compute; reflexivity].
Defined.

(** ** Region fill, continued *)

Lemma length_range (a b : Z) : length (range a b) = Z.to_nat (b - a).
Proof. unfold range. apply length_seqZ. Qed.

Lemma length_region_cells (x1 y1 x2 y2 : Z) :
  Z.of_nat (length (region_cells x1 y1 x2 y2))
  = Z.max 0 (x2 - x1 + 1) * Z.max 0 (y2 - y1 + 1).
Proof.
  unfold region_cells.
  assert (Hrows : forall rows : list Z,
             length (flat_map (fun y => map (fun x => (x, y))
                                            (range x1 (x2 + 1))) rows)
             = (length rows * Z.to_nat (x2 + 1 - x1))%nat).
  { induction rows as [| y rows IH]; [reflexivity |].
    cbn [flat_map]. rewrite length_app, IH, length_map, length_range.
    simpl. lia. }
  rewrite Hrows, length_range. lia.
Qed.

(** X6.  [set_pixel_region] is the sequence of the calls
    [set_pixel_color(x, y, WHITE)] over the rectangle, rows outermost and
    columns innermost, stopping at the first that raises; a rectangle has
    [max(0, x2-x1+1) * max(0, y2-y1+1)] pixels, and a fill that runs
    through has sent that many commands. *)
Theorem region_fill_unrolled (self : Canvas) (x1 y1 x2 y2 : Z) (s : server) :
  set_pixel_region self x1 y1 x2 y2 s
  = for_each (region_cells x1 y1 x2 y2)
      (fun cell => set_pixel_color self (fst cell) (snd cell) WHITE) s
  /\ (forall s' : server,
         set_pixel_region self x1 y1 x2 y2 s = (inr tt, s') ->
         Z.of_nat (length (sent s'))
         = Z.of_nat (length (sent s))
           + Z.max 0 (x2 - x1 + 1) * Z.max 0 (y2 - y1 + 1)).
Proof.
  split; [apply set_pixel_region_cells |].
  intros s' Hrun. rewrite set_pixel_region_cells in Hrun.
  apply paint_all_ok in Hrun as (_ & -> & _).
  rewrite length_app, length_map, Nat2Z.inj_add, length_region_cells.
  reflexivity.
Qed.

(** X7.  Filling the rows [y1..y2] is filling the rows [y1..ym] and then
    the rows [ym+1..y2], for every [ym] from [y1 - 1] to [y2]. *)
Theorem region_fill_splits_by_rows (self : Canvas) (x1 y1 x2 y2 ym : Z)
    (s : server) :
  y1 - 1 <= ym <= y2 ->
  set_pixel_region self x1 y1 x2 y2 s
  = (_ <- set_pixel_region self x1 y1 x2 ym ;;
     set_pixel_region self x1 (ym + 1) x2 y2) s.
Proof.
  intros Hm. unfold bind. rewrite !set_pixel_region_cells.
  assert (Hsplit : region_cells x1 y1 x2 y2
                   = region_cells x1 y1 x2 ym
                     ++ region_cells x1 (ym + 1) x2 y2).
  { unfold region_cells, range. rewrite <- flat_map_app. f_equal.
    replace (y2 + 1 - y1) with ((ym + 1 - y1) + (y2 + 1 - (ym + 1))) by lia.
    rewrite seqZ_app by lia. do 2 f_equal. lia. }
  rewrite Hsplit, for_each_app.
  destruct (for_each (region_cells x1 y1 x2 ym) (paint self) s)
    as [[e | []] s1]; [reflexivity |].
  now rewrite set_pixel_region_cells.
Qed.

Lemma region_fill_splits_by_rows_witness :
  set_pixel_region canvas_2x2 1 1 2 2 grey_at_1_2
  = (_ <- set_pixel_region canvas_2x2 1 1 2 1 ;;
     set_pixel_region canvas_2x2 1 (1 + 1) 2 2) grey_at_1_2.
Proof.
  apply (region_fill_splits_by_rows canvas_2x2 1 1 2 2 1 grey_at_1_2). lia.
Defined.

(** *** A second fill changes nothing *)

Lemma put_bit_same (b : list Z) (k : nat) :
  put_bit b k (get_bit b k) = b.
Proof.
  unfold put_bit, get_bit, byte_at.
  set (p := Z.of_nat (7 - k mod 8)). set (i := (k / 8)%nat).
  assert (Hp : 0 <= p) by (subst p; lia).
  apply list_eq. intros j.
  rewrite list_lookup_alter. destruct (decide (i = j)) as [<- |];
    [| reflexivity].
  destruct (b !! i) as [c |]; [| reflexivity].
  change (default 0 (Some c)) with c.
  change (Some (if Z.testbit c p then Z.setbit c p else Z.clearbit c p)
          = Some c).
  f_equal. apply Z.bits_inj. intros n.
  destruct (Z.testbit c p) eqn:Hbit.
  - rewrite Z.setbit_eqb by assumption.
    destruct (Z.eqb_spec p n) as [<- |]; [now rewrite Hbit | reflexivity].
  - rewrite Z.clearbit_eqb.
    destruct (Z.eqb_spec p n) as [<- |];
      [now rewrite Hbit | now rewrite andb_true_r].
Qed.

Lemma write_bits_same (n : nat) : forall (b : list Z) (k : nat) (v : Z),
  (forall j, (k <= j < k + n)%nat ->
             get_bit b j = Z.testbit v (Z.of_nat (k + n - 1 - j))) ->
  write_bits b k n v = b.
Proof.
  induction n as [| n IH]; intros b k v H; [reflexivity |].
  cbn [write_bits].
  replace (Z.testbit v (Z.of_nat n)) with (get_bit b k)
    by (rewrite H by lia; f_equal; lia).
  rewrite put_bit_same. apply IH. intros j Hj. rewrite H by lia. f_equal. lia.
Qed.

Lemma grow_enough (b : list Z) (len : nat) :
  (len <= length b)%nat -> grow b len = b.
Proof.
  intros H. unfold grow.
  replace (len - length b)%nat with 0%nat by lia. apply app_nil_r.
Qed.

(** Storing WHITE in a field that holds WHITE, in a stored value that
    reaches as far as the field, leaves the data as it is. *)
Lemma field_store_white_on_white (d : gmap string (list Z)) (key : string)
    (ty : field_type) (k : nat) :
  (0 < bits ty)%nat ->
  is_Some (d !! key) ->
  (bytes_for (k + bits ty) <= length (blob_of d key))%nat ->
  field_value d key ty k = 0 ->
  field_store d key ty k 0 = d.
Proof.
  intros Hb [blob Hblob] Hlen Hzero. unfold field_store.
  assert (Hb0 : blob_of d key = blob) by (unfold blob_of; now rewrite Hblob).
  rewrite grow_enough by assumption.
  rewrite write_bits_same; [rewrite Hb0; now apply insert_id |].
  intros j Hj. rewrite Z.bits_0.
  apply (read_bits_zero (bits ty) _ k); [| assumption].
  apply (decode_zero ty); [assumption | apply read_bits_range | exact Hzero].
Qed.

Lemma paint_white_on_white (self : Canvas) (ty : field_type)
    (cell : Z * Z) (s s' : server) :
  parse_format (pixel_format self) = Some ty ->
  is_Some (db s !! name self) ->
  (cell_extent self ty cell <= length (blob_of (db s) (name self)))%nat ->
  stored_color self (db s) (fst cell) (snd cell) = inr 0 ->
  paint self cell s = (inr tt, s') ->
  db s' = db s.
Proof.
  intros Hfmt Hkey Hlen Hzero Hrun.
  pose proof (parse_format_bits _ _ Hfmt) as Hb.
  apply (paint_step self ty Hfmt) in Hrun as [Ha ->].
  rewrite (stored_color_eq self ty Hfmt) in Hzero.
  rewrite (bool_decide_eq_true_2 _ Ha) in Hzero.
  apply field_store_white_on_white; [lia | assumption | assumption |].
  unfold cell_index. congruence.
Qed.

Lemma paints_white_on_white (self : Canvas) (ty : field_type)
    (l : list (Z * Z)) :
  parse_format (pixel_format self) = Some ty ->
  forall s s' : server,
    is_Some (db s !! name self) ->
    (forall cell, cell ∈ l ->
       (cell_extent self ty cell <= length (blob_of (db s) (name self)))%nat
       /\ stored_color self (db s) (fst cell) (snd cell) = inr 0) ->
    for_each l (paint self) s = (inr tt, s') ->
    db s' = db s.
Proof.
  intros Hfmt. induction l as [| cell l IH]; intros s s' Hkey Hl.
  - now intros [= <-].
  - cbn [for_each]. unfold bind.
    destruct (paint self cell s) as [[e | []] s1] eqn:Ha; [discriminate |].
    intros Hrun.
    destruct (Hl cell ltac:(left)) as [Hlen Hzero].
    pose proof (paint_white_on_white self ty cell s s1 Hfmt Hkey Hlen Hzero Ha)
      as Hs1.
    rewrite <- Hs1. apply (IH s1 s'); [now rewrite Hs1 | | assumption].
    intros c Hc. rewrite Hs1. apply Hl. now right.
Qed.

(** X8.  The fill is idempotent on the store: when a fill has run through,
    running the same fill again changes nothing in the stored data, so
    [get_canvas] returns the same bytes after it as before it. *)
Theorem region_fill_idempotent (self : Canvas) (x1 y1 x2 y2 : Z)
    (s s1 s2 : server) :
  set_pixel_region self x1 y1 x2 y2 s = (inr tt, s1) ->
  set_pixel_region self x1 y1 x2 y2 s1 = (inr tt, s2) ->
  db s2 = db s1
  /\ (delivered s1 -> delivered s2 ->
      fst (get_canvas self s2) = fst (get_canvas self s1)).
Proof.
  intros Hfirst Hsecond.
  assert (Hdb : db s2 = db s1).
  { rewrite set_pixel_region_cells in Hfirst, Hsecond.
    destruct (region_cells x1 y1 x2 y2) as [| cell0 cells] eqn:Hcells;
      [now injection Hsecond as <- |].
    assert (Hfmt : exists ty, parse_format (pixel_format self) = Some ty).
    { cbn [for_each] in Hfirst. unfold bind in Hfirst.
      destruct (paint self cell0 s) as [[e | []] s0] eqn:Ha; [discriminate |].
      unfold paint in Ha.
      apply set_pixel_color_ok in Ha as (_ & [old Hr] & _).
      eapply write_needs_format; eassumption. }
    destruct Hfmt as [ty Hfmt].
    apply (paints_white_on_white self ty (cell0 :: cells) Hfmt s1 s2);
      [| | assumption].
    - rewrite (key_after_paints self ty Hfmt _ _ _ Hfirst) by (now left).
      eauto.
    - intros cell Hcell. split.
      + rewrite (length_after_paints self ty Hfmt _ _ _ Hfirst).
        apply foldl_max_lower. apply list_elem_of_fmap. eauto.
      + apply (white_after_paints self _ _ _ _ _ Hfirst). left.
        apply list_elem_of_fmap. exists cell. split; [| assumption].
        reflexivity. }
  split; [exact Hdb |].
  intros Hup1 Hup2. rewrite !get_canvas_run.
  unfold delivered in Hup1, Hup2. now rewrite Hup1, Hup2, Hdb.
Qed.

Lemma region_fill_idempotent_witness :
  db (snd (set_pixel_region canvas_2x2 1 1 2 2
             (snd (set_pixel_region canvas_2x2 1 1 2 2 grey_at_1_2))))
  = db (snd (set_pixel_region canvas_2x2 1 1 2 2 grey_at_1_2))
  /\ (delivered (snd (set_pixel_region canvas_2x2 1 1 2 2 grey_at_1_2)) ->
      delivered
        (snd (set_pixel_region canvas_2x2 1 1 2 2
                (snd (set_pixel_region canvas_2x2 1 1 2 2 grey_at_1_2)))) ->
      fst (get_canvas canvas_2x2
             (snd (set_pixel_region canvas_2x2 1 1 2 2
                     (snd (set_pixel_region canvas_2x2 1 1 2 2
                             grey_at_1_2)))))
      = fst (get_canvas canvas_2x2
               (snd (set_pixel_region canvas_2x2 1 1 2 2 grey_at_1_2)))).
Proof.
  apply (region_fill_idempotent canvas_2x2 1 1 2 2 grey_at_1_2);
    vm_compute; reflexivity.
Defined.

(** ** The scan, continued *)

Lemma scan_row_any (self : Canvas) (y : Z) (l : list Z) :
  forall (acc : string) (s : server),
    db (snd (for_fold l acc (cell_step self y) s)) = db s
    /\ exists m : nat,
         (m <= length l)%nat
         /\ sent (snd (for_fold l acc (cell_step self y) s))
            = sent s
              ++ take m (map (fun x => read_command self (x + 1, y + 1)) l).
Proof.
  induction l as [| x l IH]; intros acc s.
  - split; [reflexivity |]. exists 0%nat. split; [lia |].
    simpl. now rewrite app_nil_r.
  - cbn [for_fold]. unfold bind. rewrite cell_step_run.
    assert (Hstop : forall e : error,
               db (snd (inl e : error + string,
                        after_exchange (read_command self (x + 1, y + 1)) s))
               = db s
               /\ exists m : nat,
                    (m <= length (x :: l))%nat
                    /\ sent (snd (inl e : error + string,
                                  after_exchange
                                    (read_command self (x + 1, y + 1)) s))
                       = sent s
                         ++ take m (map (fun x => read_command self
                                                    (x + 1, y + 1)) (x :: l))).
    { intros e. split; [reflexivity |]. exists 1%nat. split; [simpl; lia |].
      reflexivity. }
    destruct (next_fate s); [| apply Hstop ..].
    destruct (pixel_reply self (db s) (x + 1) (y + 1)) as [e | reply];
      [apply Hstop |].
    destruct (IH (acc +:+ str_list reply)
                 (after_exchange (read_command self (x + 1, y + 1)) s))
      as (Hdb & m & Hm & Hsent).
    split; [exact Hdb |]. exists (S m). split; [simpl; lia |].
    rewrite Hsent. cbn [after_exchange sent map take].
    now rewrite <- app_assoc.
Qed.

Lemma for_fold_row_step (self : Canvas) (y : Z) (rows : list Z)
    (acc : string) (s : server) :
  for_fold (y :: rows) acc (row_step self) s
  = match for_fold (range 0 (width self)) acc (cell_step self y) s with
    | (inl e, s1) => (inl e, s1)
    | (inr row, s1) =>
        for_fold rows (String.concat "" [row; newline]) (row_step self) s1
    end.
Proof.
  cbn [for_fold]. unfold bind. unfold row_step at 1. unfold bind, ret.
  destruct (for_fold (range 0 (width self)) acc (cell_step self y) s)
    as [[e | row] s1]; reflexivity.
Qed.

Lemma scan_rows_any (self : Canvas) (rows : list Z) :
  forall (acc : string) (s : server),
    db (snd (for_fold rows acc (row_step self) s)) = db s
    /\ exists n : nat,
         sent (snd (for_fold rows acc (row_step self) s))
         = sent s
           ++ take n (flat_map
                        (fun y => map (fun x => read_command self (x + 1, y + 1))
                                      (range 0 (width self))) rows).
Proof.
  induction rows as [| y rows IH]; intros acc s.
  - split; [reflexivity |]. exists 0%nat. simpl. now rewrite app_nil_r.
  - rewrite for_fold_row_step. cbn [flat_map].
    destruct (for_fold (range 0 (width self)) acc (cell_step self y) s)
      as [[e | row] s1] eqn:Hrow.
    + destruct (scan_row_any self y (range 0 (width self)) acc s)
        as (Hdb & m & Hm & Hsent).
      rewrite Hrow in Hdb, Hsent. cbn [snd] in *.
      split; [exact Hdb |]. exists m.
      rewrite take_app_le by (now rewrite length_map). exact Hsent.
    + apply scan_row_ok in Hrow as (_ & Hdb & Hsent).
      destruct (IH (String.concat "" [row; newline]) s1) as (Hdb' & n & Hn).
      split; [now rewrite Hdb', Hdb |].
      eexists. rewrite Hn, Hsent, <- app_assoc. f_equal.
      symmetry. apply take_app_add.
Qed.

(** X9.  [to_string] only reads: whether it returns or raises, the stored
    data is what it was, and what has been sent is an initial part of the
    field reads of the pixels in row-major order. *)
Theorem to_string_only_reads (self : Canvas) (s : server) :
  db (snd (to_string self s)) = db s
  /\ exists n : nat,
       sent (snd (to_string self s))
       = sent s ++ take n (map (read_command self) (scan_cells self)).
Proof.
  rewrite to_string_rows, <- scan_commands. apply scan_rows_any.
Qed.

Lemma blank_rows (self : Canvas) (rows : list Z) :
  range 0 (width self) = [] ->
  forall (acc : string) (s : server),
    for_fold rows acc (row_step self) s
    = (inr (acc +:+ join (replicate (length rows) newline)), s).
Proof.
  intros Hw. induction rows as [| y rows IH]; intros acc s.
  - simpl. now rewrite string_app_empty.
  - rewrite for_fold_row_step, Hw. cbn [for_fold]. unfold ret. rewrite IH.
    cbn [length replicate join foldr].
    change (String.concat "" [acc; newline]) with (acc +:+ newline).
    now rewrite string_app_assoc.
Qed.

(** X10.  A canvas without pixels is scanned without a single read: with
    [width <= 0] the result is one line break per row, with [height <= 0]
    it is the empty string, and the server is left exactly as it was. *)
Theorem to_string_of_empty_canvas (self : Canvas) (s : server) :
  width self <= 0 \/ height self <= 0 ->
  to_string self s
  = (inr (join (replicate (Z.to_nat (height self)) newline)), s).
Proof.
  intros [Hw | Hh]; rewrite to_string_rows.
  - rewrite blank_rows by (apply range_empty; lia).
    now rewrite length_range, Z.sub_0_r.
  - rewrite (range_empty 0 (height self)) by lia.
    replace (Z.to_nat (height self)) with 0%nat by lia. reflexivity.
Qed.

Lemma to_string_of_empty_canvas_witness :
  to_string {| width := 0; height := 2; name := "canvas";
               pixel_format := "u4"; database := local_client |} grey_at_1_2
  = (inr (join (replicate (Z.to_nat 2) newline)), grey_at_1_2).
Proof.
  apply (to_string_of_empty_canvas
           {| width := 0; height := 2; name := "canvas";
              pixel_format := "u4"; database := local_client |} grey_at_1_2).
  left. simpl. lia.
Defined.

(** ** The stored bytes *)

(** X11.  The bytes [get_canvas] returns hold what [set_pixel_color] has
    written: after a write that returned, the value exists, it reaches as
    far as the field of the pixel, the bits of the field (most significant
    first) are the low bits of the colour's value, and the value is as
    long as before or as long as the field requires, whichever is more.
    The field starts at the bit offset the store derives from the token,
    the product of linear index and field width wrapped to a signed
    64-bit integer; it lies below [2^32], and it is the product itself
    when that is a signed 64-bit integer. *)
Theorem get_canvas_shows_the_write (self : Canvas) (ty : field_type)
    (x y : Z) (c : Color) (s s1 : server) :
  parse_format (pixel_format self) = Some ty ->
  set_pixel_color self x y c s = (inr tt, s1) ->
  delivered s1 ->
  let product := linear_index x y (width self) * Z.of_nat (bits ty) in
  let k := Z.to_nat (wrap64 product) in
  Z.of_nat k = wrap64 product
  /\ Z.of_nat k < ADDRESSABLE_BITS
  /\ (- 2 ^ 63 <= product < 2 ^ 63 -> Z.of_nat k = product)
  /\ exists blob : list Z,
       fst (get_canvas self s1) = inr (Some blob)
       /\ (k + bits ty <= 8 * length blob)%nat
       /\ read_bits blob k (bits ty) = value c mod 2 ^ Z.of_nat (bits ty)
       /\ length blob
          = Nat.max (length (blob_of (db s) (name self)))
                    (bytes_for (k + bits ty)).
Proof.
  intros Hfmt Hset Hup product k.
  apply set_pixel_color_ok in Hset as (_ & [old Hr] & _).
  rewrite (bitfield_set_reply_eq self ty Hfmt) in Hr.
  case_bool_decide as Ha; [| discriminate].
  case_bool_decide; [| discriminate].
  injection Hr as _ Hdb.
  change (field_bit ty (linear_index x y (width self))) with k in Hdb.
  destruct Ha as [_ Ha]. fold product in Ha.
  assert (Hk : Z.of_nat k = wrap64 product) by (subst k; lia).
  split; [exact Hk |]. split; [lia |].
  split; [intros U; now rewrite Hk, wrap64_small |].
  exists (write_bits (grow (blob_of (db s) (name self))
                          (bytes_for (k + bits ty))) k (bits ty) (value c)).
  split; [| split; [| split]].
  - rewrite get_canvas_run. unfold delivered in Hup. rewrite Hup. cbn [fst].
    rewrite <- Hdb. unfold field_store. now rewrite lookup_insert_eq.
  - rewrite length_write_bits. apply field_fits_grown.
  - apply read_write_same, field_fits_grown.
  - rewrite length_write_bits. apply length_grow.
Qed.

Lemma get_canvas_shows_the_write_witness :
  let product := linear_index 1 2 (width canvas_2x2) * Z.of_nat 4 in
  let k := Z.to_nat (wrap64 product) in
  Z.of_nat k = wrap64 product
  /\ Z.of_nat k < ADDRESSABLE_BITS
  /\ (- 2 ^ 63 <= product < 2 ^ 63 -> Z.of_nat k = product)
  /\ exists blob : list Z,
       fst (get_canvas canvas_2x2 grey_at_1_2) = inr (Some blob)
       /\ (k + 4 <= 8 * length blob)%nat
       /\ read_bits blob k 4 = value GREY mod 2 ^ Z.of_nat 4
       /\ length blob
          = Nat.max (length (blob_of (db empty_server) (name canvas_2x2)))
                    (bytes_for (k + 4)).
Proof.
  apply (get_canvas_shows_the_write canvas_2x2
           {| signed := false; bits := 4 |} 1 2 GREY empty_server grey_at_1_2);
    reflexivity.
Defined.

(** A write far outside the canvas, where the product wraps around:
    pixel [(1, 2^61 + 1)] of [canvas_2x2] has linear index [2^62] and 4
    bits, the product [2^64] wraps to bit 0, and on an empty store the
    write of GREY leaves a value of one byte with GREY in its first
    field. *)
Example far_write_shows_in_first_byte :
  let s1 := snd (set_pixel_color canvas_2x2 1 (2 ^ 61 + 1) GREY empty_server) in
  fst (set_pixel_color canvas_2x2 1 (2 ^ 61 + 1) GREY empty_server) = inr tt
  /\ wrap64 (linear_index 1 (2 ^ 61 + 1) (width canvas_2x2) * 4) = 0
  /\ fst (get_canvas canvas_2x2 s1) = inr (Some [16]).
Proof. repeat split; vm_compute; reflexivity. Qed.

(** X12.  Writes to pixels of the canvas never change the length of a
    stored value that already holds the whole canvas: neither a
    [set_pixel_color] of an in-range pixel nor a [set_pixel_region] of an
    in-range rectangle that returns. *)
Theorem in_range_writes_keep_length (self : Canvas) (ty : field_type)
    (s : server) :
  parse_format (pixel_format self) = Some ty ->
  packed_length (width self) (height self) ty
  <= Z.of_nat (length (blob_of (db s) (name self))) ->
  (forall (x y : Z) (c : Color) (s1 : server),
      1 <= x <= width self -> 1 <= y <= height self ->
      set_pixel_color self x y c s = (inr tt, s1) ->
      length (blob_of (db s1) (name self))
      = length (blob_of (db s) (name self)))
  /\ (forall (x1 y1 x2 y2 : Z) (s1 : server),
         1 <= x1 -> x2 <= width self -> 1 <= y1 -> y2 <= height self ->
         set_pixel_region self x1 y1 x2 y2 s = (inr tt, s1) ->
         length (blob_of (db s1) (name self))
         = length (blob_of (db s) (name self))).
Proof.
  intros Hfmt Hlen. split.
  - intros x y c s1 Hx Hy Hset.
    apply set_pixel_color_ok in Hset as (_ & [old Hr] & _).
    rewrite (bitfield_set_reply_eq self ty Hfmt) in Hr.
    case_bool_decide; [| discriminate]. case_bool_decide; [| discriminate].
    injection Hr as _ <-. rewrite length_blob_store.
    pose proof (in_range_extent self ty x y Hx Hy) as He.
    unfold cell_extent, cell_index in He. cbn [fst snd] in He. lia.
  - intros x1 y1 x2 y2 s1 Hx1 Hx2 Hy1 Hy2 Hrun.
    rewrite set_pixel_region_cells in Hrun.
    rewrite (length_after_paints self ty Hfmt _ _ _ Hrun).
    set (extents := map (cell_extent self ty) (region_cells x1 y1 x2 y2)).
    destruct (foldl_max_lower extents
                (length (blob_of (db s) (name self)))) as [Hlow _].
    assert (Hupp : (foldl Nat.max (length (blob_of (db s) (name self)))
                          extents
                    <= length (blob_of (db s) (name self)))%nat).
    { apply foldl_max_upper; [lia |].
      intros n Hn. apply list_elem_of_fmap in Hn as ([x y] & -> & Hin).
      apply elem_of_region_cells in Hin.
      pose proof (in_range_extent self ty x y ltac:(lia) ltac:(lia)). lia. }
    lia.
Qed.

Lemma in_range_writes_keep_length_witness :
  (forall (x y : Z) (c : Color) (s1 : server),
      1 <= x <= width canvas_5x5 -> 1 <= y <= height canvas_5x5 ->
      set_pixel_color canvas_5x5 x y c fresh_5x5 = (inr tt, s1) ->
      length (blob_of (db s1) (name canvas_5x5))
      = length (blob_of (db fresh_5x5) (name canvas_5x5)))
  /\ (forall (x1 y1 x2 y2 : Z) (s1 : server),
         1 <= x1 -> x2 <= width canvas_5x5 ->
         1 <= y1 -> y2 <= height canvas_5x5 ->
         set_pixel_region canvas_5x5 x1 y1 x2 y2 fresh_5x5 = (inr tt, s1) ->
         length (blob_of (db s1) (name canvas_5x5))
         = length (blob_of (db fresh_5x5) (name canvas_5x5))).
Proof.
  apply (in_range_writes_keep_length canvas_5x5
           {| signed := false; bits := 4 |} fresh_5x5);
    [reflexivity | vm_compute; discriminate].
Defined.

(** ** Construction, continued *)

(** X13.  When the module constants are at least the dimensions of the
    instance, [width <= CANVAS_WIDTH] and [height <= CANVAS_HEIGHT], the
    constructor does establish the initial state: once it has returned,
    every in-range pixel reads WHITE, whatever the store held before. *)
Theorem init_covers_smaller_canvas (CANVAS_WIDTH CANVAS_HEIGHT w h : Z)
    (fmt key hst : string) (prt : Z) (s s1 : server) (self : Canvas) :
  w <= CANVAS_WIDTH -> h <= CANVAS_HEIGHT ->
  __init__ CANVAS_WIDTH CANVAS_HEIGHT w h fmt key hst prt s = (inr self, s1) ->
  forall x y : Z,
    1 <= x <= w -> 1 <= y <= h ->
    stored_color self (db s1) x y = inr (value WHITE)
    /\ (delivered s1 ->
        fst (get_pixel_color self x y s1) = inr [value WHITE]).
Proof.
  intros HW HH Hinit x y Hx Hy.
  apply init_run in Hinit as [Hself Hfill].
  assert (Hread : stored_color self (db s1) x y = inr (value WHITE)).
  { apply (white_after_region _ _ _ _ _ x y _ _ Hfill). lia. }
  split; [exact Hread |].
  intros Hup. rewrite get_pixel_color_run. unfold delivered in Hup.
  rewrite Hup. unfold pixel_reply. now rewrite Hread.
Qed.

Lemma init_covers_smaller_canvas_witness :
  stored_color canvas_2x2
    (db (snd (__init__ 5 5 2 2 "u4" "canvas" "localhost" 6379 grey_at_1_2)))
    1 2
  = inr (value WHITE)
  /\ (delivered
        (snd (__init__ 5 5 2 2 "u4" "canvas" "localhost" 6379 grey_at_1_2)) ->
      fst (get_pixel_color canvas_2x2 1 2
             (snd (__init__ 5 5 2 2 "u4" "canvas" "localhost" 6379
                     grey_at_1_2)))
      = inr [value WHITE]).
Proof.
  apply (init_covers_smaller_canvas 5 5 2 2 "u4" "canvas" "localhost" 6379
           grey_at_1_2);
    [lia | lia | vm_compute; reflexivity | lia | lia].
Defined.

(** X14.  The number of writes the constructor makes is fixed by the
    module constants, not by the instance: a constructor that returns has
    sent [max(0, CANVAS_WIDTH) * max(0, CANVAS_HEIGHT)] commands, and with
    a constant that is not positive it returns the instance without
    touching the server at all. *)
Theorem init_writes_by_the_constants (CANVAS_WIDTH CANVAS_HEIGHT w h : Z)
    (fmt key hst : string) (prt : Z) (s : server) :
  (forall (self : Canvas) (s1 : server),
      __init__ CANVAS_WIDTH CANVAS_HEIGHT w h fmt key hst prt s
      = (inr self, s1) ->
      Z.of_nat (length (sent s1))
      = Z.of_nat (length (sent s))
        + Z.max 0 CANVAS_WIDTH * Z.max 0 CANVAS_HEIGHT)
  /\ (CANVAS_WIDTH <= 0 \/ CANVAS_HEIGHT <= 0 ->
      __init__ CANVAS_WIDTH CANVAS_HEIGHT w h fmt key hst prt s
      = (inr {| width := w; height := h; name := key; pixel_format := fmt;
                database := {| host := hst; port := prt |} |}, s)).
Proof.
  split.
  - intros self s1 Hinit. apply init_run in Hinit as [_ Hfill].
    rewrite set_pixel_region_cells in Hfill.
    apply paint_all_ok in Hfill as (_ & -> & _).
    rewrite length_app, length_map, Nat2Z.inj_add, length_region_cells.
    f_equal. f_equal; f_equal; lia.
  - intros Hempty. unfold __init__, _fill_with_white_pixels, bind.
    rewrite set_pixel_region_cells, region_cells_inverted by lia.
    reflexivity.
Qed.

(** X15.  The constructor does not check the field-width specification:
    with a malformed [pixel_format] (and positive module constants) it
    sends its first write, the store refuses it, and on a delivered round
    trip the constructor raises [ResponseError] with the data untouched
    and no instance returned. *)
Theorem init_with_malformed_format (CANVAS_WIDTH CANVAS_HEIGHT w h : Z)
    (fmt key hst : string) (prt : Z) (s : server) :
  parse_format fmt = None ->
  1 <= CANVAS_WIDTH -> 1 <= CANVAS_HEIGHT ->
  delivered s ->
  __init__ CANVAS_WIDTH CANVAS_HEIGHT w h fmt key hst prt s
  = (inl ResponseError,
     after_exchange
       (BITFIELD_SET key fmt (calculate_offset 1 1 w) (value WHITE)) s).
Proof.
  intros Hfmt HW HH Hup. unfold __init__, _fill_with_white_pixels, bind.
  rewrite set_pixel_region_cells.
  assert (Hcells : exists rest,
             region_cells 1 1 CANVAS_WIDTH CANVAS_HEIGHT = (1, 1) :: rest).
  { unfold region_cells, range.
    replace (CANVAS_HEIGHT + 1 - 1) with (Z.succ (CANVAS_HEIGHT - 1)) by lia.
    replace (CANVAS_WIDTH + 1 - 1) with (Z.succ (CANVAS_WIDTH - 1)) by lia.
    rewrite (seqZ_cons 1 (Z.succ (CANVAS_HEIGHT - 1))) by lia.
    cbn [flat_map].
    rewrite (seqZ_cons 1 (Z.succ (CANVAS_WIDTH - 1))) by lia.
    cbn [map app]. eauto. }
  destruct Hcells as [rest ->].
  cbn [for_each]. unfold bind, paint. cbn [fst snd].
  rewrite set_pixel_color_run. unfold delivered in Hup. rewrite Hup.
  cbv zeta. unfold bitfield_set_reply. cbn [pixel_format name width].
  rewrite Hfmt. reflexivity.
Qed.

Lemma init_with_malformed_format_witness :
  __init__ 5 5 2 2 "4 bits" "canvas" "localhost" 6379 grey_at_1_2
  = (inl ResponseError,
     after_exchange
       (BITFIELD_SET "canvas" "4 bits" (calculate_offset 1 1 2) (value WHITE))
       grey_at_1_2).
Proof.
  apply (init_with_malformed_format 5 5 2 2 "4 bits" "canvas" "localhost"
           6379 grey_at_1_2);
    [reflexivity | lia | lia | reflexivity].
Defined.

(** ** The script *)

(** *** Connections that deliver for a while *)

Lemma tail_drop {A : Type} (l : list A) : tail l = drop 1 l.
Proof. now destruct l. Qed.

Lemma calm_healthy (n : nat) (s : server) : outages s = [] -> calm n s.
Proof. unfold calm. intros ->. rewrite take_nil. constructor. Qed.

Lemma calm_next (n : nat) (s : server) :
  calm (S n) s -> next_fate s = Delivered.
Proof.
  unfold calm, next_fate. destruct (outages s) as [| f r]; [reflexivity |].
  cbn [take hd]. intros H. now inversion H.
Qed.

Lemma calm_split (a b : nat) (s s' : server) :
  outages s' = drop a (outages s) ->
  calm (a + b) s -> calm a s /\ calm b s'.
Proof.
  unfold calm. intros ->. generalize (outages s). intros l. revert l.
  induction a as [| a IH]; intros l H.
  - split; [constructor | exact H].
  - destruct l as [| f l].
    + rewrite drop_nil, !take_nil. split; constructor.
    + cbn [Nat.add take drop] in *. inversion H as [| ? ? Hf Hl]. subst.
      destruct (IH l Hl) as [H1 H2]. split; [now constructor | exact H2].
Qed.

Lemma calm_head (a b : nat) (s : server) : calm (a + b) s -> calm a s.
Proof.
  intros H.
  apply (calm_split a b s
           {| db := db s; sent := sent s; outages := drop a (outages s) |}
           eq_refl H).
Qed.

Lemma calm_rest (a b : nat) (s s' : server) :
  outages s' = drop a (outages s) -> calm (a + b) s -> calm b s'.
Proof. intros Hs H. apply (calm_split a b s s' Hs H). Qed.

Lemma length_scan_cells (self : Canvas) :
  length (scan_cells self)
  = (length (range 0 (height self)) * length (range 0 (width self)))%nat.
Proof.
  unfold scan_cells. generalize (range 0 (height self)). intros rows.
  induction rows as [| y rows IH]; [reflexivity |].
  cbn [flat_map length]. now rewrite length_app, length_map, IH.
Qed.

Section Calm.

Variable self : Canvas.
Variable ty : field_type.
Hypothesis Hfmt : parse_format (pixel_format self) = Some ty.

Lemma recolor_calm (w : Z * Z * Color) (s : server) :
  addressable ty (cell_index self (fst w)) ->
  calm 1 s ->
  exists s' : server,
    recolor self w s = (inr tt, s') /\ outages s' = drop 1 (outages s).
Proof.
  intros Ha Hup. unfold recolor. rewrite set_pixel_color_run.
  rewrite (calm_next 0 s Hup). cbv zeta.
  rewrite (bitfield_set_reply_eq self ty Hfmt).
  unfold cell_index in Ha.
  rewrite (bool_decide_eq_true_2 _ Ha).
  rewrite (bool_decide_eq_true_2 _ (value_is_int64 (snd w))).
  eexists. split; [reflexivity |]. cbn [outages]. apply tail_drop.
Qed.

(** While the connection delivers, a run of writes to addressable pixels
    runs through, a round trip per write. *)
Lemma recolors_calm (l : list (Z * Z * Color)) :
  forall s : server,
    (forall w, w ∈ l -> addressable ty (cell_index self (fst w))) ->
    calm (length l) s ->
    exists s' : server,
      for_each l (recolor self) s = (inr tt, s')
      /\ outages s' = drop (length l) (outages s).
Proof.
  induction l as [| w l IH]; intros s Hl Hup.
  - exists s. now split.
  - cbn [for_each length]. unfold bind.
    destruct (recolor_calm w s (Hl w ltac:(left)))
      as (s1 & -> & Hup1).
    { apply (calm_head 1 (length l) s Hup). }
    destruct (IH s1) as (s' & -> & Hup').
    + intros w' Hw'. apply Hl. now right.
    + apply (calm_rest 1 (length l) s s1 Hup1 Hup).
    + exists s'. split; [reflexivity |].
      now rewrite Hup', Hup1, drop_drop.
Qed.

(** Without wrap-around: after a run of writes of one colour, a pixel
    reads that colour when its linear index is that of a written pixel,
    and reads as before otherwise. *)
Lemma stored_color_after_recolors (c : Color) (l : list (Z * Z * Color)) :
  fits ty (value c) ->
  forall (s s' : server) (x y : Z),
    (forall w, w ∈ l -> snd w = c) ->
    (forall w, w ∈ l -> unwrapped ty (cell_index self (fst w))) ->
    unwrapped ty (linear_index x y (width self)) ->
    for_each l (recolor self) s = (inr tt, s') ->
    stored_color self (db s') x y =
    if bool_decide (linear_index x y (width self)
                      ∈ map (fun w => cell_index self (fst w)) l)
    then inr (value c) else stored_color self (db s) x y.
Proof.
  intros Hfit. pose proof (parse_format_bits _ _ Hfmt) as Hb.
  induction l as [| [[x0 y0] c0] l IH]; intros s s' x y Hc Hl U.
  - intros [= <-]. rewrite bool_decide_eq_false_2; [reflexivity |].
    simpl. apply not_elem_of_nil.
  - assert (Hc0 : c0 = c) by exact (Hc (x0, y0, c0) ltac:(left)).
    subst c0. cbn [for_each]. unfold bind.
    destruct (recolor self (x0, y0, c) s) as [[e | []] s1] eqn:Ha;
      [discriminate |].
    intros H.
    rewrite (IH _ _ _ _ (fun w Hw => Hc w ltac:(now right))
               (fun w Hw => Hl w ltac:(now right)) U H).
    unfold recolor in Ha. cbn [fst snd] in Ha.
    apply set_pixel_color_ok in Ha as (_ & [old Hr] & _).
    rewrite (stored_color_after_write self ty Hfmt _ _ _ _ _ _ x y Hr
               (Hl (x0, y0, c) ltac:(left)) U).
    rewrite wrap_fits by (assumption || lia).
    cbn [map fst snd]. unfold cell_index at 3. cbn [fst snd].
    destruct (decide (linear_index x y (width self)
                      = linear_index x0 y0 (width self))) as [He | He].
    + rewrite (bool_decide_eq_true_2 _ He).
      rewrite (bool_decide_eq_true_2 (_ ∈ _ :: _)) by (rewrite He; left).
      now case_bool_decide.
    + rewrite (bool_decide_eq_false_2 _ He).
      case_bool_decide as Hin.
      * now rewrite bool_decide_eq_true_2 by (now right).
      * rewrite bool_decide_eq_false_2; [reflexivity |].
        rewrite elem_of_cons. tauto.
Qed.

Lemma scan_row_calm (y : Z) (l : list Z) :
  (forall x, x ∈ l ->
             addressable ty (linear_index (x + 1) (y + 1) (width self))) ->
  forall (acc : string) (s : server),
    calm (length l) s ->
    exists (out : string) (s' : server),
      for_fold l acc (cell_step self y) s = (inr out, s')
      /\ outages s' = drop (length l) (outages s).
Proof.
  induction l as [| x l IH]; intros Hl acc s Hup.
  - exists acc, s. now split.
  - cbn [for_fold length]. unfold bind. rewrite cell_step_run.
    rewrite (calm_next (length l) s Hup).
    unfold pixel_reply. rewrite (stored_color_eq self ty Hfmt).
    rewrite bool_decide_eq_true_2 by (apply Hl; left).
    destruct (IH (fun x' Hx' => Hl x' ltac:(now right))
                 (acc +:+ str_list
                    [field_value (db s) (name self) ty
                       (field_bit ty
                          (linear_index (x + 1) (y + 1) (width self)))])
                 (after_exchange (read_command self (x + 1, y + 1)) s))
      as (out & s' & -> & Hup').
    + apply (calm_rest 1 (length l) s); [| exact Hup].
      cbn [after_exchange outages]. apply tail_drop.
    + exists out, s'. split; [reflexivity |].
      rewrite Hup'. cbn [after_exchange outages].
      now rewrite tail_drop, drop_drop.
Qed.

Lemma scan_rows_calm (l : list Z) :
  (forall x y, x ∈ range 0 (width self) -> y ∈ l ->
               addressable ty (linear_index (x + 1) (y + 1) (width self))) ->
  forall (acc : string) (s : server),
    calm (length l * length (range 0 (width self))) s ->
    exists (out : string) (s' : server),
      for_fold l acc (row_step self) s = (inr out, s')
      /\ outages s'
         = drop (length l * length (range 0 (width self))) (outages s).
Proof.
  induction l as [| y l IH]; intros Hl acc s Hup.
  - exists acc, s. now split.
  - rewrite for_fold_row_step.
    change (length (y :: l) * length (range 0 (width self)))%nat
      with (length (range 0 (width self))
            + length l * length (range 0 (width self)))%nat in *.
    destruct (scan_row_calm y (range 0 (width self))
                (fun x Hx => Hl x y Hx ltac:(left)) acc s)
      as (row & s1 & -> & Hup1).
    { apply (calm_head _ _ s Hup). }
    destruct (IH (fun x y' Hx Hy' => Hl x y' Hx ltac:(now right))
                 (String.concat "" [row; newline]) s1)
      as (out & s' & -> & Hup').
    { apply (calm_rest _ _ s s1 Hup1 Hup). }
    exists out, s'. split; [reflexivity |].
    now rewrite Hup', Hup1, drop_drop.
Qed.

(** While the connection delivers, the scan of a canvas the store can
    address returns the rendering of the data and changes nothing; it
    takes a round trip per pixel. *)
Lemma to_string_calm (s : server) :
  width self * height self * Z.of_nat (bits ty) <= ADDRESSABLE_BITS ->
  calm (length (scan_cells self)) s ->
  exists s' : server,
    to_string self s = (inr (render self (db s)), s')
    /\ db s' = db s
    /\ outages s' = drop (length (scan_cells self)) (outages s).
Proof.
  intros Hwhole Hup. pose proof (parse_format_bits _ _ Hfmt) as Hb.
  rewrite length_scan_cells in *.
  rewrite to_string_rows.
  destruct (scan_rows_calm (range 0 (height self))
              (fun x y Hx Hy =>
                 scan_addressable self ty x y ltac:(lia) Hwhole Hx Hy)
              "" s Hup) as (out & s' & Hrun & Hup').
  exists s'. rewrite Hrun.
  apply scan_rows_ok in Hrun as (-> & Hdb & _).
  repeat split; assumption.
Qed.

(** A fill of [cells] whose round trip [k] is not delivered raises
    [ConnectionError]; without wrap-around, the pixels of the first [k]
    cells, and that of the next one when only the reply was lost, then
    read WHITE, and the others read as before. *)
Lemma fill_interrupted (cells : list (Z * Z)) (k : nat) (f : fate)
    (s : server) :
  (k < length cells)%nat ->
  (forall cell, cell ∈ cells -> addressable ty (cell_index self cell)) ->
  (forall cell, cell ∈ cells -> unwrapped ty (cell_index self cell)) ->
  f <> Delivered ->
  outages s = replicate k Delivered ++ [f] ->
  exists s' : server,
    for_each cells (paint self) s = (inl ConnectionError, s')
    /\ outages s' = []
    /\ forall x y : Z,
         unwrapped ty (linear_index x y (width self)) ->
         stored_color self (db s') x y =
         if bool_decide
              (linear_index x y (width self)
                 ∈ map (cell_index self)
                       (take (k + match f with ReplyLost => 1 | _ => 0 end)
                             cells))
         then inr 0 else stored_color self (db s) x y.
Proof.
  intros Hk Hcells Hplain Hf Hs.
  destruct (lookup_lt_is_Some_2 cells k Hk) as [c Hc].
  assert (Hrun : for_each cells (paint self) s
                 = match for_each (take k cells) (paint self) s with
                   | (inr _, s') =>
                       for_each (c :: drop (S k) cells) (paint self) s'
                   | (inl e, s') => (inl e, s')
                   end).
  { rewrite <- (take_drop_middle _ _ _ Hc) at 1. apply for_each_app. }
  assert (Htake : forall n cell, cell ∈ take n cells -> cell ∈ cells).
  { intros n cell Hin. rewrite <- (take_drop n cells).
    apply elem_of_app. now left. }
  destruct (recolors_calm (map (fun cell => (cell, WHITE)) (take k cells)) s)
    as (s1 & Hhead & Hup1).
  { intros w Hw. apply list_elem_of_fmap in Hw as (cell & -> & Hin).
    apply Hcells. now apply (Htake k). }
  { unfold calm. rewrite length_map, length_take_le by lia.
    rewrite Hs, take_app_length' by (now rewrite length_replicate).
    now apply Forall_replicate. }
  rewrite length_map, length_take_le in Hup1 by lia.
  rewrite Hs, drop_app_length' in Hup1 by (now rewrite length_replicate).
  rewrite <- paint_is_recolor in Hhead.
  rewrite Hrun, Hhead. cbn [for_each]. unfold bind.
  unfold paint at 1. rewrite set_pixel_color_run.
  unfold next_fate. rewrite Hup1. cbn [hd tail]. cbv zeta.
  assert (Hin_c : c ∈ cells) by (now apply list_elem_of_lookup_2 in Hc).
  destruct f; [congruence | |].
  - eexists. split; [reflexivity |]. split; [reflexivity |].
    intros x y U. cbn [db]. rewrite Nat.add_0_r.
    apply (stored_color_after_paints self ty _ Hfmt _ _ x y Hhead);
      [| exact U].
    intros cell Hin. apply Hplain. now apply (Htake k).
  - eexists. split; [reflexivity |]. split; [reflexivity |].
    intros x y U. cbn [db].
    pose proof (bitfield_set_reply_eq self ty Hfmt (db s1) (fst c) (snd c)
                  (value WHITE)) as Hr.
    rewrite bool_decide_eq_true_2 in Hr by (apply (Hcells c); exact Hin_c).
    rewrite (bool_decide_eq_true_2 _ (value_is_int64 WHITE)) in Hr.
    unfold db_after_write. cbn [fst snd]. rewrite Hr.
    rewrite (stored_color_after_write self ty Hfmt _ _ _ _ _ _ x y Hr
               (Hplain c Hin_c) U).
    rewrite (stored_color_after_paints self ty _ Hfmt _ _ x y Hhead);
      [| intros cell Hin; apply Hplain; now apply (Htake k) | exact U].
    rewrite Nat.add_1_r, (take_S_r _ _ _ Hc), map_app. cbn [map].
    change (value WHITE) with 0.
    rewrite wrap_zero by (pose proof (parse_format_bits _ _ Hfmt); lia).
    destruct (decide (linear_index x y (width self)
                      = linear_index (fst c) (snd c) (width self)))
      as [He | He].
    + rewrite (bool_decide_eq_true_2 _ He).
      rewrite bool_decide_eq_true_2; [reflexivity |].
      apply elem_of_app. right. rewrite He. left.
    + rewrite (bool_decide_eq_false_2 _ He).
      case_bool_decide as Hin.
      * rewrite bool_decide_eq_true_2; [reflexivity |].
        apply elem_of_app. now left.
      * rewrite bool_decide_eq_false_2; [reflexivity |].
        rewrite elem_of_app, list_elem_of_singleton. unfold cell_index. tauto.
Qed.

Lemma recolors_healthy (l : list (Z * Z * Color)) (s : server) :
  (forall w, w ∈ l -> addressable ty (cell_index self (fst w))) ->
  outages s = [] ->
  exists s' : server,
    for_each l (recolor self) s = (inr tt, s') /\ outages s' = [].
Proof.
  intros Hl Hup.
  destruct (recolors_calm l s Hl (calm_healthy _ s Hup)) as (s' & Hrun & Hup').
  exists s'. split; [exact Hrun |]. now rewrite Hup', Hup, drop_nil.
Qed.

Lemma to_string_healthy (s : server) :
  width self * height self * Z.of_nat (bits ty) <= ADDRESSABLE_BITS ->
  outages s = [] ->
  exists s' : server,
    to_string self s = (inr (render self (db s)), s')
    /\ db s' = db s /\ outages s' = [].
Proof.
  intros Hwhole Hup.
  destruct (to_string_calm s Hwhole (calm_healthy _ s Hup))
    as (s' & Hrun & Hdb & Hup').
  exists s'. repeat split; [exact Hrun | exact Hdb |].
  now rewrite Hup', Hup, drop_nil.
Qed.

End Calm.

Lemma elem_of_scan_cells (self : Canvas) (x y : Z) :
  (x, y) ∈ scan_cells self
  <-> 1 <= x <= width self /\ 1 <= y <= height self.
Proof.
  unfold scan_cells. rewrite list_elem_of_In, in_flat_map. split.
  - intros (y' & Hy & Hx). apply in_map_iff in Hx as (x' & [= <- <-] & Hx).
    apply list_elem_of_In, elem_of_range in Hy.
    apply list_elem_of_In, elem_of_range in Hx. lia.
  - intros [Hx Hy]. exists (y - 1). split.
    + apply list_elem_of_In, elem_of_range. lia.
    + apply in_map_iff. exists (x - 1). split; [f_equal; lia |].
      apply list_elem_of_In, elem_of_range. lia.
Qed.

(** The nested loops of the script visit [grey_writes] in order. *)
Lemma grey_loop_writes (self : Canvas) (s : server) :
  for_each (range 0 (height self))
    (fun i =>
       for_each (range 0 (width self))
         (fun j => set_pixel_color self (j + 1) (i + 1) GREY)) s
  = for_each (grey_writes self) (recolor self) s.
Proof.
  unfold grey_writes, scan_cells. rewrite for_each_map, for_each_flat_map.
  generalize (range 0 (height self)). intros rows. revert s.
  induction rows as [| y rows IH]; intros s; [reflexivity |].
  cbn [for_each]. unfold bind. rewrite for_each_map.
  change (fun a : Z => recolor self ((a + 1, y + 1), GREY))
    with (fun j : Z => set_pixel_color self (j + 1) (y + 1) GREY).
  destruct (for_each (range 0 (width self)) _ s) as [[e | []] s1];
    [reflexivity | apply IH].
Qed.

(** The rendering of data whose in-range pixels show as [cell] says. *)
Lemma render_grid (self : Canvas) (d : gmap string (list Z))
    (cell : Z -> Z -> string) :
  (forall x y, 1 <= x <= width self -> 1 <= y <= height self ->
     pixel_text self d (x, y) = cell x y) ->
  render self d = grid (width self) (height self) cell.
Proof.
  intros H. unfold render, grid. f_equal.
  apply map_ext_in. intros y Hy. f_equal. f_equal.
  apply map_ext_in. intros x Hx.
  apply list_elem_of_In, elem_of_range in Hx, Hy. apply H; lia.
Qed.

Lemma pixel_text_of (self : Canvas) (d : gmap string (list Z))
    (x y v : Z) :
  stored_color self d x y = inr v ->
  pixel_text self d (x, y) = str_list [v].
Proof. intros H. unfold pixel_text, pixel_reply. cbn [fst snd]. now rewrite H. Qed.

Lemma call_run {A B : Type} (m : M A) (k : A -> P B)
    (out : list string) (s : server) :
  pbind (call m) k (out, s)
  = match m s with
    | (inr a, s') => k a (out, s')
    | (inl e, s') => (inl e, (out, s'))
    end.
Proof.
  unfold pbind, call. cbn [fst snd].
  destruct (m s) as [[e | a] s']; reflexivity.
Qed.

Lemma print_run {B : Type} (text : string) (k : unit -> P B)
    (out : list string) (s : server) :
  pbind (print text) k (out, s) = k tt (out ++ [text], s).
Proof. reflexivity. Qed.

Lemma length_whole_region (self : Canvas) :
  length (region_cells 1 1 (width self) (height self))
  = length (scan_cells self).
Proof.
  apply Nat2Z.inj.
  rewrite length_region_cells, length_scan_cells, !length_range,
    Nat2Z.inj_mul.
  replace (Z.of_nat (Z.to_nat (height self - 0)))
    with (Z.max 0 (height self - 1 + 1)) by lia.
  replace (Z.of_nat (Z.to_nat (width self - 0)))
    with (Z.max 0 (width self - 1 + 1)) by lia.
  apply Z.mul_comm.
Qed.

Lemma scan_cells_count (self : Canvas) :
  0 <= width self -> 0 <= height self ->
  length (scan_cells self) = Z.to_nat (width self * height self).
Proof.
  intros Hw Hh.
  rewrite length_scan_cells, !length_range, !Z.sub_0_r, Z2Nat.inj_mul by lia.
  apply Nat.mul_comm.
Qed.

(** On a canvas whose width covers the columns of [l], an in-range pixel
    has the linear index of a cell of [l] only if it is one. *)
Lemma index_in_cells (self : Canvas) (l : list (Z * Z)) (x y : Z) :
  (forall cell, cell ∈ l -> 1 <= fst cell <= width self) ->
  1 <= x <= width self ->
  linear_index x y (width self) ∈ map (cell_index self) l <-> (x, y) ∈ l.
Proof.
  intros Hl Hx. split.
  - intros H. apply list_elem_of_fmap in H as ([x' y'] & He & Hin).
    unfold cell_index in He. cbn [fst snd] in He.
    apply linear_index_inj in He as [-> ->];
      [exact Hin | exact Hx | exact (Hl _ Hin)].
  - intros H. apply list_elem_of_fmap. exists (x, y). now split.
Qed.

(** The script up to its [try] statement, while the connection delivers:
    two scans are printed and every pixel is left GREY. *)
Lemma main_until_try (CANVAS_WIDTH CANVAS_HEIGHT : Z)
    (PIXEL_FORMAT CANVAS_NAME REDIS_HOST_ADDRESS : string)
    (REDIS_HOST_PORT : Z) (exception_text : error -> string)
    (ty : field_type) (out : list string) (s : server) :
  let self := {| width := CANVAS_WIDTH; height := CANVAS_HEIGHT;
                 name := CANVAS_NAME; pixel_format := PIXEL_FORMAT;
                 database := {| host := REDIS_HOST_ADDRESS;
                                port := REDIS_HOST_PORT |} |} in
  let n := length (scan_cells self) in
  parse_format PIXEL_FORMAT = Some ty ->
  fits ty (value GREY) ->
  CANVAS_WIDTH * CANVAS_HEIGHT * Z.of_nat (bits ty) <= ADDRESSABLE_BITS ->
  calm (n + (n + (n + n))) s ->
  exists s' : server,
    main CANVAS_WIDTH CANVAS_HEIGHT PIXEL_FORMAT CANVAS_NAME
         REDIS_HOST_ADDRESS REDIS_HOST_PORT exception_text (out, s)
    = script_from_try self exception_text
        (out ++ [grid CANVAS_WIDTH CANVAS_HEIGHT (fun _ _ => "[0]");
                 grid CANVAS_WIDTH CANVAS_HEIGHT (fun _ _ => "[1]")], s')
    /\ outages s' = drop (n + (n + (n + n))) (outages s)
    /\ forall x y : Z,
         1 <= x <= CANVAS_WIDTH -> 1 <= y <= CANVAS_HEIGHT ->
         stored_color self (db s') x y = inr 1.
Proof.
  intros self n Hfmt Hgrey Hwhole Hc.
  pose proof (parse_format_bits _ _ Hfmt) as Hb.
  assert (Hf : parse_format (pixel_format self) = Some ty) by exact Hfmt.
  assert (Hall : width self * height self * Z.of_nat (bits ty)
                 <= ADDRESSABLE_BITS) by exact Hwhole.
  assert (Haddr : forall x y : Z,
             1 <= x <= CANVAS_WIDTH -> 1 <= y <= CANVAS_HEIGHT ->
             addressable ty (linear_index x y (width self))).
  { intros x y Hx Hy.
    apply (in_range_addressable self ty x y);
      [lia | exact Hx | exact Hy | exact Hall]. }
  assert (Hplain : forall x y : Z,
             1 <= x <= CANVAS_WIDTH -> 1 <= y <= CANVAS_HEIGHT ->
             unwrapped ty (linear_index x y (width self))).
  { intros x y Hx Hy.
    exact (in_range_unwrapped self ty x y Hx Hy Hall). }
  (* the constructor *)
  assert (Hlen0 : length (region_cells 1 1 CANVAS_WIDTH CANVAS_HEIGHT) = n)
    by exact (length_whole_region self).
  destruct (recolors_calm self ty Hf
              (map (fun cell => (cell, WHITE))
                   (region_cells 1 1 CANVAS_WIDTH CANVAS_HEIGHT)) s)
    as (s0 & Hfill & Hup0).
  { intros w Hw. apply list_elem_of_fmap in Hw as ([x y] & -> & Hin).
    apply elem_of_region_cells in Hin. apply (Haddr x y); lia. }
  { rewrite length_map, Hlen0. exact (calm_head n _ s Hc). }
  rewrite length_map, Hlen0 in Hup0.
  pose proof (calm_rest n _ s s0 Hup0 Hc) as Hc0.
  rewrite <- paint_is_recolor, <- set_pixel_region_cells in Hfill.
  assert (Hinit : __init__ CANVAS_WIDTH CANVAS_HEIGHT CANVAS_WIDTH
                    CANVAS_HEIGHT PIXEL_FORMAT CANVAS_NAME REDIS_HOST_ADDRESS
                    REDIS_HOST_PORT s = (inr self, s0)).
  { unfold __init__, _fill_with_white_pixels, bind. fold self.
    now rewrite Hfill. }
  assert (Hwhite : forall x y : Z,
             1 <= x <= CANVAS_WIDTH -> 1 <= y <= CANVAS_HEIGHT ->
             stored_color self (db s0) x y = inr 0).
  { intros x y Hx Hy.
    apply (white_after_region _ _ _ _ _ x y _ _ Hfill). lia. }
  (* the first scan *)
  destruct (to_string_calm self ty Hf s0 Hall (calm_head n _ s0 Hc0))
    as (s0' & Hscan0 & Hdb0 & Hup0').
  pose proof (calm_rest n _ s0 s0' Hup0' Hc0) as Hc1.
  (* the loop that turns the canvas GREY *)
  assert (Hlen : length (grey_writes self) = n)
    by apply length_map.
  destruct (recolors_calm self ty Hf (grey_writes self) s0')
    as (s1 & Hgrey_run & Hup1).
  { intros w Hw. apply list_elem_of_fmap in Hw as ([x y] & -> & Hin).
    apply elem_of_scan_cells in Hin. apply (Haddr x y); apply Hin. }
  { rewrite Hlen. exact (calm_head n _ s0' Hc1). }
  rewrite Hlen in Hup1.
  pose proof (calm_rest n _ s0' s1 Hup1 Hc1) as Hc2.
  assert (Hgreys : forall x y : Z,
             1 <= x <= CANVAS_WIDTH -> 1 <= y <= CANVAS_HEIGHT ->
             stored_color self (db s1) x y = inr 1).
  { intros x y Hx Hy.
    rewrite (stored_color_after_recolors self ty Hf GREY (grey_writes self)
               Hgrey s0' s1 x y); [| | | now apply Hplain | exact Hgrey_run].
    - rewrite bool_decide_eq_true_2; [reflexivity |].
      apply list_elem_of_fmap. exists ((x, y), GREY). split; [reflexivity |].
      apply list_elem_of_fmap. exists (x, y). split; [reflexivity |].
      apply elem_of_scan_cells. split; assumption.
    - intros w Hw. now apply list_elem_of_fmap in Hw as (cell & -> & _).
    - intros w Hw. apply list_elem_of_fmap in Hw as ([x0 y0] & -> & Hin).
      apply elem_of_scan_cells in Hin. apply (Hplain x0 y0); apply Hin. }
  rewrite <- grey_loop_writes in Hgrey_run.
  (* the second scan *)
  destruct (to_string_calm self ty Hf s1 Hall Hc2)
    as (s1' & Hscan1 & Hdb1 & Hup1').
  assert (Hr0 : render self (db s0)
                = grid CANVAS_WIDTH CANVAS_HEIGHT (fun _ _ => "[0]")).
  { apply (render_grid self). intros x y Hx Hy.
    now rewrite (pixel_text_of self _ x y 0) by (now apply Hwhite). }
  assert (Hr1 : render self (db s1)
                = grid CANVAS_WIDTH CANVAS_HEIGHT (fun _ _ => "[1]")).
  { apply (render_grid self). intros x y Hx Hy.
    now rewrite (pixel_text_of self _ x y 1) by (now apply Hgreys). }
  exists s1'. split; [| split].
  - unfold main.
    rewrite call_run, Hinit. cbv beta iota.
    rewrite call_run, Hscan0. cbv beta iota. rewrite print_run.
    rewrite call_run.
    change (for_each (range 0 CANVAS_HEIGHT)
              (fun i => for_each (range 0 CANVAS_WIDTH)
                          (fun j => set_pixel_color self (j + 1) (i + 1) GREY))
              s0')
      with (for_each (range 0 (height self))
              (fun i => for_each (range 0 (width self))
                          (fun j => set_pixel_color self (j + 1) (i + 1) GREY))
              s0').
    rewrite Hgrey_run. cbv beta iota.
    rewrite call_run, Hscan1. cbv beta iota. rewrite print_run.
    rewrite Hr0, Hr1, <- app_assoc. reflexivity.
  - rewrite Hup1', Hup1, Hup0', Hup0, !drop_drop. reflexivity.
  - intros x y Hx Hy. rewrite Hdb1. now apply Hgreys.
Qed.

(** X16.  The script on a healthy connection, with a valid format in
    which GREY fits, module constants of at least 4 and a store that can
    address the canvas: it returns, having printed the scan of the WHITE
    canvas, the scan of the GREY canvas, ["Completed"], and the scan in
    which the pixels of rows and columns 2 to 4 are WHITE and the others
    GREY.  Every pixel shows as the text of a one-element list. *)
Theorem main_on_a_healthy_store (CANVAS_WIDTH CANVAS_HEIGHT : Z)
    (PIXEL_FORMAT CANVAS_NAME REDIS_HOST_ADDRESS : string)
    (REDIS_HOST_PORT : Z) (exception_text : error -> string)
    (ty : field_type) (out : list string) (s : server) :
  parse_format PIXEL_FORMAT = Some ty ->
  fits ty (value GREY) ->
  4 <= CANVAS_WIDTH -> 4 <= CANVAS_HEIGHT ->
  CANVAS_WIDTH * CANVAS_HEIGHT * Z.of_nat (bits ty) <= ADDRESSABLE_BITS ->
  outages s = [] ->
  exists s' : server,
    main CANVAS_WIDTH CANVAS_HEIGHT PIXEL_FORMAT CANVAS_NAME
         REDIS_HOST_ADDRESS REDIS_HOST_PORT exception_text (out, s)
    = (inr tt,
       (out ++ [grid CANVAS_WIDTH CANVAS_HEIGHT (fun _ _ => "[0]");
                grid CANVAS_WIDTH CANVAS_HEIGHT (fun _ _ => "[1]");
                "Completed";
                grid CANVAS_WIDTH CANVAS_HEIGHT
                  (fun x y => if bool_decide (2 <= x <= 4 /\ 2 <= y <= 4)
                              then "[0]" else "[1]")],
        s')).
Proof.
  intros Hfmt Hgrey HW HH Hwhole Hup.
  pose proof (parse_format_bits _ _ Hfmt) as Hb.
  destruct (main_until_try CANVAS_WIDTH CANVAS_HEIGHT PIXEL_FORMAT
              CANVAS_NAME REDIS_HOST_ADDRESS REDIS_HOST_PORT exception_text
              ty out s Hfmt Hgrey Hwhole (calm_healthy _ s Hup))
    as (s1 & -> & Hup1 & Hgreys).
  rewrite Hup, drop_nil in Hup1.
  set (self := {| width := CANVAS_WIDTH; height := CANVAS_HEIGHT;
                  name := CANVAS_NAME; pixel_format := PIXEL_FORMAT;
                  database := {| host := REDIS_HOST_ADDRESS;
                                 port := REDIS_HOST_PORT |} |}) in *.
  assert (Hf : parse_format (pixel_format self) = Some ty) by exact Hfmt.
  assert (Hall : width self * height self * Z.of_nat (bits ty)
                 <= ADDRESSABLE_BITS) by exact Hwhole.
  (* the fill of the try block *)
  destruct (recolors_healthy self ty Hf
              (map (fun cell => (cell, WHITE)) (region_cells 2 2 4 4)) s1)
    as (s2 & Hfill2 & Hup2); [| assumption |].
  { intros w Hw. apply list_elem_of_fmap in Hw as ([x y] & -> & Hin).
    apply elem_of_region_cells in Hin.
    apply (in_range_addressable self ty x y);
      [lia | | | exact Hall]; cbn [self width height]; lia. }
  rewrite <- paint_is_recolor, <- set_pixel_region_cells in Hfill2.
  assert (Hlast : forall x y : Z,
             1 <= x <= CANVAS_WIDTH -> 1 <= y <= CANVAS_HEIGHT ->
             stored_color self (db s2) x y
             = inr (if bool_decide (2 <= x <= 4 /\ 2 <= y <= 4)
                    then 0 else 1)).
  { intros x y Hx Hy.
    assert (Hin_range : forall a b : Z,
               1 <= a <= CANVAS_WIDTH -> 1 <= b <= CANVAS_HEIGHT ->
               unwrapped ty (linear_index a b (width self)))
      by (intros a b Ha Hb'; exact (in_range_unwrapped self ty a b Ha Hb' Hall)).
    rewrite (reads_after_region self ty 2 2 4 4 x y s1 s2 Hf ltac:(lia) HW
               (Hin_range 2 2 ltac:(lia) ltac:(lia))
               (Hin_range 4 4 ltac:(lia) ltac:(lia))
               (Hin_range x y Hx Hy) Hfill2).
    destruct (decide (2 <= x <= 4 /\ 2 <= y <= 4)) as [Hin | Hout].
    - rewrite (bool_decide_eq_true_2 _ Hin).
      rewrite bool_decide_eq_true_2; [reflexivity |].
      now apply index_of_region_cell.
    - rewrite (bool_decide_eq_false_2 _ Hout).
      rewrite bool_decide_eq_false_2.
      + now apply Hgreys.
      + rewrite index_in_region; [assumption | lia | exact HW | exact Hx]. }
  (* the last scan *)
  destruct (to_string_healthy self ty Hf s2 Hall Hup2)
    as (s2' & Hscan2 & Hdb2 & Hup2').
  exists s2'. unfold script_from_try.
  unfold pbind at 1. unfold try_except. rewrite call_run, Hfill2.
  cbv beta iota. unfold print at 1. cbv beta iota. cbn [fst snd].
  rewrite call_run, Hscan2. cbv beta iota. unfold print. cbn [fst snd].
  rewrite <- !app_assoc. cbn [app].
  do 3 f_equal.
  assert (Hr2 : render self (db s2)
                = grid CANVAS_WIDTH CANVAS_HEIGHT
                    (fun x y => if bool_decide (2 <= x <= 4 /\ 2 <= y <= 4)
                                then "[0]" else "[1]")).
  { apply (render_grid self). intros x y Hx Hy.
    rewrite (pixel_text_of self _ x y _ (Hlast x y Hx Hy)).
    now case_bool_decide. }
  now rewrite Hr2.
Qed.

Lemma main_on_a_healthy_store_witness :
  exists s' : server,
    main 5 5 "u4" "canvas" "localhost" 6379 sample_text ([], empty_server)
    = (inr tt,
       ([] ++ [grid 5 5 (fun _ _ => "[0]");
               grid 5 5 (fun _ _ => "[1]");
               "Completed";
               grid 5 5 (fun x y => if bool_decide (2 <= x <= 4 /\ 2 <= y <= 4)
                                    then "[0]" else "[1]")],
        s')).
Proof.
  apply (main_on_a_healthy_store 5 5 "u4" "canvas" "localhost" 6379
           sample_text {| signed := false; bits := 4 |} [] empty_server);
    [reflexivity | vm_compute; split; [discriminate | reflexivity]
     | lia | lia | vm_compute; discriminate | reflexivity].
Defined.

(** X17.  The script on a connection that delivers up to round trip [k]
    of the fill of its [try] block ([k < 9]) and fails there, once: the
    exception is caught, its text is printed where ["Completed"] would
    have been, and the script goes on to print the last scan and return.
    That scan shows the partial fill: WHITE at the first [k] pixels of the
    region in row-major order, and at the next one as well when only the
    reply was lost, GREY elsewhere. *)
Theorem main_reports_interrupted_fill (CANVAS_WIDTH CANVAS_HEIGHT : Z)
    (PIXEL_FORMAT CANVAS_NAME REDIS_HOST_ADDRESS : string)
    (REDIS_HOST_PORT : Z) (exception_text : error -> string)
    (ty : field_type) (out : list string) (s : server)
    (k : nat) (f : fate) :
  parse_format PIXEL_FORMAT = Some ty ->
  fits ty (value GREY) ->
  4 <= CANVAS_WIDTH -> 4 <= CANVAS_HEIGHT ->
  CANVAS_WIDTH * CANVAS_HEIGHT * Z.of_nat (bits ty) <= ADDRESSABLE_BITS ->
  (k < 9)%nat -> f <> Delivered ->
  outages s
  = replicate (4 * Z.to_nat (CANVAS_WIDTH * CANVAS_HEIGHT) + k) Delivered
    ++ [f] ->
  exists s' : server,
    main CANVAS_WIDTH CANVAS_HEIGHT PIXEL_FORMAT CANVAS_NAME
         REDIS_HOST_ADDRESS REDIS_HOST_PORT exception_text (out, s)
    = (inr tt,
       (out ++ [grid CANVAS_WIDTH CANVAS_HEIGHT (fun _ _ => "[0]");
                grid CANVAS_WIDTH CANVAS_HEIGHT (fun _ _ => "[1]");
                exception_text ConnectionError;
                grid CANVAS_WIDTH CANVAS_HEIGHT
                  (fun x y =>
                     if bool_decide
                          ((x, y)
                             ∈ take (k + match f with
                                          | ReplyLost => 1
                                          | _ => 0
                                          end)
                                    (region_cells 2 2 4 4))
                     then "[0]" else "[1]")],
        s')).
Proof.
  intros Hfmt Hgrey HW HH Hwhole Hk Hf' Hs.
  pose proof (parse_format_bits _ _ Hfmt) as Hb.
  pose (self := {| width := CANVAS_WIDTH; height := CANVAS_HEIGHT;
                   name := CANVAS_NAME; pixel_format := PIXEL_FORMAT;
                   database := {| host := REDIS_HOST_ADDRESS;
                                  port := REDIS_HOST_PORT |} |}).
  assert (Hn : length (scan_cells self)
               = Z.to_nat (CANVAS_WIDTH * CANVAS_HEIGHT)).
  { apply (scan_cells_count self); cbn [self width height]; lia. }
  assert (Hsplit : outages s
                   = replicate (length (scan_cells self)
                                + (length (scan_cells self)
                                   + (length (scan_cells self)
                                      + length (scan_cells self))))
                               Delivered
                     ++ (replicate k Delivered ++ [f])).
  { rewrite Hs, app_assoc, <- replicate_add. do 2 f_equal. lia. }
  destruct (main_until_try CANVAS_WIDTH CANVAS_HEIGHT PIXEL_FORMAT
              CANVAS_NAME REDIS_HOST_ADDRESS REDIS_HOST_PORT exception_text
              ty out s Hfmt Hgrey Hwhole)
    as (s1 & -> & Hup1 & Hgreys).
  { unfold calm. rewrite Hsplit.
    rewrite take_app_length' by (now rewrite length_replicate).
    now apply Forall_replicate. }
  fold self in Hup1, Hgreys |- *.
  rewrite Hsplit, drop_app_length' in Hup1 by (now rewrite length_replicate).
  assert (Hf : parse_format (pixel_format self) = Some ty) by exact Hfmt.
  assert (Hall : width self * height self * Z.of_nat (bits ty)
                 <= ADDRESSABLE_BITS) by exact Hwhole.
  assert (Hcols : forall cell, cell ∈ region_cells 2 2 4 4 ->
                               1 <= fst cell <= width self).
  { intros [x y] Hin. apply elem_of_region_cells in Hin.
    cbn [fst self width]. lia. }
  (* the fill of the try block *)
  destruct (fill_interrupted self ty Hf (region_cells 2 2 4 4) k f s1)
    as (s2 & Hfail & Hup2 & Hcol); [exact Hk | | | exact Hf' | exact Hup1 |].
  { intros [x y] Hin. apply elem_of_region_cells in Hin.
    apply (in_range_addressable self ty x y);
      [lia | | | exact Hall]; cbn [self width height]; lia. }
  { intros [x y] Hin. apply elem_of_region_cells in Hin.
    apply (in_range_unwrapped self ty x y); [| | exact Hall];
      cbn [self width height]; lia. }
  rewrite <- set_pixel_region_cells in Hfail.
  (* the last scan *)
  destruct (to_string_healthy self ty Hf s2 Hall Hup2)
    as (s2' & Hscan2 & Hdb2 & Hup2').
  exists s2'. unfold script_from_try.
  unfold pbind at 1. unfold try_except. rewrite call_run, Hfail.
  cbv beta iota. unfold print at 1. cbv beta iota. cbn [fst snd].
  rewrite call_run, Hscan2. cbv beta iota. unfold print. cbn [fst snd].
  rewrite <- !app_assoc. cbn [app].
  do 3 f_equal.
  assert (Hr2 : render self (db s2)
                = grid CANVAS_WIDTH CANVAS_HEIGHT
                    (fun x y =>
                       if bool_decide
                            ((x, y)
                               ∈ take (k + match f with
                                            | ReplyLost => 1
                                            | _ => 0
                                            end)
                                      (region_cells 2 2 4 4))
                       then "[0]" else "[1]")).
  { apply (render_grid self). intros x y Hx Hy.
    set (written := take _ (region_cells 2 2 4 4)) in *.
    assert (Hw : linear_index x y (width self)
                   ∈ map (cell_index self) written
                 <-> (x, y) ∈ written).
    { apply index_in_cells; [| exact Hx].
      intros cell Hin. apply Hcols.
      rewrite <- (take_drop (k + match f with ReplyLost => 1 | _ => 0 end)
                    (region_cells 2 2 4 4)).
      apply elem_of_app. now left. }
    rewrite (pixel_text_of self _ x y
               (if bool_decide ((x, y) ∈ written) then 0 else 1)).
    - now case_bool_decide.
    - rewrite Hcol by (now apply (in_range_unwrapped self ty x y)).
      fold written.
      destruct (decide ((x, y) ∈ written)) as [Hin | Hout].
      + rewrite (bool_decide_eq_true_2 _ Hin).
        now rewrite bool_decide_eq_true_2 by (now apply Hw).
      + rewrite (bool_decide_eq_false_2 _ Hout).
        rewrite bool_decide_eq_false_2 by (now rewrite Hw).
        now apply Hgreys. }
  now rewrite Hr2.
Qed.

Lemma main_reports_interrupted_fill_witness :
  exists s' : server,
    main 5 5 "u4" "canvas" "localhost" 6379 sample_text ([], lost_after 103)
    = (inr tt,
       ([] ++ [grid 5 5 (fun _ _ => "[0]");
               grid 5 5 (fun _ _ => "[1]");
               sample_text ConnectionError;
               grid 5 5
                 (fun x y =>
                    if bool_decide
                         ((x, y)
                            ∈ take (3 + match RequestLost with
                                        | ReplyLost => 1
                                        | _ => 0
                                        end)
                                   (region_cells 2 2 4 4))
                    then "[0]" else "[1]")],
        s')).
Proof.
  apply (main_reports_interrupted_fill 5 5 "u4" "canvas" "localhost" 6379
           sample_text {| signed := false; bits := 4 |} [] (lost_after 103)
           3 RequestLost);
    [reflexivity | vm_compute; split; [discriminate | reflexivity]
     | lia | lia | vm_compute; discriminate | lia | discriminate
     | reflexivity].
Defined.

(** ** The length of the stored value over the life of a canvas *)

(** The data a fill leaves behind, whatever its outcome: that of the
    writes of an initial part of the rectangle. *)
Lemma fill_data (self : Canvas) (x1 y1 x2 y2 : Z) (s : server) :
  exists n : nat,
    db (snd (set_pixel_region self x1 y1 x2 y2 s))
    = foldl (db_after_write self 0) (db s) (take n (region_cells x1 y1 x2 y2)).
Proof.
  destruct (fill_stops_at_first_raise self x1 y1 x2 y2 s)
    as (k & _ & [Hdb | [_ Hdb]] & _); eauto.
Qed.

Section Lifetime.

Variable self : Canvas.
Variable ty : field_type.
Hypothesis Hfmt : parse_format (pixel_format self) = Some ty.

Variable len : nat.
Hypothesis Hlen :
  packed_length (width self) (height self) ty <= Z.of_nat len.

Lemma write_keeps_length (v : Z) (d : gmap string (list Z)) (x y : Z) :
  1 <= x <= width self -> 1 <= y <= height self ->
  holds self len d -> holds self len (db_after_write self v d (x, y)).
Proof.
  intros Hx Hy [Hkey Hl]. unfold db_after_write. cbn [fst snd].
  rewrite (bitfield_set_reply_eq self ty Hfmt).
  case_bool_decide; [| now split]. case_bool_decide; [| now split].
  split.
  - unfold field_store. rewrite lookup_insert_eq. eauto.
  - rewrite length_blob_store, Hl.
    pose proof (in_range_extent self ty x y Hx Hy) as He.
    unfold cell_extent, cell_index in He. cbn [fst snd] in He. lia.
Qed.

Lemma writes_keep_length (l : list (Z * Z)) :
  (forall cell, cell ∈ l -> 1 <= fst cell <= width self
                            /\ 1 <= snd cell <= height self) ->
  forall d : gmap string (list Z),
    holds self len d -> holds self len (foldl (db_after_write self 0) d l).
Proof.
  induction l as [| [x y] l IH]; intros Hl d Hd; [exact Hd |].
  cbn [foldl]. apply IH; [intros cell Hc; apply Hl; now right |].
  destruct (Hl (x, y) ltac:(left)) as [Hx Hy].
  now apply write_keeps_length.
Qed.

(** A call that writes to pixels of the canvas only leaves the length of
    the value as it is, whether it returns or raises. *)
Lemma call_keeps_length (c : method_call) (s : server) :
  writes_on_canvas self c ->
  holds self len (db s) -> holds self len (db (after_call self s c)).
Proof.
  intros Hc Hs. destruct c as [x y | x y color | x1 y1 x2 y2 | |];
    cbn [after_call writes_on_canvas] in *.
  - now rewrite get_pixel_color_run.
  - destruct Hc as [Hx Hy].
    destruct (set_pixel_color_data self x y color s) as [-> | ->];
      [exact Hs | now apply write_keeps_length].
  - destruct Hc as (H1 & H2 & H3 & H4).
    destruct (fill_data self x1 y1 x2 y2 s) as [n ->].
    apply writes_keep_length; [| exact Hs].
    intros [x y] Hin.
    assert (Hin' : (x, y) ∈ region_cells x1 y1 x2 y2).
    { rewrite <- (take_drop n (region_cells x1 y1 x2 y2)).
      apply elem_of_app. now left. }
    apply elem_of_region_cells in Hin'. cbn [fst snd]. lia.
  - now rewrite get_canvas_run.
  - rewrite to_string_rows.
    now rewrite (proj1 (scan_rows_any self _ "" s)).
Qed.

Lemma calls_keep_length (calls : list method_call) :
  Forall (writes_on_canvas self) calls ->
  forall s : server,
    holds self len (db s) -> holds self len (db (after_calls self calls s)).
Proof.
  unfold after_calls.
  induction calls as [| c calls IH]; intros Hall s Hs; [exact Hs |].
  cbn [foldl]. inversion Hall as [| ? ? Hc Hrest]; subst.
  apply IH; [exact Hrest |]. now apply call_keeps_length.
Qed.

End Lifetime.

(** C7, amended.  [get_canvas] makes one whole-value read and returns what
    is stored under the key as it is, without decoding ([None] when the
    key does not exist).  Once a canvas has been constructed with
    [width = CANVAS_WIDTH >= 1] and [height = CANVAS_HEIGHT >= 1], and
    after any calls of its methods that write to pixels of the canvas
    only, whether they returned or raised, the value exists and its length
    is the larger of its length before construction and
    [ceil(width * height * bits / 8)]; so it is exactly
    [ceil(width * height * bits / 8)] bytes when the key did not exist
    before. *)
Theorem get_canvas_verbatim :
  (forall (self : Canvas) (s : server),
      delivered s ->
      get_canvas self s
      = (inr (db s !! name self), after_exchange (GET (name self)) s))
  /\ (forall (W H : Z) (fmt key hst : string) (prt : Z) (ty : field_type)
             (s s1 : server) (self : Canvas) (calls : list method_call),
         parse_format fmt = Some ty -> 1 <= W -> 1 <= H ->
         __init__ W H W H fmt key hst prt s = (inr self, s1) ->
         Forall (writes_on_canvas self) calls ->
         delivered (after_calls self calls s1) ->
         exists blob : list Z,
           fst (get_canvas self (after_calls self calls s1)) = inr (Some blob)
           /\ Z.of_nat (length blob)
              = Z.max (Z.of_nat (length (blob_of (db s) key)))
                      (packed_length W H ty)
           /\ (db s !! key = None ->
               Z.of_nat (length blob) = packed_length W H ty)).
Proof.
  split.
  - intros self s Hup. rewrite get_canvas_run. unfold delivered in Hup.
    now rewrite Hup.
  - intros W H fmt key hst prt ty s s1 self calls Hfmt HW HH Hinit Hcalls Hup.
    apply init_run in Hinit as [Hself Hfill].
    assert (Hw : width self = W) by now rewrite Hself.
    assert (Hh : height self = H) by now rewrite Hself.
    assert (Hk : name self = key) by now rewrite Hself.
    assert (Hf : parse_format (pixel_format self) = Some ty)
      by now rewrite Hself.
    rewrite set_pixel_region_cells in Hfill.
    rewrite <- Hw in Hfill.
    assert (U : unwrapped ty (width self * H - 1)).
    { pose proof (whole_fill_fits self ty H s s1 Hf ltac:(lia) HH Hfill).
      assert (0 <= width self * H - 1) by nia.
      assert (0 <= (width self * H - 1) * Z.of_nat (bits ty))
        by (apply Z.mul_nonneg_nonneg; lia).
      unfold unwrapped, ADDRESSABLE_BITS in *. lia. }
    assert (Hlen : Z.of_nat (length (blob_of (db s1) (name self)))
                   = Z.max (Z.of_nat (length (blob_of (db s) key)))
                           (packed_length W H ty)).
    { rewrite (length_after_paints self ty Hf _ _ _ Hfill).
      destruct (full_region_extent self ty H ltac:(lia) HH U) as [Htop Hle].
      rewrite (foldl_max_exact _ _ _ Htop Hle).
      rewrite Nat2Z.inj_max, bytes_for_packed, Hk, Hw by (assumption || nia).
      reflexivity. }
    assert (Hkey : is_Some (db s1 !! name self)).
    { rewrite (key_after_paints self ty Hf _ _ _ Hfill); [eauto |]. left.
      intros E.
      assert (Hin : (1, 1) ∈ region_cells 1 1 (width self) H)
        by (apply elem_of_region_cells; lia).
      rewrite E in Hin. now apply not_elem_of_nil in Hin. }
    destruct (calls_keep_length self ty Hf
                (length (blob_of (db s1) (name self)))
                ltac:(rewrite Hlen, Hw, Hh; lia) calls Hcalls s1
                (conj Hkey eq_refl)) as [[blob Hblob] Hsame].
    exists blob.
    assert (Hb : blob_of (db (after_calls self calls s1)) (name self) = blob)
      by (unfold blob_of; now rewrite Hblob).
    rewrite Hb in Hsame.
    repeat split.
    + rewrite get_canvas_run. unfold delivered in Hup. rewrite Hup.
      cbn [fst]. now rewrite Hblob.
    + now rewrite Hsame.
    + intros Hnone. rewrite Hsame, Hlen. unfold blob_of. rewrite Hnone. simpl.
      unfold packed_length.
      assert (0 <= (W * H * Z.of_nat (bits ty) + 7) / 8)
        by (apply Z.div_pos; nia).
      lia.
Qed.

(** C7 as stated fails: [canvas_2x2] packs into [ceil(2*2*4/8) = 2] bytes,
    but constructed (with [CANVAS_WIDTH = CANVAS_HEIGHT = 2]) over a key
    that held three bytes, [get_canvas] returns three bytes. *)
Lemma get_canvas_longer_than_packed :
  let outcome :=
    __init__ 2 2 2 2 "u4" "canvas" "localhost" 6379 three_bytes_stored in
  fst outcome = inr canvas_2x2
  /\ fst (get_canvas canvas_2x2 (snd outcome)) = inr (Some [0; 0; 255])
  /\ packed_length (width canvas_2x2) (height canvas_2x2)
       {| signed := false; bits := 4 |} = 2
  /\ Z.of_nat (length [0; 0; 255])
     <> packed_length (width canvas_2x2) (height canvas_2x2)
          {| signed := false; bits := 4 |}.
Proof.
  repeat split; try (vm_compute; congruence).
Qed.

Lemma get_canvas_verbatim_witness :
  (exists blob : list Z,
      fst (get_canvas canvas_2x2
             (after_calls canvas_2x2
                [Set_pixel_color 2 2 GREY; Set_pixel_region 1 1 2 1;
                 To_string; Get_pixel_color 1 1]
                (snd (__init__ 2 2 2 2 "u4" "canvas" "localhost" 6379
                        three_bytes_stored))))
      = inr (Some blob)
      /\ Z.of_nat (length blob)
         = Z.max (Z.of_nat (length (blob_of (db three_bytes_stored) "canvas")))
                 (packed_length 2 2 {| signed := false; bits := 4 |})
      /\ (db three_bytes_stored !! "canvas" = None ->
          Z.of_nat (length blob)
          = packed_length 2 2 {| signed := false; bits := 4 |}))
  /\ (exists blob : list Z,
         fst (get_canvas canvas_2x2
                (after_calls canvas_2x2 [Set_pixel_color 2 2 GREY]
                   (snd (__init__ 2 2 2 2 "u4" "canvas" "localhost" 6379
                           empty_server))))
         = inr (Some blob)
         /\ Z.of_nat (length blob)
            = Z.max (Z.of_nat (length (blob_of (db empty_server) "canvas")))
                    (packed_length 2 2 {| signed := false; bits := 4 |})
         /\ (db empty_server !! "canvas" = None ->
             Z.of_nat (length blob)
             = packed_length 2 2 {| signed := false; bits := 4 |})).
Proof.
  split.
  - apply (proj2 get_canvas_verbatim 2 2 "u4" "canvas" "localhost" 6379
             {| signed := false; bits := 4 |} three_bytes_stored _ canvas_2x2);
      [reflexivity | lia | lia | vm_compute; reflexivity
       | repeat constructor; simpl; lia | vm_compute; reflexivity].
  - apply (proj2 get_canvas_verbatim 2 2 "u4" "canvas" "localhost" 6379
             {| signed := false; bits := 4 |} empty_server _ canvas_2x2);
      [reflexivity | lia | lia | vm_compute; reflexivity
       | repeat constructor; simpl; lia | vm_compute; reflexivity].
Defined.
